(** * dbt parse results: the registry of parsed artifacts and its reuse

    A shallow embedding of [core/dbt/parser/results.py]: the [ParseResult]
    dataclass, its insertion methods, [has_file], [_get_disabled] and
    [sanitized_update], with the theorems that relate them to the
    specification of the incremental parse-result cache.

    Python objects are shared and mutated in place.  A [SourceFile] is
    therefore a location in a store of file records; the [files] dictionary
    of a registry holds locations, and appending an id to
    [self.get_file(source_file).nodes] writes through the location, so that
    every alias of the record sees it.  Methods are computations in a state
    monad whose outcome is a value or a raised exception; the state reached
    when an exception is raised is kept, as in Python. *)

From stdpp Require Import base option list strings gmap fin_maps.

Set Default Proof Using "Type".
Open Scope string_scope.
Open Scope list_scope.

(** ** Data model *)

(** Modelled from the spec: the declaration of [FileHash]
    (dbt.contracts.graph.manifest) is missing.  A fingerprint is an opaque
    digest that is only ever compared for equality. *)
Definition FileHash := string.

(** Modelled from the spec: the declarations of [FilePath] and [RemoteFile]
    are missing.  The methods below only test [isinstance(path, RemoteFile)]
    and read [path.original_file_path], which both kinds of path expose. *)
Inductive Path :=
| FilePath (original : string)
| RemoteFile (original : string).

Definition isinstance_RemoteFile (p : Path) : bool :=
  match p with RemoteFile _ => true | FilePath _ => false end.

Definition path_original_file_path (p : Path) : string :=
  match p with FilePath s => s | RemoteFile s => s end.

(** Modelled from the spec: the declaration of [SourceFile] is missing.  It
    carries the path, the fingerprint, the five per-file sequences and the
    derived [search_key], which is absent for files that are never cached. *)
Record SourceFile := mkSourceFile {
  path : Path;
  checksum : FileHash;
  search_key : option string;
  nodes : list string;
  docs : list string;
  macros : list string;
  sources : list string;
  patches : list string
}.

(** Modelled from the spec: the declarations of the parsed artifacts
    (dbt.contracts.graph.parsed) are missing.  Only the attributes the
    registry reads are named, the rest of an artifact is an opaque body. *)
Record ParsedNode := mkNode {
  node_unique_id : string;
  original_file_path : string;
  node_body : string
}.

Record ParsedSourceDefinition := mkSource {
  source_unique_id : string;
  source_body : string
}.

Record ParsedDocumentation := mkDoc {
  doc_unique_id : string;
  doc_body : string
}.

Record ParsedMacro := mkMacro {
  macro_unique_id : string;
  macro_body : string
}.

Record ParsedNodePatch := mkPatch {
  name : string;
  patch_body : string
}.

(** The values of type [HasUniqueID] the registry handles. *)
Inductive Resource :=
| NodeResource (n : ParsedNode)
| SourceResource (s : ParsedSourceDefinition)
| DocResource (d : ParsedDocumentation)
| MacroResource (m : ParsedMacro).

(** The [HasUniqueID] protocol that bounds [ParsedValueType]. *)
Class HasUniqueID (A : Type) := {
  unique_id : A → string;
  upcast : A → Resource
}.

#[export] Instance node_has_unique_id : HasUniqueID ParsedNode :=
  {| unique_id := node_unique_id; upcast := NodeResource |}.
#[export] Instance source_has_unique_id : HasUniqueID ParsedSourceDefinition :=
  {| unique_id := source_unique_id; upcast := SourceResource |}.
#[export] Instance doc_has_unique_id : HasUniqueID ParsedDocumentation :=
  {| unique_id := doc_unique_id; upcast := DocResource |}.
#[export] Instance macro_has_unique_id : HasUniqueID ParsedMacro :=
  {| unique_id := macro_unique_id; upcast := MacroResource |}.

(** A reference to a [SourceFile] object. *)
Definition loc := nat.

(** The [ParseResult] dataclass.  [files] maps a search key to the file
    object registered under it.  The fields [nodes], [sources], [docs],
    [macros] and [patches] are [r_nodes], ..., [r_patches] here, the plain
    names being those of the sequences of [SourceFile]. *)
Record ParseResult := mkParseResult {
  vars_hash : FileHash;
  profile_hash : FileHash;
  project_hashes : gmap string FileHash;
  r_nodes : gmap string ParsedNode;
  r_sources : gmap string ParsedSourceDefinition;
  r_docs : gmap string ParsedDocumentation;
  r_macros : gmap string ParsedMacro;
  r_patches : gmap string ParsedNodePatch;
  files : gmap string loc;
  disabled : gmap string (list ParsedNode);
  dbt_version : string
}.

(** Modelled from the spec: the exception classes (dbt.exceptions) are
    missing.  A duplicate-name error carries the two artifacts it reports;
    the message of a [CompilationException] or [InternalException] is
    represented by the values formatted into it. *)
Inductive Exn :=
| DuplicateResourceName (value existing : Resource)
| DuplicatePatchName (patch_name : string) (patch existing : ParsedNodePatch)
| InternalException (unique_id : string)
| CompilationException (key : string) (table : string).

(** ** The monad of methods *)

(** [OutOfFuel]: a [for] loop over a list that keeps growing was cut off.
    [Stuck]: a reference to no object, which Python cannot produce. *)
Inductive Outcome (A : Type) :=
| Ok (a : A)
| Raise (e : Exn)
| OutOfFuel
| Stuck.
Arguments Ok {A} a.
Arguments Raise {A} e.
Arguments OutOfFuel {A}.
Arguments Stuck {A}.

Definition M (St A : Type) : Type := St → Outcome A * St.

Definition ret {St A} (a : A) : M St A := λ s, (Ok a, s).

Definition bind {St A B} (m : M St A) (k : A → M St B) : M St B :=
  λ s, match m s with
       | (Ok a, s') => k a s'
       | (Raise e, s') => (Raise e, s')
       | (OutOfFuel, s') => (OutOfFuel, s')
       | (Stuck, s') => (Stuck, s')
       end.

Definition raise {St A} (e : Exn) : M St A := λ s, (Raise e, s).
Definition stuck {St A} : M St A := λ s, (Stuck, s).
Definition gets {St A} (f : St → A) : M St A := λ s, (Ok (f s), s).
Definition modify {St} (f : St → St) : M St unit := λ s, (Ok tt, f s).

Notation "x <- m ;; k" := (bind m (λ x, k))
  (at level 100, m at next level, right associativity).
Notation "m ;;; k" := (bind m (λ _, k))
  (at level 100, right associativity).

(** A [for x in xs] loop over a list built by the caller and not shared. *)
Fixpoint for_each {St A} (body : A → M St unit) (xs : list A) : M St unit :=
  match xs with
  | [] => ret tt
  | x :: xs' => body x ;;; for_each body xs'
  end.

(** A [for x in obj.attr] loop over a list that lives in the store: the
    iterator keeps an index and reads the list again at every step, so
    entries appended by the body are visited too. *)
Fixpoint for_in {St A} (fuel : nat) (live : St → option (list A))
    (body : A → M St unit) (i : nat) : M St unit :=
  λ s, match fuel with
       | O => (OutOfFuel, s)
       | S fuel' =>
           match live s with
           | None => (Stuck, s)
           | Some xs =>
               match xs !! i with
               | None => (Ok tt, s)
               | Some x => (body x ;;; for_in fuel' live body (S i)) s
               end
           end
       end.

(** ** State *)

(** One registry and the store of file objects it refers to. *)
Record Env := mkEnv {
  result : ParseResult;
  store : gmap loc SourceFile
}.

(** The state of [sanitized_update]: [self], [old_result] (two distinct
    registry objects) and the store their [files] refer to. *)
Record Pass := mkPass {
  self : ParseResult;
  old_result : ParseResult;
  objects : gmap loc SourceFile
}.

Definition set_nodes (g : gmap string ParsedNode → gmap string ParsedNode)
    (r : ParseResult) : ParseResult :=
  mkParseResult (vars_hash r) (profile_hash r) (project_hashes r)
    (g (r_nodes r)) (r_sources r) (r_docs r) (r_macros r) (r_patches r)
    (files r) (disabled r) (dbt_version r).

Definition set_sources
    (g : gmap string ParsedSourceDefinition → gmap string ParsedSourceDefinition)
    (r : ParseResult) : ParseResult :=
  mkParseResult (vars_hash r) (profile_hash r) (project_hashes r)
    (r_nodes r) (g (r_sources r)) (r_docs r) (r_macros r) (r_patches r)
    (files r) (disabled r) (dbt_version r).

Definition set_docs
    (g : gmap string ParsedDocumentation → gmap string ParsedDocumentation)
    (r : ParseResult) : ParseResult :=
  mkParseResult (vars_hash r) (profile_hash r) (project_hashes r)
    (r_nodes r) (r_sources r) (g (r_docs r)) (r_macros r) (r_patches r)
    (files r) (disabled r) (dbt_version r).

Definition set_macros (g : gmap string ParsedMacro → gmap string ParsedMacro)
    (r : ParseResult) : ParseResult :=
  mkParseResult (vars_hash r) (profile_hash r) (project_hashes r)
    (r_nodes r) (r_sources r) (r_docs r) (g (r_macros r)) (r_patches r)
    (files r) (disabled r) (dbt_version r).

Definition set_patches
    (g : gmap string ParsedNodePatch → gmap string ParsedNodePatch)
    (r : ParseResult) : ParseResult :=
  mkParseResult (vars_hash r) (profile_hash r) (project_hashes r)
    (r_nodes r) (r_sources r) (r_docs r) (r_macros r) (g (r_patches r))
    (files r) (disabled r) (dbt_version r).

Definition set_files (g : gmap string loc → gmap string loc)
    (r : ParseResult) : ParseResult :=
  mkParseResult (vars_hash r) (profile_hash r) (project_hashes r)
    (r_nodes r) (r_sources r) (r_docs r) (r_macros r) (r_patches r)
    (g (files r)) (disabled r) (dbt_version r).

Definition set_disabled
    (g : gmap string (list ParsedNode) → gmap string (list ParsedNode))
    (r : ParseResult) : ParseResult :=
  mkParseResult (vars_hash r) (profile_hash r) (project_hashes r)
    (r_nodes r) (r_sources r) (r_docs r) (r_macros r) (r_patches r)
    (files r) (g (disabled r)) (dbt_version r).

(** [f.nodes.append(id)] and its four siblings. *)
Definition nodes_append (id : string) (f : SourceFile) : SourceFile :=
  mkSourceFile (path f) (checksum f) (search_key f)
    (nodes f ++ [id]) (docs f) (macros f) (sources f) (patches f).

Definition docs_append (id : string) (f : SourceFile) : SourceFile :=
  mkSourceFile (path f) (checksum f) (search_key f)
    (nodes f) (docs f ++ [id]) (macros f) (sources f) (patches f).

Definition macros_append (id : string) (f : SourceFile) : SourceFile :=
  mkSourceFile (path f) (checksum f) (search_key f)
    (nodes f) (docs f) (macros f ++ [id]) (sources f) (patches f).

Definition sources_append (id : string) (f : SourceFile) : SourceFile :=
  mkSourceFile (path f) (checksum f) (search_key f)
    (nodes f) (docs f) (macros f) (sources f ++ [id]) (patches f).

Definition patches_append (id : string) (f : SourceFile) : SourceFile :=
  mkSourceFile (path f) (checksum f) (search_key f)
    (nodes f) (docs f) (macros f) (sources f) (patches f ++ [id]).

Definition on_result (g : ParseResult → ParseResult) (e : Env) : Env :=
  mkEnv (g (result e)) (store e).

(** Reading an attribute of the object behind a reference. *)
Definition deref (l : loc) : M Env SourceFile :=
  λ e, match store e !! l with
       | Some f => (Ok f, e)
       | None => (Stuck, e)
       end.

(** Mutating the object behind a reference in place. *)
Definition mutate (l : loc) (g : SourceFile → SourceFile) : M Env unit :=
  f <- deref l ;;
  modify (λ e, mkEnv (result e) (<[l := g f]> (store e))).

(** Running a method of [self], respectively of [old_result]. *)
Definition on_self {A} (m : M Env A) : M Pass A :=
  λ p, let '(o, e) := m (mkEnv (self p) (objects p)) in
       (o, mkPass (result e) (old_result p) (store e)).

Definition on_old {A} (m : M Env A) : M Pass A :=
  λ p, let '(o, e) := m (mkEnv (old_result p) (objects p)) in
       (o, mkPass (self p) (result e) (store e)).

(** ** The methods *)

(** Modelled from the spec: [raise_duplicate_resource_name] and
    [raise_duplicate_patch_name] (dbt.exceptions) are missing; they signal
    the error that identifies both artifacts. *)
Definition raise_duplicate_resource_name {St} (value existing : Resource)
    : M St unit :=
  raise (DuplicateResourceName value existing).

Definition raise_duplicate_patch_name {St} (patch_name : string)
    (patch existing : ParsedNodePatch) : M St unit :=
  raise (DuplicatePatchName patch_name patch existing).

Definition _check_duplicates {St A} `{HasUniqueID A} (value : A)
    (src : gmap string A) : M St unit :=
  match src !! unique_id value with
  | Some existing => raise_duplicate_resource_name (upcast value) (upcast existing)
  | None => ret tt
  end.

Definition get_file (source_file : loc) : M Env loc :=
  f <- deref source_file ;;
  match search_key f with
  | None => ret source_file
  | Some key =>
      fs <- gets (λ e, files (result e)) ;;
      match fs !! key with
      | None => modify (on_result (set_files <[key := source_file]>))
      | Some _ => ret tt
      end ;;;
      fs' <- gets (λ e, files (result e)) ;;
      match fs' !! key with
      | Some l => ret l
      | None => stuck
      end
  end.

Definition add_source (source_file : loc) (node : ParsedSourceDefinition)
    : M Env unit :=
  src <- gets (λ e, r_sources (result e)) ;;
  _check_duplicates node src ;;;
  modify (on_result (set_sources <[unique_id node := node]>)) ;;;
  l <- get_file source_file ;;
  mutate l (sources_append (unique_id node)).

Definition add_node (source_file : loc) (node : ParsedNode) : M Env unit :=
  src <- gets (λ e, r_nodes (result e)) ;;
  _check_duplicates node src ;;;
  modify (on_result (set_nodes <[unique_id node := node]>)) ;;;
  l <- get_file source_file ;;
  mutate l (nodes_append (unique_id node)).

Definition add_disabled (source_file : loc) (node : ParsedNode) : M Env unit :=
  d <- gets (λ e, disabled (result e)) ;;
  match d !! unique_id node with
  | Some ns => modify (on_result (set_disabled <[unique_id node := ns ++ [node]]>))
  | None => modify (on_result (set_disabled <[unique_id node := [node]]>))
  end ;;;
  l <- get_file source_file ;;
  mutate l (nodes_append (unique_id node)).

Definition add_macro (source_file : loc) (macro : ParsedMacro) : M Env unit :=
  modify (on_result (set_macros <[unique_id macro := macro]>)) ;;;
  l <- get_file source_file ;;
  mutate l (macros_append (unique_id macro)).

Definition add_doc (source_file : loc) (doc : ParsedDocumentation)
    : M Env unit :=
  modify (on_result (set_docs <[unique_id doc := doc]>)) ;;;
  l <- get_file source_file ;;
  mutate l (docs_append (unique_id doc)).

Definition add_patch (source_file : loc) (patch : ParsedNodePatch)
    : M Env unit :=
  ps <- gets (λ e, r_patches (result e)) ;;
  match ps !! name patch with
  | Some existing => raise_duplicate_patch_name (name patch) patch existing
  | None => ret tt
  end ;;;
  modify (on_result (set_patches <[name patch := patch]>)) ;;;
  l <- get_file source_file ;;
  mutate l (patches_append (name patch)).

Definition _get_disabled (unique_id : string) (match_file : loc)
    : M Env (list ParsedNode) :=
  d <- gets (λ e, disabled (result e)) ;;
  match d !! unique_id with
  | None => raise (InternalException unique_id)
  | Some ns =>
      mf <- deref match_file ;;
      ret (filter (λ n, original_file_path n
                        = path_original_file_path (path mf)) ns)
  end.

Definition _expect_value {St T} (key : string) (src : gmap string T)
    (table : string) : M St T :=
  match src !! key with
  | None => raise (CompilationException key table)
  | Some v => ret v
  end.

(** The five loops of [sanitized_update], each over a list of [old_file]
    read from the store. *)
Definition reuse_doc (source_file : loc) (doc_id : string) : M Pass unit :=
  src <- gets (λ p, r_docs (old_result p)) ;;
  doc <- _expect_value doc_id src "docs" ;;
  on_self (add_doc source_file doc).

Definition reuse_macro (source_file : loc) (macro_id : string) : M Pass unit :=
  src <- gets (λ p, r_macros (old_result p)) ;;
  macro <- _expect_value macro_id src "macros" ;;
  on_self (add_macro source_file macro).

Definition reuse_source (source_file : loc) (source_id : string)
    : M Pass unit :=
  src <- gets (λ p, r_sources (old_result p)) ;;
  source <- _expect_value source_id src "sources" ;;
  on_self (add_source source_file source).

Definition reuse_node (source_file : loc) (node_id : string) : M Pass unit :=
  old <- gets old_result ;;
  match r_nodes old !! node_id with
  | Some node => on_self (add_node source_file node)
  | None =>
      match disabled old !! node_id with
      | Some _ =>
          matches <- on_old (_get_disabled node_id source_file) ;;
          for_each (λ match_, on_self (add_disabled source_file match_)) matches
      | None =>
          raise (CompilationException node_id "manifest.nodes/manifest.disabled")
      end
  end.

Definition reuse_patch (source_file : loc) (patch_name : string)
    : M Pass unit :=
  src <- gets (λ p, r_patches (old_result p)) ;;
  patch <- _expect_value patch_name src "patches" ;;
  on_self (add_patch source_file patch).

Definition live {A} (old_file : loc) (attr : SourceFile → list A) (p : Pass)
    : option (list A) :=
  attr <$> objects p !! old_file.

Definition sanitized_update (fuel : nat) (source_file : loc) : M Pass bool :=
  f <- on_self (deref source_file) ;;
  if isinstance_RemoteFile (path f) then ret false
  else
    old_file <- on_old (get_file source_file) ;;
    for_in fuel (live old_file docs) (reuse_doc source_file) 0 ;;;
    for_in fuel (live old_file macros) (reuse_macro source_file) 0 ;;;
    for_in fuel (live old_file sources) (reuse_source source_file) 0 ;;;
    for_in fuel (live old_file nodes) (reuse_node source_file) 0 ;;;
    for_in fuel (live old_file patches) (reuse_patch source_file) 0 ;;;
    ret true.

Definition has_file (source_file : loc) : M Env bool :=
  f <- deref source_file ;;
  match search_key f with
  | None => ret false
  | Some key =>
      fs <- gets (λ e, files (result e)) ;;
      match fs !! key with
      | None => ret false
      | Some l =>
          stored <- deref l ;;
          ret (bool_decide (checksum stored = checksum f))
      end
  end.

(** ** What [get_file] computes *)

(** The record [self.get_file(source_file)] returns, and the registry it
    leaves behind, when [f] is the object behind [source_file]. *)
Definition target (r : ParseResult) (source_file : loc) (f : SourceFile)
    : loc :=
  match search_key f with
  | None => source_file
  | Some key => default source_file (files r !! key)
  end.

Definition track (source_file : loc) (f : SourceFile) (r : ParseResult)
    : ParseResult :=
  match search_key f with
  | None => r
  | Some key =>
      match files r !! key with
      | None => set_files <[key := source_file]> r
      | Some _ => r
      end
  end.

(** Every key of [files] refers to an object of the store. *)
Definition refs_alive (e : Env) : Prop :=
  map_Forall (λ _ l, is_Some (store e !! l)) (files (result e)).

#[export] Instance refs_alive_dec e : Decision (refs_alive e).
Proof. unfold refs_alive. apply _. Defined.


(** Two states of one file object: the insertion methods only ever append
    to its sequences. *)
Definition same_file (f f' : SourceFile) : Prop :=
  path f' = path f ∧ checksum f' = checksum f ∧ search_key f' = search_key f.

(** ** The registry invariant *)

(** Every id of the five sequences of [f] is a key of the matching mapping
    of [r]; a node id may instead be a key of [disabled]. *)
Definition ids_registered (r : ParseResult) (f : SourceFile) : Prop :=
  Forall (λ id, is_Some (r_nodes r !! id) ∨ is_Some (disabled r !! id)) (nodes f) ∧
  Forall (λ id, is_Some (r_sources r !! id)) (sources f) ∧
  Forall (λ id, is_Some (r_docs r !! id)) (docs f) ∧
  Forall (λ id, is_Some (r_macros r !! id)) (macros f) ∧
  Forall (λ nm, is_Some (r_patches r !! nm)) (patches f).

#[export] Instance ids_registered_dec r f : Decision (ids_registered r f).
Proof. unfold ids_registered. apply _. Defined.

(** The invariant: every record stored in [files] has its ids registered. *)
Definition files_consistent (e : Env) : Prop :=
  map_Forall
    (λ _ l, match store e !! l with
            | Some f => ids_registered (result e) f
            | None => False
            end)
    (files (result e)).

#[export] Instance files_consistent_dec e : Decision (files_consistent e).
Proof.
  unfold files_consistent. apply map_Forall_dec.
  intros _ l. destruct (store e !! l); apply _.
Defined.

(** The operations of the registry, as calls on [self]. *)
Inductive Op :=
| GetFile (source_file : loc)
| AddNode (source_file : loc) (node : ParsedNode)
| AddSource (source_file : loc) (node : ParsedSourceDefinition)
| AddDisabled (source_file : loc) (node : ParsedNode)
| AddMacro (source_file : loc) (macro : ParsedMacro)
| AddDoc (source_file : loc) (doc : ParsedDocumentation)
| AddPatch (source_file : loc) (patch : ParsedNodePatch)
| ReuseFile (fuel : nat) (old : ParseResult) (source_file : loc).

Definition op_file (op : Op) : loc :=
  match op with
  | GetFile sf | AddNode sf _ | AddSource sf _ | AddDisabled sf _
  | AddMacro sf _ | AddDoc sf _ | AddPatch sf _ | ReuseFile _ _ sf => sf
  end.

(** The state of [self] and of the store once the call is over, whether it
    returned or raised. *)
Definition after (op : Op) (e : Env) : Env :=
  match op with
  | GetFile sf => snd (get_file sf e)
  | AddNode sf n => snd (add_node sf n e)
  | AddSource sf s => snd (add_source sf s e)
  | AddDisabled sf n => snd (add_disabled sf n e)
  | AddMacro sf m => snd (add_macro sf m e)
  | AddDoc sf d => snd (add_doc sf d e)
  | AddPatch sf p => snd (add_patch sf p e)
  | ReuseFile fuel old sf =>
      let p := snd (sanitized_update fuel sf (mkPass (result e) old (store e))) in
      mkEnv (self p) (objects p)
  end.

(** [r'] has every key that [r] has, mapping by mapping. *)
Definition grows (r r' : ParseResult) : Prop :=
  (∀ id, is_Some (r_nodes r !! id) → is_Some (r_nodes r' !! id)) ∧
  (∀ id, is_Some (disabled r !! id) → is_Some (disabled r' !! id)) ∧
  (∀ id, is_Some (r_sources r !! id) → is_Some (r_sources r' !! id)) ∧
  (∀ id, is_Some (r_docs r !! id) → is_Some (r_docs r' !! id)) ∧
  (∀ id, is_Some (r_macros r !! id) → is_Some (r_macros r' !! id)) ∧
  (∀ nm, is_Some (r_patches r !! nm) → is_Some (r_patches r' !! nm)).

(** The invariant together with the condition on the file handed to an
    operation: it is an object whose ids are registered, as those of a
    freshly created record (no ids) and of a tracked record are. *)
Definition admissible (source_file : loc) (e : Env) : Prop :=
  files_consistent e ∧
  match store e !! source_file with
  | Some f => ids_registered (result e) f
  | None => False
  end.


(** A computation keeps a property of the state, however it ends. *)
Definition preserves {St A} (P : St → Prop) (m : M St A) : Prop :=
  ∀ s, P s → P (snd (m s)).

(** ** Reuse as a sequence of insertions *)

(** One insertion call on the new registry. *)
Inductive Call :=
| CallDoc (doc : ParsedDocumentation)
| CallMacro (macro : ParsedMacro)
| CallSource (source : ParsedSourceDefinition)
| CallNode (node : ParsedNode)
| CallDisabled (node : ParsedNode)
| CallPatch (patch : ParsedNodePatch).

Definition call (source_file : loc) (c : Call) : M Env unit :=
  match c with
  | CallDoc d => add_doc source_file d
  | CallMacro m => add_macro source_file m
  | CallSource s => add_source source_file s
  | CallNode n => add_node source_file n
  | CallDisabled n => add_disabled source_file n
  | CallPatch p => add_patch source_file p
  end.

(** The registry after a call that returns. *)
Definition call_result (c : Call) (r : ParseResult) : ParseResult :=
  match c with
  | CallDoc d => set_docs <[unique_id d := d]> r
  | CallMacro m => set_macros <[unique_id m := m]> r
  | CallSource s => set_sources <[unique_id s := s]> r
  | CallNode n => set_nodes <[unique_id n := n]> r
  | CallDisabled n =>
      set_disabled
        <[unique_id n := default [] (disabled r !! unique_id n) ++ [n]]> r
  | CallPatch p => set_patches <[name p := p]> r
  end.

(** What the call appends to the record of the file. *)
Definition call_append (c : Call) : SourceFile → SourceFile :=
  match c with
  | CallDoc d => docs_append (unique_id d)
  | CallMacro m => macros_append (unique_id m)
  | CallSource s => sources_append (unique_id s)
  | CallNode n => nodes_append (unique_id n)
  | CallDisabled n => nodes_append (unique_id n)
  | CallPatch p => patches_append (name p)
  end.

(** The state after a call for the file [source_file], whose object is [f],
    that returns. *)
Definition apply_call (source_file : loc) (f : SourceFile) (e : Env) (c : Call)
    : Env :=
  mkEnv (track source_file f (call_result c (result e)))
        (alter (call_append c) (target (result e) source_file f) (store e)).

(** The call passes its duplicate check. *)
Definition call_fresh (c : Call) (r : ParseResult) : Prop :=
  match c with
  | CallSource s => r_sources r !! unique_id s = None
  | CallNode n => r_nodes r !! unique_id n = None
  | CallPatch p => r_patches r !! name p = None
  | CallDoc _ | CallMacro _ | CallDisabled _ => True
  end.

Fixpoint calls_fresh (source_file : loc) (f : SourceFile) (cs : list Call)
    (e : Env) : Prop :=
  match cs with
  | [] => True
  | c :: cs' =>
      call_fresh c (result e) ∧
      calls_fresh source_file f cs' (apply_call source_file f e c)
  end.

(** The file [source_file] and the record [t] that [get_file] returns for
    it are objects of the store; [f0] is a state of the file object. *)
Definition reached (source_file : loc) (f0 : SourceFile) (t : loc) (e : Env)
    : Prop :=
  (∃ f, store e !! source_file = Some f ∧ same_file f0 f) ∧
  target (result e) source_file f0 = t ∧
  is_Some (store e !! t).

Definition is_duplicate_error (exn : Exn) : Prop :=
  match exn with
  | DuplicateResourceName _ _ | DuplicatePatchName _ _ _ => True
  | _ => False
  end.

Definition is_consistency_error (exn : Exn) : Prop :=
  match exn with
  | CompilationException _ _ => True
  | _ => False
  end.

(** [sanitized_update] past its guard, over the sequences of a snapshot
    [old_file] of the old record instead of the record in the store. *)
Definition reuse_snapshot (source_file : loc) (old_file : SourceFile)
    : M Pass bool :=
  for_each (reuse_doc source_file) (docs old_file) ;;;
  for_each (reuse_macro source_file) (macros old_file) ;;;
  for_each (reuse_source source_file) (sources old_file) ;;;
  for_each (reuse_node source_file) (nodes old_file) ;;;
  for_each (reuse_patch source_file) (patches old_file) ;;;
  ret true.

(** While [self] is filled, nothing else moves: the old registry is [old],
    the old record [lo] still is [fo], and the record [t] that [self]
    returns for the file is another object than [lo]. *)
Definition reuse_inv (source_file : loc) (f0 : SourceFile) (t lo : loc)
    (fo : SourceFile) (old : ParseResult) (p : Pass) : Prop :=
  old_result p = old ∧ objects p !! lo = Some fo ∧ t ≠ lo ∧
  reached source_file f0 t (mkEnv (self p) (objects p)).

(** How a reuse can end when an exception is raised: on the consistency
    guard or on the duplicate check of an insertion. *)
Definition fails {A} (o : Outcome A) : Prop :=
  ∃ exn, o = Raise exn ∧ (is_consistency_error exn ∨ is_duplicate_error exn).

Definition settled {A} (o : Outcome A) : Prop :=
  (∃ a, o = Ok a) ∨ fails o.

(** The entry of the old record has no artifact in the old registry. *)
Definition missing_entry (old : ParseResult) (fo : SourceFile) : Prop :=
  Exists (λ id, r_docs old !! id = None) (docs fo) ∨
  Exists (λ id, r_macros old !! id = None) (macros fo) ∨
  Exists (λ id, r_sources old !! id = None) (sources fo) ∨
  Exists (λ id, r_nodes old !! id = None ∧ disabled old !! id = None) (nodes fo) ∨
  Exists (λ nm, r_patches old !! nm = None) (patches fo).

(** Fuel that lets every loop of [sanitized_update] run to the end of the
    sequence of [fo] it iterates over. *)
Definition fuel_for (fo : SourceFile) : nat :=
  S (Nat.max (length (docs fo))
       (Nat.max (length (macros fo))
          (Nat.max (length (sources fo))
             (Nat.max (length (nodes fo)) (length (patches fo)))))).

(** ** What a reuse inserts *)

(** The calls [sanitized_update] makes for one entry of each sequence,
    given the old registry and the file [f] it is called with. *)
Definition doc_calls (old : ParseResult) (id : string) : list Call :=
  match r_docs old !! id with Some d => [CallDoc d] | None => [] end.

Definition macro_calls (old : ParseResult) (id : string) : list Call :=
  match r_macros old !! id with Some m => [CallMacro m] | None => [] end.

Definition source_calls (old : ParseResult) (id : string) : list Call :=
  match r_sources old !! id with Some s => [CallSource s] | None => [] end.

Definition node_calls (old : ParseResult) (f : SourceFile) (id : string)
    : list Call :=
  match r_nodes old !! id with
  | Some n => [CallNode n]
  | None =>
      CallDisabled <$>
        filter (λ n, original_file_path n = path_original_file_path (path f))
          (default [] (disabled old !! id))
  end.

Definition patch_calls (old : ParseResult) (nm : string) : list Call :=
  match r_patches old !! nm with Some p => [CallPatch p] | None => [] end.

(** All of them, in the order of the five loops. *)
Definition calls_of (old : ParseResult) (f fo : SourceFile) : list Call :=
  (docs fo ≫= doc_calls old) ++
  (macros fo ≫= macro_calls old) ++
  (sources fo ≫= source_calls old) ++
  (nodes fo ≫= node_calls old f) ++
  (patches fo ≫= patch_calls old).

(** The state of the pass after the calls [cs] on [self] have returned. *)
Definition pass_after (source_file : loc) (f : SourceFile) (cs : list Call)
    (p : Pass) : Pass :=
  let e := foldl (apply_call source_file f) (mkEnv (self p) (objects p)) cs in
  mkPass (result e) (old_result p) (store e).

(** Every entry of the old record [fo] has its artifact in [old], stored
    under its own id; a node id that is no key of [nodes] has exactly one
    disabled variant that comes from the path of [f]. *)
Definition reusable (old : ParseResult) (f fo : SourceFile) : Prop :=
  Forall (λ id, ∃ d, r_docs old !! id = Some d ∧ unique_id d = id) (docs fo) ∧
  Forall (λ id, ∃ m, r_macros old !! id = Some m ∧ unique_id m = id) (macros fo) ∧
  Forall (λ id, ∃ s, r_sources old !! id = Some s ∧ unique_id s = id) (sources fo) ∧
  Forall (λ id,
            (∃ n, r_nodes old !! id = Some n ∧ unique_id n = id) ∨
            (r_nodes old !! id = None ∧
             ∃ v vs, disabled old !! id = Some vs ∧
               filter (λ n, original_file_path n
                            = path_original_file_path (path f)) vs = [v] ∧
               unique_id v = id))
         (nodes fo) ∧
  Forall (λ nm, ∃ p, r_patches old !! nm = Some p ∧ name p = nm) (patches fo).

(** The ids of [fo] that must be new are recorded once and are no keys of
    the mappings of [new]. *)
Definition untaken (new : ParseResult) (fo : SourceFile) : Prop :=
  NoDup (sources fo) ∧ Forall (λ id, r_sources new !! id = None) (sources fo) ∧
  NoDup (nodes fo) ∧ Forall (λ id, r_nodes new !! id = None) (nodes fo) ∧
  NoDup (patches fo) ∧ Forall (λ nm, r_patches new !! nm = None) (patches fo).

(** The keys the calls insert under, mapping by mapping. *)
Definition doc_keys (cs : list Call) : list string :=
  omap (λ c, match c with CallDoc d => Some (unique_id d) | _ => None end) cs.
Definition macro_keys (cs : list Call) : list string :=
  omap (λ c, match c with CallMacro m => Some (unique_id m) | _ => None end) cs.
Definition source_keys (cs : list Call) : list string :=
  omap (λ c, match c with CallSource s => Some (unique_id s) | _ => None end) cs.
Definition node_keys (cs : list Call) : list string :=
  omap (λ c, match c with CallNode n => Some (unique_id n) | _ => None end) cs.
Definition patch_keys (cs : list Call) : list string :=
  omap (λ c, match c with CallPatch p => Some (name p) | _ => None end) cs.

(** What the calls append to the node sequence of the record. *)
Definition record_keys (cs : list Call) : list string :=
  omap (λ c, match c with
             | CallNode n | CallDisabled n => Some (unique_id n)
             | _ => None
             end) cs.

(** The mapping after a call that inserts the artifact [sel] selects. *)
Definition insert_sel {A} (sel : Call → option A) (key : A → string)
    (m : gmap string A) (c : Call) : gmap string A :=
  match sel c with
  | Some a => <[key a := a]> m
  | None => m
  end.

Definition sel_doc (c : Call) : option ParsedDocumentation :=
  match c with CallDoc d => Some d | _ => None end.
Definition sel_macro (c : Call) : option ParsedMacro :=
  match c with CallMacro m => Some m | _ => None end.
Definition sel_source (c : Call) : option ParsedSourceDefinition :=
  match c with CallSource s => Some s | _ => None end.
Definition sel_node (c : Call) : option ParsedNode :=
  match c with CallNode n => Some n | _ => None end.
Definition sel_patch (c : Call) : option ParsedNodePatch :=
  match c with CallPatch p => Some p | _ => None end.

(** The ids the calls append to the doc, macro, source, node and patch
    sequence of the record, in this order. *)
Definition appended (cs : list Call)
    : list string * list string * list string * list string * list string :=
  (doc_keys cs, macro_keys cs, source_keys cs, record_keys cs, patch_keys cs).

Definition appended_app
    (a b : list string * list string * list string * list string * list string)
    : list string * list string * list string * list string * list string :=
  let '(d1, m1, s1, n1, p1) := a in
  let '(d2, m2, s2, n2, p2) := b in
  (d1 ++ d2, m1 ++ m2, s1 ++ s2, n1 ++ n2, p1 ++ p2).

#[export] Instance untaken_dec new fo : Decision (untaken new fo).
Proof. unfold untaken. apply _. Defined.

(** The variants that come from the path of the file [f]. *)
Local Abbreviation from f :=
  (λ n : ParsedNode, original_file_path n = path_original_file_path (path f)).

(** ** Reuse without collisions *)

(** The artifacts that must be new are stored under their own id or name
    in the old registry. *)
Definition keyed (old : ParseResult) : Prop :=
  map_Forall (λ id s, unique_id s = id) (r_sources old) ∧
  map_Forall (λ id n, unique_id n = id) (r_nodes old) ∧
  map_Forall (λ nm p, name p = nm) (r_patches old).

#[export] Instance keyed_dec old : Decision (keyed old).
Proof. unfold keyed. apply _. Defined.

(** The source ids [ss], node ids [ns] and patch names [ps] still to come
    are no keys of [self]. *)
Definition pending (ss ns ps : list string) (p : Pass) : Prop :=
  Forall (λ id, r_sources (self p) !! id = None) ss ∧
  Forall (λ id, r_nodes (self p) !! id = None) ns ∧
  Forall (λ nm, r_patches (self p) !! nm = None) ps.

(** The computation returned or stopped on the consistency guard. *)
Definition clean {A} (o : Outcome A) : Prop :=
  (∃ a, o = Ok a) ∨ (∃ key tbl, o = Raise (CompilationException key tbl)).

(** ** The rest of the module *)

(** [ParseResult.rpc()]: the registry of an ad-hoc invocation, built from
    [FileHash.empty()] twice and an empty [project_hashes]; every other
    dictionary is the empty default and [dbt_version] is [__version__].
    [FileHash.empty()] and [__version__] are declared outside this module
    and are parameters here. *)
Definition rpc (FileHash_empty : FileHash) (__version__ : string)
    : ParseResult :=
  mkParseResult FileHash_empty FileHash_empty ∅ ∅ ∅ ∅ ∅ ∅ ∅ ∅ __version__.

(** A sequence of calls on [self], each run in the state the one before
    left, whether that one returned or raised. *)
Definition run_ops (ops : list Op) (e : Env) : Env :=
  foldl (λ e op, after op e) e ops.

(** A file object nothing has been registered against. *)
Definition fresh_file (f : SourceFile) : Prop :=
  nodes f = [] ∧ docs f = [] ∧ macros f = [] ∧ sources f = [] ∧ patches f = [].

#[export] Instance fresh_file_dec f : Decision (fresh_file f).
Proof. unfold fresh_file. apply _. Defined.

(** The file object behind [l] exists and lists registered ids only. *)
Definition registered_at (e : Env) (l : loc) : Prop :=
  match store e !! l with
  | Some f => ids_registered (result e) f
  | None => False
  end.

#[export] Instance registered_at_dec e l : Decision (registered_at e l).
Proof. unfold registered_at. destruct (store e !! l); apply _. Defined.

(** The invariant of a registry over the file objects [own] it is used
    with: each of them lists registered ids only, and [files] refers to
    none but them.  The store may hold other objects, such as the records
    of an old registry to reuse from; of those nothing is asked. *)
Definition registered_on (own : gset loc) (e : Env) : Prop :=
  set_Forall (registered_at e) own ∧
  map_Forall (λ _ l, l ∈ own) (files (result e)).

#[export] Instance registered_on_dec own e : Decision (registered_on own e).
Proof. unfold registered_on. apply _. Defined.

(** The file objects [own] exist and nothing has been registered against
    them. *)
Definition fresh_on (own : gset loc) (h : gmap loc SourceFile) : Prop :=
  set_Forall (λ l, match h !! l with
                   | Some f => fresh_file f
                   | None => False
                   end) own.

#[export] Instance fresh_on_dec own h : Decision (fresh_on own h).
Proof.
  unfold fresh_on. apply set_Forall_dec. intros l. destruct (h !! l); apply _.
Defined.

(** Each mapping is keyed by the artifact's own id or name; each list of
    disabled variants is non-empty and holds variants of its key only. *)
Definition well_keyed (r : ParseResult) : Prop :=
  map_Forall (λ id n, unique_id n = id) (r_nodes r) ∧
  map_Forall (λ id s, unique_id s = id) (r_sources r) ∧
  map_Forall (λ id d, unique_id d = id) (r_docs r) ∧
  map_Forall (λ id m, unique_id m = id) (r_macros r) ∧
  map_Forall (λ nm p, name p = nm) (r_patches r) ∧
  map_Forall (λ id vs, vs ≠ [] ∧ Forall (λ v, unique_id v = id) vs) (disabled r).

#[export] Instance well_keyed_dec r : Decision (well_keyed r).
Proof. unfold well_keyed. apply _. Defined.

(** Every file object of [files] is filed under its own search key. *)
Definition files_keyed (e : Env) : Prop :=
  map_Forall
    (λ key l, match store e !! l with
              | Some f => search_key f = Some key
              | None => False
              end)
    (files (result e)).

#[export] Instance files_keyed_dec e : Decision (files_keyed e).
Proof.
  unfold files_keyed. apply map_Forall_dec.
  intros key l. destruct (store e !! l); apply _.
Defined.

(** What an operation on the file [source_file] may have done to [files]
    on the way from [e] to [e']: nothing, or filed [source_file] under its
    search key, which was free. *)
Definition gained (source_file : loc) (e e' : Env) : Prop :=
  search_key <$> store e' !! source_file = search_key <$> store e !! source_file ∧
  (files (result e') = files (result e) ∨
   ∃ f key, store e !! source_file = Some f ∧ search_key f = Some key ∧
     files (result e) !! key = None ∧
     files (result e') = <[key := source_file]> (files (result e))).

(** A later state of a file object: the same file, each sequence extended
    at its end. *)
Definition record_extends (f f' : SourceFile) : Prop :=
  same_file f f' ∧
  nodes f `prefix_of` nodes f' ∧ docs f `prefix_of` docs f' ∧
  macros f `prefix_of` macros f' ∧ sources f `prefix_of` sources f' ∧
  patches f `prefix_of` patches f'.

(** A later state of a registry: the entries of [nodes], [sources],
    [patches] and [files] are kept as they are, the keys of [docs] and
    [macros] are kept, each list of disabled variants is extended at its
    end, and the pinned inputs and the version are the same. *)
Definition registry_extends (r r' : ParseResult) : Prop :=
  r_nodes r ⊆ r_nodes r' ∧ r_sources r ⊆ r_sources r' ∧
  r_patches r ⊆ r_patches r' ∧ files r ⊆ files r' ∧
  dom (r_docs r) ⊆ dom (r_docs r') ∧ dom (r_macros r) ⊆ dom (r_macros r') ∧
  (∀ id vs, disabled r !! id = Some vs →
     ∃ vs', disabled r' !! id = Some vs' ∧ vs `prefix_of` vs') ∧
  vars_hash r' = vars_hash r ∧ profile_hash r' = profile_hash r ∧
  project_hashes r' = project_hashes r ∧ dbt_version r' = dbt_version r.

(** A later state of the store: the same objects, each in a later state. *)
Definition store_extends (h h' : gmap loc SourceFile) : Prop :=
  dom h' = dom h ∧
  ∀ l f, h !! l = Some f → ∃ f', h' !! l = Some f' ∧ record_extends f f'.

Definition env_extends (e e' : Env) : Prop :=
  registry_extends (result e) (result e') ∧ store_extends (store e) (store e').

(** What [sanitized_update] may do to [old_result]: nothing but track
    [source_file] under a key that was free. *)
Definition old_kept (source_file : loc) (r r' : ParseResult) : Prop :=
  r_nodes r' = r_nodes r ∧ r_sources r' = r_sources r ∧
  r_docs r' = r_docs r ∧ r_macros r' = r_macros r ∧
  r_patches r' = r_patches r ∧ disabled r' = disabled r ∧
  vars_hash r' = vars_hash r ∧ profile_hash r' = profile_hash r ∧
  project_hashes r' = project_hashes r ∧ dbt_version r' = dbt_version r ∧
  files r ⊆ files r' ∧
  ∀ key l, files r' !! key = Some l →
    files r !! key = Some l ∨ (files r !! key = None ∧ l = source_file).

(** Every state a computation leaves is related to the one it started in. *)
Definition steps {St A} (R : St → St → Prop) (m : M St A) : Prop :=
  ∀ s, R s (snd (m s)).

(** The exceptions a computation raises all satisfy [allowed]. *)
Definition raises_only {St A} (allowed : Exn → Prop) (m : M St A) : Prop :=
  ∀ s exn, fst (m s) = Raise exn → allowed exn.

Definition is_duplicate_resource (exn : Exn) : Prop :=
  match exn with DuplicateResourceName _ _ => True | _ => False end.

Definition is_duplicate_patch (exn : Exn) : Prop :=
  match exn with DuplicatePatchName _ _ _ => True | _ => False end.

Definition is_internal_error (exn : Exn) : Prop :=
  match exn with InternalException _ => True | _ => False end.

(** The ids a reuse appends to the record of the file, sequence by
    sequence: for an entry of the old record the own id of the artifact
    found under it, for a node id that is no key of [nodes] the own id of
    each disabled variant that comes from the path of [f]. *)
Definition ids_under {A} (key : A → string) (m : gmap string A) (id : string)
    : list string :=
  match m !! id with Some a => [key a] | None => [] end.

Definition node_ids (old : ParseResult) (f : SourceFile) (id : string)
    : list string :=
  match r_nodes old !! id with
  | Some n => [unique_id n]
  | None => unique_id <$> filter (from f) (default [] (disabled old !! id))
  end.

Definition reused_ids (old : ParseResult) (f fo : SourceFile)
    : list string * list string * list string * list string * list string :=
  (docs fo ≫= ids_under unique_id (r_docs old),
   macros fo ≫= ids_under unique_id (r_macros old),
   sources fo ≫= ids_under unique_id (r_sources old),
   nodes fo ≫= node_ids old f,
   patches fo ≫= ids_under name (r_patches old)).

(** The mapping a call inserts into and the key it inserts under. *)
Definition call_slot (c : Call) : string * string :=
  match c with
  | CallDoc d => ("docs", unique_id d)
  | CallMacro m => ("macros", unique_id m)
  | CallSource s => ("sources", unique_id s)
  | CallNode n => ("nodes", unique_id n)
  | CallDisabled n => ("disabled", unique_id n)
  | CallPatch p => ("patches", name p)
  end.

(** Started in a state that satisfies [Q], a computation does not get
    stuck on a reference to no object and ends in a state that satisfies
    [Q]. *)
Definition runs {St A} (Q : St → Prop) (m : M St A) : Prop :=
  ∀ s, Q s → fst (m s) ≠ Stuck ∧ Q (snd (m s)).

(** The file of the call and the old record are objects of the store, and
    so is every record [self] tracks. *)
Definition objects_alive (source_file old_file : loc) (e : Env) : Prop :=
  is_Some (store e !! source_file) ∧ is_Some (store e !! old_file) ∧
  refs_alive e.

(** A later state of a pass on [source_file]. *)
Definition pass_extends (source_file : loc) (p p' : Pass) : Prop :=
  env_extends (mkEnv (self p) (objects p)) (mkEnv (self p') (objects p')) ∧
  old_kept source_file (old_result p) (old_result p').

(** * Theorems *)

(** ** What [get_file] returns *)

Ltac run :=
  unfold add_source, add_node, add_disabled, add_macro, add_doc, add_patch,
    _get_disabled, has_file, get_file, mutate, deref, _check_duplicates,
    _expect_value, raise_duplicate_resource_name, raise_duplicate_patch_name,
    bind, ret, raise, stuck, gets, modify, on_result; simpl.

Lemma get_file_run e sf f :
  store e !! sf = Some f →
  get_file sf e = (Ok (target (result e) sf f), on_result (track sf f) e).
Proof.
  intros Hf. destruct e as [r h]. simpl in Hf.
  unfold target, track. run. rewrite Hf.
  destruct (search_key f) as [key|]; simpl; [|done].
  destruct (files r !! key) as [l|] eqn:Hk; simpl.
  - by rewrite Hk.
  - by rewrite lookup_insert_eq.
Qed.

Lemma target_track r sf f : target (track sf f r) sf f = target r sf f.
Proof.
  unfold target, track. destruct (search_key f) as [key|]; [|done].
  destruct (files r !! key) as [l|] eqn:Hk; simpl.
  - by rewrite Hk.
  - by rewrite lookup_insert_eq.
Qed.

Lemma target_alive e sf f :
  refs_alive e → store e !! sf = Some f →
  is_Some (store e !! target (result e) sf f).
Proof.
  intros Hwf Hf. unfold target.
  destruct (search_key f) as [key|]; [|by rewrite Hf].
  destruct (files (result e) !! key) as [l|] eqn:Hk; simpl; [|by rewrite Hf].
  by apply (Hwf key).
Qed.

(** ** One call of each insertion method *)

Ltac step_add Hf Ht :=
  unfold add_source, add_node, add_disabled, add_macro, add_doc, add_patch;
  unfold bind at 1; simpl;
  repeat (unfold bind at 1; simpl);
  unfold gets, modify, _check_duplicates, ret; simpl;
  repeat match goal with
         | H : ?m !! ?k = _ |- context [?m !! ?k] => rewrite H; simpl
         end;
  unfold bind; simpl;
  erewrite get_file_run by (simpl; exact Hf); simpl;
  unfold mutate, deref, bind, modify; simpl;
  unfold target in *; simpl in *; rewrite Ht; simpl; reflexivity.

Lemma add_doc_run e sf f ft d :
  store e !! sf = Some f →
  store e !! target (result e) sf f = Some ft →
  add_doc sf d e =
    (Ok tt,
     mkEnv (track sf f (set_docs <[unique_id d := d]> (result e)))
           (<[target (result e) sf f := docs_append (unique_id d) ft]> (store e))).
Proof. intros Hf Ht. destruct e as [r h]. simpl in *. step_add Hf Ht. Qed.

Lemma add_macro_run e sf f ft m :
  store e !! sf = Some f →
  store e !! target (result e) sf f = Some ft →
  add_macro sf m e =
    (Ok tt,
     mkEnv (track sf f (set_macros <[unique_id m := m]> (result e)))
           (<[target (result e) sf f := macros_append (unique_id m) ft]> (store e))).
Proof. intros Hf Ht. destruct e as [r h]. simpl in *. step_add Hf Ht. Qed.

Lemma add_source_run e sf f ft s :
  r_sources (result e) !! unique_id s = None →
  store e !! sf = Some f →
  store e !! target (result e) sf f = Some ft →
  add_source sf s e =
    (Ok tt,
     mkEnv (track sf f (set_sources <[unique_id s := s]> (result e)))
           (<[target (result e) sf f := sources_append (unique_id s) ft]> (store e))).
Proof. intros Hn Hf Ht. destruct e as [r h]. simpl in *. step_add Hf Ht. Qed.

Lemma add_node_run e sf f ft n :
  r_nodes (result e) !! unique_id n = None →
  store e !! sf = Some f →
  store e !! target (result e) sf f = Some ft →
  add_node sf n e =
    (Ok tt,
     mkEnv (track sf f (set_nodes <[unique_id n := n]> (result e)))
           (<[target (result e) sf f := nodes_append (unique_id n) ft]> (store e))).
Proof. intros Hn Hf Ht. destruct e as [r h]. simpl in *. step_add Hf Ht. Qed.

Lemma add_patch_run e sf f ft p :
  r_patches (result e) !! name p = None →
  store e !! sf = Some f →
  store e !! target (result e) sf f = Some ft →
  add_patch sf p e =
    (Ok tt,
     mkEnv (track sf f (set_patches <[name p := p]> (result e)))
           (<[target (result e) sf f := patches_append (name p) ft]> (store e))).
Proof. intros Hn Hf Ht. destruct e as [r h]. simpl in *. step_add Hf Ht. Qed.

Lemma add_disabled_run e sf f ft n :
  store e !! sf = Some f →
  store e !! target (result e) sf f = Some ft →
  add_disabled sf n e =
    (Ok tt,
     mkEnv (track sf f
              (set_disabled
                 <[unique_id n :=
                     default [] (disabled (result e) !! unique_id n) ++ [n]]>
                 (result e)))
           (<[target (result e) sf f := nodes_append (unique_id n) ft]> (store e))).
Proof.
  intros Hf Ht. destruct e as [r h]. simpl in *.
  destruct (disabled r !! node_unique_id n) as [ns|] eqn:Hd; step_add Hf Ht.
Qed.

Lemma add_source_dup e sf s existing :
  r_sources (result e) !! unique_id s = Some existing →
  add_source sf s e =
    (Raise (DuplicateResourceName (SourceResource s) (SourceResource existing)), e).
Proof. intros Hd. destruct e as [r h]. simpl in Hd. run. by rewrite Hd. Qed.

Lemma add_node_dup e sf n existing :
  r_nodes (result e) !! unique_id n = Some existing →
  add_node sf n e =
    (Raise (DuplicateResourceName (NodeResource n) (NodeResource existing)), e).
Proof. intros Hd. destruct e as [r h]. simpl in Hd. run. by rewrite Hd. Qed.

Lemma add_patch_dup e sf p existing :
  r_patches (result e) !! name p = Some existing →
  add_patch sf p e = (Raise (DuplicatePatchName (name p) p existing), e).
Proof. intros Hd. destruct e as [r h]. simpl in Hd. run. by rewrite Hd. Qed.

(** ** [get_file] and [has_file] *)

(** C6.  [get_file] on a file without search key returns the file itself
    and changes nothing.  With a search key that [files] lacks, it stores
    the file under that key and returns it; with a key that [files] has, it
    returns the stored record and changes nothing.  A second [get_file]
    with any file of the same key returns the record the first returned and
    changes nothing. *)
Theorem get_file_canonical (e : Env) (sf : loc) (f : SourceFile) :
  store e !! sf = Some f →
  (search_key f = None → get_file sf e = (Ok sf, e)) ∧
  (∀ key, search_key f = Some key → files (result e) !! key = None →
     get_file sf e = (Ok sf, on_result (set_files <[key := sf]>) e)) ∧
  (∀ key l, search_key f = Some key → files (result e) !! key = Some l →
     get_file sf e = (Ok l, e)) ∧
  (∀ key sf2 f2, search_key f = Some key →
     store e !! sf2 = Some f2 → search_key f2 = Some key →
     ∃ l e', get_file sf e = (Ok l, e') ∧
             files (result e') !! key = Some l ∧
             get_file sf2 e' = (Ok l, e')).
Proof.
  intros Hf. rewrite (get_file_run e sf f Hf).
  destruct e as [r h]. simpl in *. unfold target, track, on_result. simpl.
  repeat split.
  - by intros ->.
  - intros key -> Hk. by rewrite Hk.
  - intros key l -> Hk. by rewrite Hk.
  - intros key sf2 f2 Hkey Hf2 Hkey2. rewrite Hkey.
    destruct (files r !! key) as [l|] eqn:Hk; simpl.
    + exists l, (mkEnv r h). repeat split; [done|].
      rewrite (get_file_run _ sf2 f2) by done.
      unfold target, track, on_result. simpl. by rewrite Hkey2, Hk.
    + exists sf, (mkEnv (set_files <[key := sf]> r) h).
      repeat split; [simpl; by rewrite lookup_insert_eq|].
      rewrite (get_file_run _ sf2 f2) by done.
      unfold target, track, on_result. simpl.
      by rewrite Hkey2, lookup_insert_eq.
Qed.

Lemma get_file_canonical_witness :
  let e := mkEnv (mkParseResult "" "" ∅ ∅ ∅ ∅ ∅ ∅ ∅ ∅ "")
                 {[ 0 := mkSourceFile (FilePath "models/a.sql") "H1"
                           (Some "/p/models/a.sql") [] [] [] [] [] ]} in
  get_file 0 e = (Ok 0, on_result (set_files <[ "/p/models/a.sql" := 0 ]>) e).
Proof.
  intros e.
  refine (proj1 (proj2 (get_file_canonical e 0 _ _)) "/p/models/a.sql" _ _);
    reflexivity.
Defined.

(** C5.  [has_file] answers true exactly when the file has a search key,
    [files] has that key, and the fingerprint of the record stored there
    equals the file's; it answers false for a file without search key, for
    a key that was never tracked and for differing fingerprints.  It
    changes nothing. *)
Theorem has_file_iff (e : Env) (sf : loc) (f : SourceFile) :
  refs_alive e → store e !! sf = Some f →
  ∃ b, has_file sf e = (Ok b, e) ∧
    (b = true ↔
       ∃ key l stored, search_key f = Some key ∧
         files (result e) !! key = Some l ∧
         store e !! l = Some stored ∧ checksum stored = checksum f) ∧
    (search_key f = None → b = false) ∧
    (∀ key, search_key f = Some key → files (result e) !! key = None →
       b = false) ∧
    (∀ key l stored, search_key f = Some key →
       files (result e) !! key = Some l → store e !! l = Some stored →
       checksum stored ≠ checksum f → b = false).
Proof.
  intros Hwf Hf. destruct e as [r h]. simpl in *. run. rewrite Hf.
  destruct (search_key f) as [key|] eqn:Hkey; simpl.
  - destruct (files r !! key) as [l|] eqn:Hk; simpl.
    + destruct (Hwf key l Hk) as [stored Hl]. simpl in Hl. rewrite Hl.
      eexists. split; [done|]. repeat split.
      * intros Hb%bool_decide_eq_true. by exists key, l, stored.
      * intros (key' & l' & stored' & ? & Hk' & Hl' & Hc).
        simplify_eq. by apply bool_decide_eq_true.
      * done.
      * intros; simplify_eq.
      * intros key' l' stored' ? Hk' Hl' Hc. simplify_eq.
        by apply bool_decide_eq_false.
    + exists false. split; [done|]. repeat split; try done.
      intros (key' & l' & stored' & ? & Hk' & _). simplify_eq.
  - exists false. split; [done|]. repeat split; try done.
    intros (key' & l' & stored' & ? & _). simplify_eq.
Qed.

Lemma has_file_iff_witness :
  let e := mkEnv (mkParseResult "" "" ∅ ∅ ∅ ∅ ∅ ∅ {[ "/p/a.sql" := 0 ]} ∅ "")
                 {[ 0 := mkSourceFile (FilePath "a.sql") "H1" (Some "/p/a.sql")
                           ["model.a"] [] [] [] [];
                    1 := mkSourceFile (FilePath "a.sql") "H1" (Some "/p/a.sql")
                           [] [] [] [] [] ]} in
  ∃ b, has_file 1 e = (Ok b, e) ∧ b = true.
Proof.
  intros e.
  destruct (has_file_iff e 1
              (mkSourceFile (FilePath "a.sql") "H1" (Some "/p/a.sql")
                 [] [] [] [] [])) as (b & Hrun & Hiff & _).
  - apply (bool_decide_unpack _). vm_compute. reflexivity.
  - reflexivity.
  - exists b. split; [exact Hrun|]. apply Hiff.
    eexists _, 0, _. repeat split; reflexivity.
Defined.

(** ** Frame lemmas *)

Lemma same_file_refl f : same_file f f.
Proof. by repeat split. Qed.

Lemma same_file_trans f g k : same_file f g → same_file g k → same_file f k.
Proof. unfold same_file. intros (?&?&?) (?&?&?). repeat split; congruence. Qed.

Lemma same_file_append id f :
  same_file f (nodes_append id f) ∧ same_file f (docs_append id f) ∧
  same_file f (macros_append id f) ∧ same_file f (sources_append id f) ∧
  same_file f (patches_append id f).
Proof. by repeat split. Qed.

Lemma mutate_lookup (h : gmap loc SourceFile) t ft g l f :
  h !! t = Some ft → same_file ft (g ft) → h !! l = Some f →
  ∃ f', <[t := g ft]> h !! l = Some f' ∧ same_file f f'.
Proof.
  intros Ht Hg Hl. destruct (decide (t = l)) as [->|Hne].
  - rewrite lookup_insert_eq. simplify_eq. eauto.
  - rewrite lookup_insert_ne by done. eauto using same_file_refl.
Qed.

Lemma refs_alive_step e sf f t r' x :
  refs_alive e → store e !! sf = Some f → is_Some (store e !! t) →
  files r' = files (result e) →
  refs_alive (mkEnv (track sf f r') (<[t := x]> (store e))).
Proof.
  intros Hwf Hf Ht Hfiles key l. simpl.
  rewrite lookup_insert_is_Some. intros Hk.
  destruct (decide (t = l)) as [|Hne]; [by left|right; split; [done|]].
  unfold track in Hk. destruct (search_key f) as [key'|].
  - rewrite Hfiles in Hk.
    destruct (files (result e) !! key') as [l'|] eqn:Hk'.
    + rewrite Hfiles in Hk. by apply (Hwf key).
    + simpl in Hk. rewrite Hfiles in Hk.
      destruct (decide (key' = key)) as [->|Hkne].
      * rewrite lookup_insert_eq in Hk. simplify_eq. by rewrite Hf.
      * rewrite lookup_insert_ne in Hk by done. by apply (Hwf key).
  - rewrite Hfiles in Hk. by apply (Hwf key).
Qed.

(** ** Duplicate enforcement *)

(** C3.  [add_node] and [add_source] with an artifact whose [unique_id] is a
    key of the mapping raise [DuplicateResourceName] carrying the new and
    the existing artifact, and [add_patch] with a name that is a key of
    [patches] raises [DuplicatePatchName] carrying both patches.  With a
    fresh id or name the call succeeds, the mapping gains the artifact
    under its id, and the record [get_file] returns for the file becomes
    the same record with the id as new last entry of the matching sequence
    ([nodes], [sources] or [patches]) and its other sequences as they
    were. *)
Theorem add_rejects_duplicates_inserts_fresh
    (e : Env) (sf : loc) (f : SourceFile) :
  refs_alive e → store e !! sf = Some f →
  ∃ t ft, fst (get_file sf e) = Ok t ∧ store e !! t = Some ft ∧
    (∀ n existing, r_nodes (result e) !! unique_id n = Some existing →
       add_node sf n e =
         (Raise (DuplicateResourceName (upcast n) (upcast existing)), e)) ∧
    (∀ s existing, r_sources (result e) !! unique_id s = Some existing →
       add_source sf s e =
         (Raise (DuplicateResourceName (upcast s) (upcast existing)), e)) ∧
    (∀ p existing, r_patches (result e) !! name p = Some existing →
       add_patch sf p e = (Raise (DuplicatePatchName (name p) p existing), e)) ∧
    (∀ n, r_nodes (result e) !! unique_id n = None →
       ∃ e', add_node sf n e = (Ok tt, e') ∧
         r_nodes (result e') = <[unique_id n := n]> (r_nodes (result e)) ∧
         store e' =
           <[t := mkSourceFile (path ft) (checksum ft) (search_key ft)
                    (nodes ft ++ [unique_id n]) (docs ft) (macros ft)
                    (sources ft) (patches ft)]> (store e)) ∧
    (∀ s, r_sources (result e) !! unique_id s = None →
       ∃ e', add_source sf s e = (Ok tt, e') ∧
         r_sources (result e') = <[unique_id s := s]> (r_sources (result e)) ∧
         store e' =
           <[t := mkSourceFile (path ft) (checksum ft) (search_key ft)
                    (nodes ft) (docs ft) (macros ft)
                    (sources ft ++ [unique_id s]) (patches ft)]> (store e)) ∧
    (∀ p, r_patches (result e) !! name p = None →
       ∃ e', add_patch sf p e = (Ok tt, e') ∧
         r_patches (result e') = <[name p := p]> (r_patches (result e)) ∧
         store e' =
           <[t := mkSourceFile (path ft) (checksum ft) (search_key ft)
                    (nodes ft) (docs ft) (macros ft) (sources ft)
                    (patches ft ++ [name p])]> (store e)).
Proof.
  intros Hwf Hf. destruct (target_alive e sf f Hwf Hf) as [ft Ht].
  exists (target (result e) sf f), ft.
  split; [by rewrite (get_file_run e sf f Hf)|]. split; [done|].
  repeat split.
  - intros n existing Hd. by apply add_node_dup.
  - intros s existing Hd. by apply add_source_dup.
  - intros p existing Hd. by apply add_patch_dup.
  - intros n Hn. eexists. split; [by apply (add_node_run e sf f ft)|].
    split; [|done]. simpl. unfold track.
    destruct (search_key f); [|done]. simpl. by destruct (files _ !! _).
  - intros s Hn. eexists. split; [by apply (add_source_run e sf f ft)|].
    split; [|done]. simpl. unfold track.
    destruct (search_key f); [|done]. simpl. by destruct (files _ !! _).
  - intros p Hn. eexists. split; [by apply (add_patch_run e sf f ft)|].
    split; [|done]. simpl. unfold track.
    destruct (search_key f); [|done]. simpl. by destruct (files _ !! _).
Qed.

Lemma add_rejects_duplicates_inserts_fresh_witness :
  let a := mkNode "model.a" "models/a.sql" "select 1" in
  let b := mkNode "model.a" "models/b.sql" "select 2" in
  let c := mkNode "model.c" "models/a.sql" "select 3" in
  let fa := mkSourceFile (FilePath "models/a.sql") "H1"
              (Some "/p/models/a.sql") ["model.a"] [] [] [] [] in
  let fb := mkSourceFile (FilePath "models/b.sql") "H2"
              (Some "/p/models/b.sql") [] [] [] [] [] in
  let e := mkEnv (mkParseResult "" "" ∅ {[ "model.a" := a ]} ∅ ∅ ∅ ∅
                    {[ "/p/models/a.sql" := 0 ]} ∅ "")
                 {[ 0 := fa; 1 := fb ]} in
  add_node 0 b e =
    (Raise (DuplicateResourceName (NodeResource b) (NodeResource a)), e) ∧
  ∃ e', add_node 0 c e = (Ok tt, e') ∧
    r_nodes (result e') = <[ "model.c" := c ]> {[ "model.a" := a ]} ∧
    store e' =
      <[ 0 := mkSourceFile (FilePath "models/a.sql") "H1"
                (Some "/p/models/a.sql") ["model.a"; "model.c"] [] [] [] [] ]>
        (store e).
Proof.
  intros a b c fa fb e.
  destruct (add_rejects_duplicates_inserts_fresh e 0 fa)
    as (t & ft & Ht & Hft & Hdup & _ & _ & Hfresh & _).
  - apply (bool_decide_unpack _). vm_compute. reflexivity.
  - reflexivity.
  - assert (t = 0) as -> by (vm_compute in Ht; congruence).
    assert (ft = fa) as -> by (vm_compute in Hft; unfold fa; congruence).
    split; [apply (Hdup b a); reflexivity|].
    destruct (Hfresh c) as (e' & Hrun & Hnodes & Hstore); [reflexivity|].
    exists e'. split; [exact Hrun|]. split; [exact Hnodes|exact Hstore].
Defined.

Ltac no_raise_after_check h sf r :=
  destruct (h !! sf) as [?f|]; simpl; [|done];
  destruct (search_key _) as [?key|]; simpl;
  [ let E := fresh "Hk" in
    destruct (files r !! _) as [?l|] eqn:E; simpl;
    rewrite ?E, ?lookup_insert_eq; simpl; by destruct (h !! _)
  | by destruct (h !! _) ].

Lemma add_node_raise_inv e e' sf n exn :
  add_node sf n e = (Raise exn, e') →
  e' = e ∧ ∃ existing, r_nodes (result e) !! unique_id n = Some existing ∧
    exn = DuplicateResourceName (upcast n) (upcast existing).
Proof.
  destruct e as [r h]. simpl.
  destruct (r_nodes r !! node_unique_id n) as [existing|] eqn:Hd.
  - rewrite (add_node_dup (mkEnv r h) sf n existing Hd).
    intros; simplify_eq. eauto.
  - run. rewrite Hd. simpl. no_raise_after_check h sf r.
Qed.

Lemma add_source_raise_inv e e' sf s exn :
  add_source sf s e = (Raise exn, e') →
  e' = e ∧ ∃ existing, r_sources (result e) !! unique_id s = Some existing ∧
    exn = DuplicateResourceName (upcast s) (upcast existing).
Proof.
  destruct e as [r h]. simpl.
  destruct (r_sources r !! source_unique_id s) as [existing|] eqn:Hd.
  - rewrite (add_source_dup (mkEnv r h) sf s existing Hd).
    intros; simplify_eq. eauto.
  - run. rewrite Hd. simpl. no_raise_after_check h sf r.
Qed.

Lemma add_patch_raise_inv e e' sf p exn :
  add_patch sf p e = (Raise exn, e') →
  e' = e ∧ ∃ existing, r_patches (result e) !! name p = Some existing ∧
    exn = DuplicatePatchName (name p) p existing.
Proof.
  destruct e as [r h]. simpl.
  destruct (r_patches r !! name p) as [existing|] eqn:Hd.
  - rewrite (add_patch_dup (mkEnv r h) sf p existing Hd).
    intros; simplify_eq. eauto.
  - run. rewrite Hd. simpl. no_raise_after_check h sf r.
Qed.

(** C10.  When [add_node], [add_source] or [add_patch] raises, the error is
    its duplicate-name error and the state is the one before the call: no
    mapping and no file record has changed. *)
Theorem failed_add_changes_nothing (e e' : Env) (sf : loc) (exn : Exn) :
  (∀ n, add_node sf n e = (Raise exn, e') →
     e' = e ∧ ∃ existing, r_nodes (result e) !! unique_id n = Some existing ∧
       exn = DuplicateResourceName (upcast n) (upcast existing)) ∧
  (∀ s, add_source sf s e = (Raise exn, e') →
     e' = e ∧ ∃ existing, r_sources (result e) !! unique_id s = Some existing ∧
       exn = DuplicateResourceName (upcast s) (upcast existing)) ∧
  (∀ p, add_patch sf p e = (Raise exn, e') →
     e' = e ∧ ∃ existing, r_patches (result e) !! name p = Some existing ∧
       exn = DuplicatePatchName (name p) p existing).
Proof.
  split; [|split].
  - intros n. apply add_node_raise_inv.
  - intros s. apply add_source_raise_inv.
  - intros p. apply add_patch_raise_inv.
Qed.

Lemma failed_add_changes_nothing_witness :
  let a := mkPatch "customers" "description: one" in
  let b := mkPatch "customers" "description: two" in
  let e := mkEnv (mkParseResult "" "" ∅ ∅ ∅ ∅ ∅ {[ "customers" := a ]}
                    {[ "/p/schema.yml" := 0 ]} ∅ "")
                 {[ 0 := mkSourceFile (FilePath "schema.yml") "H1"
                           (Some "/p/schema.yml") [] [] [] [] ["customers"] ]} in
  add_patch 0 b e = (Raise (DuplicatePatchName "customers" b a), e) ∧
  e = e.
Proof.
  intros a b e.
  assert (Hrun : add_patch 0 b e = (Raise (DuplicatePatchName "customers" b a), e))
    by (vm_compute; reflexivity).
  split; [exact Hrun|].
  exact (eq_sym (proj1 (proj2 (proj2 (failed_add_changes_nothing e e 0 _)) b Hrun))).
Defined.

(** ** Macros and docs: last writer wins *)

Lemma add_macro_alive e sf f m :
  refs_alive e → store e !! sf = Some f →
  ∃ e' t ft, add_macro sf m e = (Ok tt, e') ∧
    fst (get_file sf e) = Ok t ∧ store e !! t = Some ft ∧
    r_macros (result e') = <[unique_id m := m]> (r_macros (result e)) ∧
    store e' = <[t := macros_append (unique_id m) ft]> (store e) ∧
    refs_alive e'.
Proof.
  intros Hwf Hf. destruct (target_alive e sf f Hwf Hf) as [ft Ht].
  eexists _, (target (result e) sf f), ft.
  split; [by apply (add_macro_run e sf f ft)|].
  split; [by rewrite (get_file_run e sf f Hf)|]. split; [done|].
  split; [|split; [done|]].
  - simpl. unfold track. destruct (search_key f); [|done].
    simpl. by destruct (files _ !! _).
  - by apply refs_alive_step.
Qed.

Lemma add_doc_alive e sf f d :
  refs_alive e → store e !! sf = Some f →
  ∃ e' t ft, add_doc sf d e = (Ok tt, e') ∧
    fst (get_file sf e) = Ok t ∧ store e !! t = Some ft ∧
    r_docs (result e') = <[unique_id d := d]> (r_docs (result e)) ∧
    store e' = <[t := docs_append (unique_id d) ft]> (store e) ∧
    refs_alive e'.
Proof.
  intros Hwf Hf. destruct (target_alive e sf f Hwf Hf) as [ft Ht].
  eexists _, (target (result e) sf f), ft.
  split; [by apply (add_doc_run e sf f ft)|].
  split; [by rewrite (get_file_run e sf f Hf)|]. split; [done|].
  split; [|split; [done|]].
  - simpl. unfold track. destruct (search_key f); [|done].
    simpl. by destruct (files _ !! _).
  - by apply refs_alive_step.
Qed.

(** C7.  Two [add_macro] calls (respectively two [add_doc] calls) whose
    artifacts share a [unique_id] both succeed; afterwards the mapping
    holds the artifact of the second call under that id, and each call has
    turned the record [get_file] returned for its file into the same
    record with the id as new last entry of its macro (respectively doc)
    sequence, the other sequences as they were. *)
Theorem macros_docs_last_writer_wins
    (e : Env) (sf1 sf2 : loc) (f1 f2 : SourceFile) :
  refs_alive e → store e !! sf1 = Some f1 → store e !! sf2 = Some f2 →
  (∀ m1 m2 : ParsedMacro, unique_id m1 = unique_id m2 →
     ∃ e1 e2 t1 t2 ft1 ft2,
       add_macro sf1 m1 e = (Ok tt, e1) ∧ add_macro sf2 m2 e1 = (Ok tt, e2) ∧
       r_macros (result e2) !! unique_id m1 = Some m2 ∧
       fst (get_file sf1 e) = Ok t1 ∧ store e !! t1 = Some ft1 ∧
       store e1 =
         <[t1 := mkSourceFile (path ft1) (checksum ft1) (search_key ft1)
                   (nodes ft1) (docs ft1) (macros ft1 ++ [unique_id m1])
                   (sources ft1) (patches ft1)]> (store e) ∧
       fst (get_file sf2 e1) = Ok t2 ∧ store e1 !! t2 = Some ft2 ∧
       store e2 =
         <[t2 := mkSourceFile (path ft2) (checksum ft2) (search_key ft2)
                   (nodes ft2) (docs ft2) (macros ft2 ++ [unique_id m2])
                   (sources ft2) (patches ft2)]> (store e1)) ∧
  (∀ d1 d2 : ParsedDocumentation, unique_id d1 = unique_id d2 →
     ∃ e1 e2 t1 t2 ft1 ft2,
       add_doc sf1 d1 e = (Ok tt, e1) ∧ add_doc sf2 d2 e1 = (Ok tt, e2) ∧
       r_docs (result e2) !! unique_id d1 = Some d2 ∧
       fst (get_file sf1 e) = Ok t1 ∧ store e !! t1 = Some ft1 ∧
       store e1 =
         <[t1 := mkSourceFile (path ft1) (checksum ft1) (search_key ft1)
                   (nodes ft1) (docs ft1 ++ [unique_id d1]) (macros ft1)
                   (sources ft1) (patches ft1)]> (store e) ∧
       fst (get_file sf2 e1) = Ok t2 ∧ store e1 !! t2 = Some ft2 ∧
       store e2 =
         <[t2 := mkSourceFile (path ft2) (checksum ft2) (search_key ft2)
                   (nodes ft2) (docs ft2 ++ [unique_id d2]) (macros ft2)
                   (sources ft2) (patches ft2)]> (store e1)).
Proof.
  intros Hwf Hf1 Hf2. split.
  - intros m1 m2 Hid.
    destruct (add_macro_alive e sf1 f1 m1 Hwf Hf1)
      as (e1 & t1 & ft1 & Hrun1 & Hg1 & Ht1 & Hm1 & Hs1 & Hwf1).
    assert (∃ f2', store e1 !! sf2 = Some f2') as [f2' Hf2'].
    { rewrite Hs1. apply lookup_insert_is_Some.
      destruct (decide (t1 = sf2)); [by left|right; by rewrite Hf2]. }
    destruct (add_macro_alive e1 sf2 f2' m2 Hwf1 Hf2')
      as (e2 & t2 & ft2 & Hrun2 & Hg2 & Ht2 & Hm2 & Hs2 & Hwf2).
    exists e1, e2, t1, t2, ft1, ft2. repeat split; try done.
    rewrite Hm2, Hid. apply lookup_insert_eq.
  - intros d1 d2 Hid.
    destruct (add_doc_alive e sf1 f1 d1 Hwf Hf1)
      as (e1 & t1 & ft1 & Hrun1 & Hg1 & Ht1 & Hm1 & Hs1 & Hwf1).
    assert (∃ f2', store e1 !! sf2 = Some f2') as [f2' Hf2'].
    { rewrite Hs1. apply lookup_insert_is_Some.
      destruct (decide (t1 = sf2)); [by left|right; by rewrite Hf2]. }
    destruct (add_doc_alive e1 sf2 f2' d2 Hwf1 Hf2')
      as (e2 & t2 & ft2 & Hrun2 & Hg2 & Ht2 & Hm2 & Hs2 & Hwf2).
    exists e1, e2, t1, t2, ft1, ft2. repeat split; try done.
    rewrite Hm2, Hid. apply lookup_insert_eq.
Qed.

Lemma macros_docs_last_writer_wins_witness :
  let m1 := mkMacro "macro.p.cents" "{{ x * 100 }}" in
  let m2 := mkMacro "macro.p.cents" "{{ x * 1000 }}" in
  let fa := mkSourceFile (FilePath "macros/a.sql") "H1" (Some "/p/macros/a.sql")
              [] [] [] [] [] in
  let fb := mkSourceFile (FilePath "macros/b.sql") "H2" (Some "/p/macros/b.sql")
              [] [] ["macro.p.other"] [] [] in
  let e := mkEnv (mkParseResult "" "" ∅ ∅ ∅ ∅ ∅ ∅ ∅ ∅ "") {[ 0 := fa; 1 := fb ]} in
  ∃ e1 e2,
    add_macro 0 m1 e = (Ok tt, e1) ∧ add_macro 1 m2 e1 = (Ok tt, e2) ∧
    r_macros (result e2) !! "macro.p.cents" = Some m2 ∧
    store e1 =
      <[ 0 := mkSourceFile (FilePath "macros/a.sql") "H1"
                (Some "/p/macros/a.sql") [] [] ["macro.p.cents"] [] [] ]>
        (store e) ∧
    store e2 =
      <[ 1 := mkSourceFile (FilePath "macros/b.sql") "H2"
                (Some "/p/macros/b.sql") []
                [] ["macro.p.other"; "macro.p.cents"] [] [] ]>
        (store e1).
Proof.
  intros m1 m2 fa fb e.
  destruct (macros_docs_last_writer_wins e 0 1 fa fb) as [Hm _].
  - apply (bool_decide_unpack _). vm_compute. reflexivity.
  - reflexivity.
  - reflexivity.
  - destruct (Hm m1 m2 eq_refl)
      as (e1 & e2 & t1 & t2 & ft1 & ft2 &
          H1 & H2 & H3 & Hg1 & Hft1 & Hs1 & Hg2 & Hft2 & Hs2).
    assert (t1 = 0) as -> by (vm_compute in Hg1; congruence).
    assert (ft1 = fa) as -> by (vm_compute in Hft1; unfold fa; congruence).
    assert (t2 = 1) as ->.
    { assert (Hsf : store e1 !! 1 = Some fb) by (rewrite Hs1; reflexivity).
      rewrite (get_file_run e1 1 fb Hsf) in Hg2. simpl in Hg2.
      assert (Hfiles : files (result e1) !! "/p/macros/b.sql" = None).
      { pose proof H1 as Hrun. vm_compute in Hrun.
        injection Hrun as <-. reflexivity. }
      unfold target in Hg2. simpl in Hg2. rewrite Hfiles in Hg2.
      simpl in Hg2. congruence. }
    assert (ft2 = fb) as ->.
    { rewrite Hs1 in Hft2. vm_compute in Hft2. unfold fb. congruence. }
    exists e1, e2. split; [exact H1|]. split; [exact H2|].
    split; [exact H3|]. split; [exact Hs1|exact Hs2].
Defined.

(** ** Disabled artifacts *)

Lemma _get_disabled_run e id mf f ns :
  disabled (result e) !! id = Some ns → store e !! mf = Some f →
  _get_disabled id mf e =
    (Ok (filter (λ n, original_file_path n = path_original_file_path (path f)) ns),
     e).
Proof.
  intros Hd Hf. destruct e as [r h]. simpl in *. run.
  rewrite Hd. simpl. by rewrite Hf.
Qed.

Lemma _get_disabled_absent e id mf :
  disabled (result e) !! id = None →
  _get_disabled id mf e = (Raise (InternalException id), e).
Proof. intros Hd. destruct e as [r h]. simpl in *. run. by rewrite Hd. Qed.

Lemma add_disabled_alive e sf f n :
  refs_alive e → store e !! sf = Some f →
  ∃ e' t ft, add_disabled sf n e = (Ok tt, e') ∧
    fst (get_file sf e) = Ok t ∧ store e !! t = Some ft ∧
    disabled (result e') =
      <[unique_id n := default [] (disabled (result e) !! unique_id n) ++ [n]]>
        (disabled (result e)) ∧
    store e' = <[t := nodes_append (unique_id n) ft]> (store e) ∧
    refs_alive e'.
Proof.
  intros Hwf Hf. destruct (target_alive e sf f Hwf Hf) as [ft Ht].
  eexists _, (target (result e) sf f), ft.
  split; [by apply (add_disabled_run e sf f ft)|].
  split; [by rewrite (get_file_run e sf f Hf)|]. split; [done|].
  split; [|split; [done|]].
  - simpl. unfold track. destruct (search_key f); [|done].
    simpl. by destruct (files _ !! _).
  - by apply refs_alive_step.
Qed.

(** C8.  After [add_disabled] has registered a variant [v1] of id [N] from
    file [F1] and a variant [v2] of the same id from file [F2] with another
    original path, [_get_disabled N F1] returns the variants registered
    under [N] whose original path is that of [F1], in registration order
    and ending with [v1], and [_get_disabled N F2] those of [F2], ending
    with [v2]; neither list holds a variant of another path. *)
Theorem disabled_variants_by_file
    (e : Env) (F1 F2 : loc) (f1 f2 : SourceFile) (v1 v2 : ParsedNode) :
  refs_alive e → store e !! F1 = Some f1 → store e !! F2 = Some f2 →
  unique_id v1 = unique_id v2 →
  original_file_path v1 = path_original_file_path (path f1) →
  original_file_path v2 = path_original_file_path (path f2) →
  path_original_file_path (path f1) ≠ path_original_file_path (path f2) →
  let before := default [] (disabled (result e) !! unique_id v1) in
  ∃ e1 e2,
    add_disabled F1 v1 e = (Ok tt, e1) ∧ add_disabled F2 v2 e1 = (Ok tt, e2) ∧
    disabled (result e2) !! unique_id v1 = Some (before ++ [v1; v2]) ∧
    _get_disabled (unique_id v1) F1 e2 = (Ok (filter (from f1) before ++ [v1]), e2) ∧
    _get_disabled (unique_id v1) F2 e2 = (Ok (filter (from f2) before ++ [v2]), e2) ∧
    (∀ n, n ∈ filter (from f1) before ++ [v1] → from f1 n ∧ ¬ from f2 n) ∧
    (∀ n, n ∈ filter (from f2) before ++ [v2] → from f2 n ∧ ¬ from f1 n) ∧
    (∀ e' F f ns, disabled (result e') !! unique_id v1 = Some ns →
       store e' !! F = Some f →
       _get_disabled (unique_id v1) F e' = (Ok (filter (from f) ns), e')).
Proof.
  intros Hwf Hf1 Hf2 Hid Hp1 Hp2 Hne before.
  destruct (add_disabled_alive e F1 f1 v1 Hwf Hf1)
    as (e1 & t1 & ft1 & Hrun1 & Hg1 & Ht1 & Hd1 & Hs1 & Hwf1).
  assert (Happ : same_file ft1 (nodes_append (unique_id v1) ft1))
    by apply same_file_append.
  destruct (mutate_lookup (store e) t1 ft1 (nodes_append (unique_id v1)) F1 f1
              Ht1 Happ Hf1) as (f1' & Hf1' & Hsame1).
  destruct (mutate_lookup (store e) t1 ft1 (nodes_append (unique_id v1)) F2 f2
              Ht1 Happ Hf2) as (f2' & Hf2' & Hsame2).
  rewrite <- Hs1 in Hf1', Hf2'.
  destruct (add_disabled_alive e1 F2 f2' v2 Hwf1 Hf2')
    as (e2 & t2 & ft2 & Hrun2 & Hg2 & Ht2 & Hd2 & Hs2 & Hwf2).
  assert (Happ2 : same_file ft2 (nodes_append (unique_id v2) ft2))
    by apply same_file_append.
  destruct (mutate_lookup (store e1) t2 ft2 (nodes_append (unique_id v2)) F1 f1'
              Ht2 Happ2 Hf1') as (f1'' & Hf1'' & Hsame1').
  destruct (mutate_lookup (store e1) t2 ft2 (nodes_append (unique_id v2)) F2 f2'
              Ht2 Happ2 Hf2') as (f2'' & Hf2'' & Hsame2').
  rewrite <- Hs2 in Hf1'', Hf2''.
  assert (Hpath1 : path f1'' = path f1).
  { destruct Hsame1 as [? _], Hsame1' as [? _]. congruence. }
  assert (Hpath2 : path f2'' = path f2).
  { destruct Hsame2 as [? _], Hsame2' as [? _]. congruence. }
  assert (Hd : disabled (result e2) !! unique_id v1 = Some (before ++ [v1; v2])).
  { rewrite Hd2, Hd1, <- Hid, !lookup_insert_eq. simpl.
    by rewrite <- app_assoc. }
  exists e1, e2. split; [done|]. split; [done|]. split; [done|].
  split; [|split; [|split; [|split]]].
  - rewrite (_get_disabled_run e2 _ F1 f1'' _ Hd Hf1''), Hpath1.
    f_equal. f_equal. rewrite filter_app. f_equal.
    rewrite filter_cons_True by done. rewrite filter_cons_False; [done|].
    rewrite Hp2. congruence.
  - rewrite (_get_disabled_run e2 _ F2 f2'' _ Hd Hf2''), Hpath2.
    f_equal. f_equal. rewrite filter_app. f_equal.
    rewrite filter_cons_False by (rewrite Hp1; congruence).
    by rewrite filter_cons_True.
  - intros n [Hn|Hn%list_elem_of_singleton]%elem_of_app.
    + apply list_elem_of_filter in Hn as [Hn _]. split; [done|]. congruence.
    + subst n. split; [done|]. congruence.
  - intros n [Hn|Hn%list_elem_of_singleton]%elem_of_app.
    + apply list_elem_of_filter in Hn as [Hn _]. split; [done|]. congruence.
    + subst n. split; [done|]. congruence.
  - intros e' F f ns Hd' Hf'. by apply _get_disabled_run.
Qed.

Lemma disabled_variants_by_file_witness :
  let va := mkNode "model.p.events" "models/a.sql" "variant a" in
  let vb := mkNode "model.p.events" "models/b.sql" "variant b" in
  let fa := mkSourceFile (FilePath "models/a.sql") "H1" (Some "/p/models/a.sql")
              [] [] [] [] [] in
  let fb := mkSourceFile (FilePath "models/b.sql") "H2" (Some "/p/models/b.sql")
              [] [] [] [] [] in
  let e := mkEnv (mkParseResult "" "" ∅ ∅ ∅ ∅ ∅ ∅ ∅ ∅ "") {[ 0 := fa; 1 := fb ]} in
  ∃ e1 e2,
    add_disabled 0 va e = (Ok tt, e1) ∧ add_disabled 1 vb e1 = (Ok tt, e2) ∧
    _get_disabled "model.p.events" 0 e2 = (Ok [va], e2) ∧
    _get_disabled "model.p.events" 1 e2 = (Ok [vb], e2).
Proof.
  intros va vb fa fb e.
  destruct (disabled_variants_by_file e 0 1 fa fb va vb)
    as (e1 & e2 & H1 & H2 & _ & H3 & H4 & _).
  - apply (bool_decide_unpack _). vm_compute. reflexivity.
  - reflexivity.
  - reflexivity.
  - reflexivity.
  - reflexivity.
  - reflexivity.
  - simpl. discriminate.
  - exists e1, e2. repeat split; assumption.
Defined.

(** ** The invariant is kept *)

Lemma preserves_ret {St A} (P : St → Prop) (a : A) : preserves P (ret a).
Proof. by intros s. Qed.

Lemma preserves_raise {St A} (P : St → Prop) e : preserves P (@raise St A e).
Proof. by intros s. Qed.

Lemma preserves_gets {St A} (P : St → Prop) (f : St → A) : preserves P (gets f).
Proof. by intros s. Qed.

Lemma preserves_bind {St A B} (P : St → Prop) (m : M St A) (k : A → M St B) :
  preserves P m → (∀ a, preserves P (k a)) → preserves P (bind m k).
Proof.
  intros Hm Hk s Hs. unfold bind. specialize (Hm s Hs).
  destruct (m s) as [[a|e| |] s']; simpl in *; try done. by apply Hk.
Qed.

Lemma preserves_for_each {St A} (P : St → Prop) (body : A → M St unit) xs :
  (∀ x, preserves P (body x)) → preserves P (for_each body xs).
Proof.
  intros Hbody. induction xs as [|x xs IH]; simpl.
  - apply preserves_ret.
  - apply preserves_bind; [apply Hbody|done].
Qed.

Lemma preserves_for_in {St A} (P : St → Prop) fuel (live : St → option (list A))
    (body : A → M St unit) i :
  (∀ x, preserves P (body x)) → preserves P (for_in fuel live body i).
Proof.
  intros Hbody. revert i. induction fuel as [|fuel IH]; intros i s Hs; simpl.
  - done.
  - destruct (live s) as [xs|]; [|done].
    destruct (xs !! i) as [x|]; [|done].
    apply (preserves_bind P (body x)); [apply Hbody| |done].
    intros _. apply IH.
Qed.

Lemma preserves_on_self {A} (P : Env → Prop) (m : M Env A) :
  preserves P m →
  preserves (λ p, P (mkEnv (self p) (objects p))) (on_self m).
Proof.
  intros Hm p Hp. unfold on_self. specialize (Hm _ Hp).
  by destruct (m _) as [o [r h]].
Qed.

Lemma get_file_store sf e : store (snd (get_file sf e)) = store e.
Proof.
  destruct e as [r h]. run. destruct (h !! sf) as [f|]; [|done]. simpl.
  destruct (search_key f) as [key|]; [|done]. simpl.
  destruct (files r !! key) as [l|] eqn:Hk; simpl.
  - by rewrite Hk.
  - by rewrite lookup_insert_eq.
Qed.

Lemma _get_disabled_state id mf e : snd (_get_disabled id mf e) = e.
Proof.
  destruct e as [r h]. run. destruct (disabled r !! id); [|done]. simpl.
  by destruct (h !! mf).
Qed.

Lemma ids_registered_track sf f r x :
  ids_registered (track sf f r) x ↔ ids_registered r x.
Proof.
  unfold track. destruct (search_key f); [|done].
  by destruct (files r !! _).
Qed.

Lemma ids_registered_mono r r' f :
  grows r r' → ids_registered r f → ids_registered r' f.
Proof.
  intros (Hn & Hd & Hs & Hdo & Hm & Hp) (Fn & Fs & Fd & Fm & Fp).
  repeat split; (eapply Forall_impl; [eassumption|]); simpl; intros id;
    [|auto..].
  intros [?|?]; [left|right]; auto.
Qed.

Lemma files_consistent_alive e : files_consistent e → refs_alive e.
Proof.
  intros Hinv key l Hk. specialize (Hinv key l Hk). simpl in *.
  by destruct (store e !! l).
Qed.

Lemma consistent_step e sf f ft r' g :
  files_consistent e → store e !! sf = Some f → ids_registered (result e) f →
  store e !! target (result e) sf f = Some ft →
  files r' = files (result e) → grows (result e) r' →
  (ids_registered r' ft → ids_registered r' (g ft)) →
  admissible sf
    (mkEnv (track sf f r') (<[target (result e) sf f := g ft]> (store e))).
Proof.
  intros Hinv Hf Hok Ht Hfiles Hgrow Hg.
  set (t := target (result e) sf f) in *.
  assert (Hft : ids_registered (result e) ft).
  { subst t. unfold target in Ht. destruct (search_key f) as [key|].
    - destruct (files (result e) !! key) as [l|] eqn:Hk; simpl in Ht.
      + specialize (Hinv key l Hk). simpl in Hinv. by rewrite Ht in Hinv.
      + by simplify_eq.
    - by simplify_eq. }
  assert (Hkeep : ∀ l x, store e !! l = Some x → ids_registered (result e) x →
            match <[t := g ft]> (store e) !! l with
            | Some x' => ids_registered (track sf f r') x'
            | None => False
            end).
  { intros l x Hl Hx. destruct (decide (t = l)) as [<-|Hne].
    - rewrite lookup_insert_eq. apply ids_registered_track, Hg.
      by apply (ids_registered_mono (result e)).
    - rewrite lookup_insert_ne, Hl by done. apply ids_registered_track.
      by apply (ids_registered_mono (result e)). }
  split; simpl; [|by apply (Hkeep sf f)].
  intros key l Hk. simpl in *.
  assert (files (result e) !! key = Some l ∨ l = sf) as [Hold| ->].
  { unfold track in Hk. destruct (search_key f) as [key'|].
    - rewrite Hfiles in Hk.
      destruct (files (result e) !! key') as [l'|] eqn:Hk'.
      + rewrite Hfiles in Hk. by left.
      + simpl in Hk. rewrite Hfiles in Hk.
        destruct (decide (key' = key)) as [->|Hkne].
        * rewrite lookup_insert_eq in Hk. simplify_eq. by right.
        * rewrite lookup_insert_ne in Hk by done. by left.
    - rewrite Hfiles in Hk. by left. }
  - specialize (Hinv key l Hold). simpl in Hinv.
    destruct (store e !! l) as [x|] eqn:Hl; [|done]. by apply (Hkeep l x).
  - by apply (Hkeep sf f).
Qed.

Lemma admissible_inv sf e :
  admissible sf e →
  ∃ f ft, files_consistent e ∧ store e !! sf = Some f ∧
    ids_registered (result e) f ∧
    store e !! target (result e) sf f = Some ft.
Proof.
  intros [Hinv Hsf]. destruct (store e !! sf) as [f|] eqn:Hf; [|done].
  destruct (target_alive e sf f (files_consistent_alive e Hinv) Hf) as [ft Ht].
  by exists f, ft.
Qed.

Lemma get_file_admissible sf : preserves (admissible sf) (get_file sf).
Proof.
  intros e Hadm.
  destruct (admissible_inv sf e Hadm) as (f & ft & Hinv & Hf & Hok & Ht).
  rewrite (get_file_run e sf f Hf). simpl.
  pose proof (consistent_step e sf f ft (result e) id Hinv Hf Hok Ht eq_refl) as H.
  rewrite insert_id in H by done. destruct e as [r h]. apply H; [|done].
  by repeat split.
Qed.

Ltac grows_insert :=
  repeat split; simpl; try done; intros ?id;
  rewrite lookup_insert_is_Some; intros ?;
  match goal with |- ?a = ?b ∨ _ => destruct (decide (a = b)); auto end.

Ltac registered_append :=
  intros (?&?&?&?&?); repeat split; simpl; try done;
  apply Forall_app; (split; [done|]); apply Forall_singleton;
  rewrite ?lookup_insert_eq; eauto.

Lemma add_doc_admissible sf d : preserves (admissible sf) (add_doc sf d).
Proof.
  intros e Hadm.
  destruct (admissible_inv sf e Hadm) as (f & ft & Hinv & Hf & Hok & Ht).
  rewrite (add_doc_run e sf f ft d Hf Ht). simpl.
  apply consistent_step; try done; [grows_insert|registered_append].
Qed.

Lemma add_macro_admissible sf m : preserves (admissible sf) (add_macro sf m).
Proof.
  intros e Hadm.
  destruct (admissible_inv sf e Hadm) as (f & ft & Hinv & Hf & Hok & Ht).
  rewrite (add_macro_run e sf f ft m Hf Ht). simpl.
  apply consistent_step; try done; [grows_insert|registered_append].
Qed.

Lemma add_disabled_admissible sf n :
  preserves (admissible sf) (add_disabled sf n).
Proof.
  intros e Hadm.
  destruct (admissible_inv sf e Hadm) as (f & ft & Hinv & Hf & Hok & Ht).
  rewrite (add_disabled_run e sf f ft n Hf Ht). simpl.
  apply consistent_step; try done; [grows_insert|registered_append].
Qed.

Lemma add_node_admissible sf n : preserves (admissible sf) (add_node sf n).
Proof.
  intros e Hadm.
  destruct (admissible_inv sf e Hadm) as (f & ft & Hinv & Hf & Hok & Ht).
  destruct (r_nodes (result e) !! unique_id n) as [existing|] eqn:Hd.
  - by rewrite (add_node_dup e sf n existing Hd).
  - rewrite (add_node_run e sf f ft n Hd Hf Ht). simpl.
    apply consistent_step; try done; [grows_insert|registered_append].
Qed.

Lemma add_source_admissible sf s : preserves (admissible sf) (add_source sf s).
Proof.
  intros e Hadm.
  destruct (admissible_inv sf e Hadm) as (f & ft & Hinv & Hf & Hok & Ht).
  destruct (r_sources (result e) !! unique_id s) as [existing|] eqn:Hd.
  - by rewrite (add_source_dup e sf s existing Hd).
  - rewrite (add_source_run e sf f ft s Hd Hf Ht). simpl.
    apply consistent_step; try done; [grows_insert|registered_append].
Qed.

Lemma add_patch_admissible sf p : preserves (admissible sf) (add_patch sf p).
Proof.
  intros e Hadm.
  destruct (admissible_inv sf e Hadm) as (f & ft & Hinv & Hf & Hok & Ht).
  destruct (r_patches (result e) !! name p) as [existing|] eqn:Hd.
  - by rewrite (add_patch_dup e sf p existing Hd).
  - rewrite (add_patch_run e sf f ft p Hd Hf Ht). simpl.
    apply consistent_step; try done; [grows_insert|registered_append].
Qed.

Lemma preserves_expect_value {St T} (P : St → Prop) key (src : gmap string T) tbl :
  preserves P (_expect_value key src tbl).
Proof. intros s Hs. unfold _expect_value. by destruct (src !! key). Qed.

Lemma preserves_on_old_get_file (P : Env → Prop) sf :
  preserves (λ p, P (mkEnv (self p) (objects p))) (on_old (get_file sf)).
Proof.
  intros p Hp. unfold on_old.
  pose proof (get_file_store sf (mkEnv (old_result p) (objects p))) as Hs.
  destruct (get_file sf _) as [o [r h]]. simpl in *. by subst h.
Qed.

Lemma preserves_on_old_get_disabled (P : Pass → Prop) id mf :
  preserves P (on_old (_get_disabled id mf)).
Proof.
  intros p Hp. unfold on_old.
  pose proof (_get_disabled_state id mf (mkEnv (old_result p) (objects p))) as Hs.
  destruct (_get_disabled id mf _) as [o [r h]]. simpl in *.
  simplify_eq. by destruct p.
Qed.

Lemma preserves_deref (P : Env → Prop) l : preserves P (deref l).
Proof. intros e He. unfold deref. by destruct (store e !! l). Qed.

Lemma sanitized_update_admissible fuel sf :
  preserves (λ p, admissible sf (mkEnv (self p) (objects p)))
    (sanitized_update fuel sf).
Proof.
  unfold sanitized_update.
  apply preserves_bind; [apply preserves_on_self, preserves_deref|].
  intros f. destruct (isinstance_RemoteFile (path f)); [apply preserves_ret|].
  apply preserves_bind;
    [apply (preserves_on_old_get_file (admissible sf))|]. intros old_file.
  repeat (apply preserves_bind; [apply preserves_for_in; intros id|intros _]);
    [..|apply preserves_ret].
  - unfold reuse_doc. apply preserves_bind; [apply preserves_gets|intros src].
    apply preserves_bind; [apply preserves_expect_value|intros doc].
    apply preserves_on_self, add_doc_admissible.
  - unfold reuse_macro. apply preserves_bind; [apply preserves_gets|intros src].
    apply preserves_bind; [apply preserves_expect_value|intros m].
    apply preserves_on_self, add_macro_admissible.
  - unfold reuse_source. apply preserves_bind; [apply preserves_gets|intros src].
    apply preserves_bind; [apply preserves_expect_value|intros s].
    apply preserves_on_self, add_source_admissible.
  - unfold reuse_node. apply preserves_bind; [apply preserves_gets|intros old].
    destruct (r_nodes old !! id) as [node|].
    { apply preserves_on_self, add_node_admissible. }
    destruct (disabled old !! id) as [ns|]; [|apply preserves_raise].
    apply preserves_bind; [apply preserves_on_old_get_disabled|intros matches].
    apply preserves_for_each. intros v.
    apply preserves_on_self, add_disabled_admissible.
  - unfold reuse_patch. apply preserves_bind; [apply preserves_gets|intros src].
    apply preserves_bind; [apply preserves_expect_value|intros pt].
    apply preserves_on_self, add_patch_admissible.
Qed.

(** C9, amended.  Let the invariant hold: every record stored in [files]
    has each node id among the keys of [nodes] or [disabled], each source,
    doc and macro id among the keys of its mapping and each patch name
    among the keys of [patches].  Let the file handed to the operation be
    an object whose own ids are registered in that way (a fresh record
    with empty sequences, or a tracked one).  Then the invariant holds
    after [get_file], [add_node], [add_source], [add_disabled],
    [add_macro], [add_doc], [add_patch] and [sanitized_update] on [self],
    whether the call returns or raises. *)
Theorem operations_keep_files_consistent (op : Op) (e : Env) (f : SourceFile) :
  files_consistent e →
  store e !! op_file op = Some f → ids_registered (result e) f →
  files_consistent (after op e).
Proof.
  intros Hinv Hf Hok.
  assert (Hadm : admissible (op_file op) e).
  { split; [done|]. by rewrite Hf. }
  destruct op as [sf|sf n|sf s|sf n|sf m|sf d|sf p|fuel old sf]; simpl in *.
  - by apply get_file_admissible.
  - by apply add_node_admissible.
  - by apply add_source_admissible.
  - by apply add_disabled_admissible.
  - by apply add_macro_admissible.
  - by apply add_doc_admissible.
  - by apply add_patch_admissible.
  - by apply (sanitized_update_admissible fuel sf (mkPass (result e) old (store e))).
Qed.

Lemma operations_keep_files_consistent_witness :
  let n := mkNode "model.p.a" "models/a.sql" "select 1" in
  let fa := mkSourceFile (FilePath "models/a.sql") "H1" (Some "/p/models/a.sql")
              [] [] [] [] [] in
  let e := mkEnv (mkParseResult "" "" ∅ ∅ ∅ ∅ ∅ ∅ ∅ ∅ "") {[ 0 := fa ]} in
  files_consistent (after (AddNode 0 n) e) ∧
  store (after (AddNode 0 n) e) !! 0 = Some (nodes_append "model.p.a" fa).
Proof.
  intros n fa e. split; [|vm_compute; reflexivity].
  apply (operations_keep_files_consistent (AddNode 0 n) e fa).
  - apply (bool_decide_unpack _). vm_compute. reflexivity.
  - reflexivity.
  - apply (bool_decide_unpack _). vm_compute. reflexivity.
Defined.

(** C9 as stated fails: [get_file] stores the record it is given as it
    is.  A record that lists a node id which the registry does not have
    becomes a tracked record, and the invariant no longer holds. *)
Lemma get_file_tracks_unregistered_ids :
  let fa := mkSourceFile (FilePath "models/a.sql") "H1" (Some "/p/models/a.sql")
              ["model.p.a"] [] [] [] [] in
  let e := mkEnv (mkParseResult "" "" ∅ ∅ ∅ ∅ ∅ ∅ ∅ ∅ "") {[ 0 := fa ]} in
  files_consistent e ∧
  fst (get_file 0 e) = Ok 0 ∧
  ¬ files_consistent (after (GetFile 0) e).
Proof.
  intros fa e. split; [|split].
  - apply (bool_decide_unpack _). vm_compute. reflexivity.
  - vm_compute. reflexivity.
  - intros H. apply (bool_decide_pack _) in H. vm_compute in H. exact H.
Qed.

(** ** Calls on the new registry *)

Lemma same_file_target r sf f f' :
  same_file f f' → target r sf f' = target r sf f ∧ track sf f' r = track sf f r.
Proof. intros (_ & _ & Hk). unfold target, track. by rewrite Hk. Qed.

Lemma target_call_result c r sf f :
  target (call_result c r) sf f = target r sf f.
Proof. by destruct c. Qed.

Lemma same_file_call_append c f : same_file f (call_append c f).
Proof. destruct c; apply same_file_append. Qed.

Lemma alter_present (h : gmap loc SourceFile) t ft g :
  h !! t = Some ft → alter g t h = <[t := g ft]> h.
Proof.
  intros Ht. apply map_eq. intros l. destruct (decide (t = l)) as [<-|Hne].
  - by rewrite lookup_alter_eq, lookup_insert_eq, Ht.
  - by rewrite lookup_alter_ne, lookup_insert_ne by done.
Qed.

(** A call either returns, with the state [apply_call] describes, or fails
    its duplicate check and leaves the state as it was. *)
Lemma call_run sf f0 t e c :
  reached sf f0 t e →
  (call_fresh c (result e) ∧
   call sf c e = (Ok tt, apply_call sf f0 e c) ∧
   reached sf f0 t (apply_call sf f0 e c)) ∨
  (¬ call_fresh c (result e) ∧
   ∃ exn, call sf c e = (Raise exn, e) ∧ is_duplicate_error exn).
Proof.
  intros ((f & Hf & Hsame) & Ht & [ft Hft]).
  assert (Htg : target (result e) sf f = target (result e) sf f0)
    by apply (same_file_target _ sf f0 f Hsame).
  assert (Htr : ∀ r, track sf f r = track sf f0 r)
    by (intros r; apply (same_file_target r sf f0 f Hsame)).
  assert (Hft' : store e !! target (result e) sf f = Some ft) by congruence.
  assert (Hreached : call_fresh c (result e) →
            call sf c e = (Ok tt, apply_call sf f0 e c) →
            reached sf f0 t (apply_call sf f0 e c)).
  { intros _ _. unfold apply_call, reached. simpl.
    rewrite target_track, target_call_result, Ht. repeat split.
    - destruct (mutate_lookup (store e) t ft (call_append c) sf f Hft
                  (same_file_call_append c ft) Hf) as (f' & Hf' & Hsame').
      exists f'. split; [|by eapply same_file_trans].
      by rewrite (alter_present _ t ft).
    - rewrite lookup_alter_eq, Hft. by eexists. }
  assert (Halter : ∀ g,
            <[target (result e) sf f := g ft]> (store e)
            = alter g (target (result e) sf f0) (store e)).
  { intros g. rewrite Htg, Ht. symmetry. by apply alter_present. }
  destruct c as [d|m|s|n|n|p]; simpl.
  - left. assert (Hrun : call sf (CallDoc d) e = (Ok (), apply_call sf f0 e (CallDoc d))).
    { simpl. rewrite (add_doc_run e sf f ft d Hf Hft'). unfold apply_call.
      simpl. by rewrite Htr, Halter. }
    split; [done|]. split; [done|]. by apply Hreached.
  - left. assert (Hrun : call sf (CallMacro m) e = (Ok (), apply_call sf f0 e (CallMacro m))).
    { simpl. rewrite (add_macro_run e sf f ft m Hf Hft'). unfold apply_call.
      simpl. by rewrite Htr, Halter. }
    split; [done|]. split; [done|]. by apply Hreached.
  - destruct (r_sources (result e) !! source_unique_id s) as [existing|] eqn:Hd.
    + right. split; [done|]. eexists. split; [by apply add_source_dup|done].
    + left. assert (Hrun : call sf (CallSource s) e = (Ok (), apply_call sf f0 e (CallSource s))).
      { simpl. rewrite (add_source_run e sf f ft s Hd Hf Hft'). unfold apply_call.
        simpl. by rewrite Htr, Halter. }
      split; [done|]. split; [done|]. by apply Hreached.
  - destruct (r_nodes (result e) !! node_unique_id n) as [existing|] eqn:Hd.
    + right. split; [done|]. eexists. split; [by apply add_node_dup|done].
    + left. assert (Hrun : call sf (CallNode n) e = (Ok (), apply_call sf f0 e (CallNode n))).
      { simpl. rewrite (add_node_run e sf f ft n Hd Hf Hft'). unfold apply_call.
        simpl. by rewrite Htr, Halter. }
      split; [done|]. split; [done|]. by apply Hreached.
  - left. assert (Hrun : call sf (CallDisabled n) e = (Ok (), apply_call sf f0 e (CallDisabled n))).
    { simpl. rewrite (add_disabled_run e sf f ft n Hf Hft'). unfold apply_call.
      simpl. by rewrite Htr, Halter. }
    split; [done|]. split; [done|]. by apply Hreached.
  - destruct (r_patches (result e) !! name p) as [existing|] eqn:Hd.
    + right. split; [done|]. eexists. split; [by apply add_patch_dup|done].
    + left. assert (Hrun : call sf (CallPatch p) e = (Ok (), apply_call sf f0 e (CallPatch p))).
      { simpl. rewrite (add_patch_run e sf f ft p Hd Hf Hft'). unfold apply_call.
        simpl. by rewrite Htr, Halter. }
      split; [done|]. split; [done|]. by apply Hreached.
Qed.

Lemma calls_run sf f0 t cs e :
  reached sf f0 t e → calls_fresh sf f0 cs e →
  for_each (call sf) cs e = (Ok tt, foldl (apply_call sf f0) e cs) ∧
  reached sf f0 t (foldl (apply_call sf f0) e cs).
Proof.
  revert e. induction cs as [|c cs IH]; intros e Hr Hfresh; simpl.
  - done.
  - destruct Hfresh as [Hc Hcs].
    destruct (call_run sf f0 t e c Hr) as [(_ & Hrun & Hr')|[Hn _]]; [|done].
    unfold bind. rewrite Hrun. by apply IH.
Qed.

(** ** Loops over a record that the body leaves alone *)

Lemma bind_on {St A B} (P : St → Prop) (m m' : M St A) (k k' : A → M St B) s :
  P s → m s = m' s → preserves P m' →
  (∀ a s', P s' → k a s' = k' a s') →
  bind m k s = bind m' k' s.
Proof.
  intros Hs Hm Hpres Hk. unfold bind. rewrite Hm.
  specialize (Hpres s Hs). destruct (m' s) as [[a|e| |] s']; try done.
  by apply Hk.
Qed.

(** When the list read from the store is the same at every step, the loop
    by index is the loop over that list, as soon as the fuel exceeds what
    is left of it. *)
Lemma for_in_stable {St A} (P : St → Prop) (live : St → option (list A))
    (body : A → M St unit) xs fuel i s :
  (∀ s, P s → live s = Some xs) → (∀ x, preserves P (body x)) →
  P s → length xs - i < fuel →
  for_in fuel live body i s = for_each body (drop i xs) s.
Proof.
  intros Hlive Hbody. revert i s.
  induction fuel as [|fuel IH]; intros i s Hs Hlen; [lia|]. simpl.
  rewrite (Hlive s Hs). destruct (xs !! i) as [x|] eqn:Hx.
  - rewrite (drop_S _ _ _ Hx). simpl.
    apply (bind_on P); [done|done|apply Hbody|].
    intros _ s' Hs'. apply IH; [done|].
    apply lookup_lt_Some in Hx. lia.
  - apply lookup_ge_None in Hx. by rewrite drop_ge.
Qed.

Lemma for_in_stable0 {St A} (P : St → Prop) (live : St → option (list A))
    (body : A → M St unit) xs fuel s :
  (∀ s, P s → live s = Some xs) → (∀ x, preserves P (body x)) →
  P s → length xs < fuel →
  for_in fuel live body 0 s = for_each body xs s.
Proof.
  intros Hlive Hbody Hs Hlen.
  rewrite (for_in_stable P live body xs) by (done || lia). done.
Qed.

Lemma on_self_call_inv sf f0 t lo fo old c :
  preserves (reuse_inv sf f0 t lo fo old) (on_self (call sf c)).
Proof.
  intros p (Hold & Hlo & Hne & Hr). unfold on_self.
  destruct (call_run sf f0 t _ c Hr) as [(_ & Hrun & Hr')|(_ & exn & Hrun & _)];
    rewrite Hrun; unfold reuse_inv; simpl.
  - split; [done|]. split; [|split; [done|]].
    + destruct Hr as (_ & Ht & _). simpl in Ht. rewrite Ht.
      by rewrite lookup_alter_ne.
    + exact Hr'.
  - done.
Qed.

Lemma reuse_bodies_inv sf f0 t lo fo old id :
  let P := reuse_inv sf f0 t lo fo old in
  preserves P (reuse_doc sf id) ∧ preserves P (reuse_macro sf id) ∧
  preserves P (reuse_source sf id) ∧ preserves P (reuse_node sf id) ∧
  preserves P (reuse_patch sf id).
Proof.
  intros P. unfold reuse_doc, reuse_macro, reuse_source, reuse_node, reuse_patch.
  split; [|split; [|split; [|split]]].
  - apply preserves_bind; [apply preserves_gets|intros src].
    apply preserves_bind; [apply preserves_expect_value|intros d].
    apply (on_self_call_inv sf f0 t lo fo old (CallDoc d)).
  - apply preserves_bind; [apply preserves_gets|intros src].
    apply preserves_bind; [apply preserves_expect_value|intros m].
    apply (on_self_call_inv sf f0 t lo fo old (CallMacro m)).
  - apply preserves_bind; [apply preserves_gets|intros src].
    apply preserves_bind; [apply preserves_expect_value|intros s].
    apply (on_self_call_inv sf f0 t lo fo old (CallSource s)).
  - apply preserves_bind; [apply preserves_gets|intros r].
    destruct (r_nodes r !! id) as [n|].
    { apply (on_self_call_inv sf f0 t lo fo old (CallNode n)). }
    destruct (disabled r !! id) as [ns|]; [|apply preserves_raise].
    apply preserves_bind; [apply preserves_on_old_get_disabled|intros matches].
    apply preserves_for_each. intros v.
    apply (on_self_call_inv sf f0 t lo fo old (CallDisabled v)).
  - apply preserves_bind; [apply preserves_gets|intros src].
    apply preserves_bind; [apply preserves_expect_value|intros pt].
    apply (on_self_call_inv sf f0 t lo fo old (CallPatch pt)).
Qed.

(** With a cacheable file whose old record [lo] is not the record that
    [self] returns for the file, [sanitized_update] iterates over lists
    that do not change: it is the reuse over a snapshot of the old record. *)
Lemma sanitized_update_snapshot fuel sf p f fo :
  objects p !! sf = Some f → isinstance_RemoteFile (path f) = false →
  objects p !! target (old_result p) sf f = Some fo →
  is_Some (objects p !! target (self p) sf f) →
  target (self p) sf f ≠ target (old_result p) sf f →
  length (docs fo) < fuel → length (macros fo) < fuel →
  length (sources fo) < fuel → length (nodes fo) < fuel →
  length (patches fo) < fuel →
  sanitized_update fuel sf p =
    reuse_snapshot sf fo (mkPass (self p) (track sf f (old_result p)) (objects p)) ∧
  reuse_inv sf f (target (self p) sf f) (target (old_result p) sf f) fo
    (track sf f (old_result p))
    (mkPass (self p) (track sf f (old_result p)) (objects p)).
Proof.
  intros Hf Hremote Hlo Ht Hne Ld Lm Ls Ln Lp.
  set (t := target (self p) sf f) in *.
  set (lo := target (old_result p) sf f) in *.
  set (P := reuse_inv sf f t lo fo (track sf f (old_result p))).
  assert (HP : P (mkPass (self p) (track sf f (old_result p)) (objects p))).
  { repeat split; simpl; try done. exists f. split; [done|apply same_file_refl]. }
  split; [|done].
  unfold sanitized_update, bind at 1, on_self, deref. simpl. rewrite Hf, Hremote.
  cbn [result store]. unfold bind at 1, on_old. cbn [old_result objects self].
  rewrite (get_file_run (mkEnv (old_result p) (objects p)) sf f Hf).
  cbn [result store on_result]. fold lo. unfold reuse_snapshot.
  assert (Hlive : ∀ A (attr : SourceFile → list A) s,
            P s → live lo attr s = Some (attr fo)).
  { intros A attr s (_ & Hs & _). unfold live. by rewrite Hs. }
  repeat (apply (bind_on P);
          [done
          |apply (for_in_stable0 P);
           [by apply Hlive|intros id; apply reuse_bodies_inv|done|lia]
          |apply preserves_for_each; intros id; apply reuse_bodies_inv
          |intros _ ? ?]).
  done.
Qed.

(** ** Files that are not reused *)

(** C2, amended.  For a file whose path is a [RemoteFile],
    [sanitized_update] returns false at once: both registries and every
    file record are as before. *)
Theorem remote_file_not_reused (fuel : nat) (sf : loc) (p : Pass) (f : SourceFile) :
  objects p !! sf = Some f → isinstance_RemoteFile (path f) = true →
  sanitized_update fuel sf p = (Ok false, p).
Proof.
  intros Hf Hremote. destruct p as [new old h]. simpl in Hf.
  unfold sanitized_update, bind, on_self, deref. simpl.
  by rewrite Hf, Hremote.
Qed.

Lemma remote_file_not_reused_witness :
  let rpc := mkSourceFile (RemoteFile "from remote system") "" None
               ["rpc.p.request"] [] [] [] [] in
  let n := mkNode "rpc.p.request" "from remote system" "select 1" in
  let old := mkParseResult "" "" ∅ {[ "rpc.p.request" := n ]} ∅ ∅ ∅ ∅ ∅ ∅ "" in
  let p := mkPass (mkParseResult "" "" ∅ ∅ ∅ ∅ ∅ ∅ ∅ ∅ "") old {[ 0 := rpc ]} in
  sanitized_update 5 0 p = (Ok false, p).
Proof.
  intros rpc n old p.
  apply (remote_file_not_reused 5 0 p rpc); reflexivity.
Defined.

(** C2 as stated fails: a file without search key whose path is not a
    [RemoteFile] passes the guard.  With nothing recorded for it the reuse
    returns true instead of false. *)
Lemma keyless_file_is_reused :
  let synthetic := mkSourceFile (FilePath "generated/hooks.sql") "" None
                     [] [] [] [] [] in
  let empty := mkParseResult "" "" ∅ ∅ ∅ ∅ ∅ ∅ ∅ ∅ "" in
  let p := mkPass empty empty {[ 0 := synthetic ]} in
  search_key synthetic = None ∧
  sanitized_update 1 0 p = (Ok true, p).
Proof. intros synthetic empty p. split; vm_compute; reflexivity. Qed.

(** ** The consistency guard *)

Lemma bind_fails {St A B} (m : M St A) (k : A → M St B) s :
  fails (fst (m s)) → fails (fst (bind m k s)).
Proof.
  intros (exn & Hm & Hexn). unfold bind.
  destruct (m s) as [o s']. simpl in Hm. subst o. by exists exn.
Qed.

Lemma bind_settled {St A B} (P : St → Prop) (m : M St A) (k : A → M St B) s :
  P s → preserves P m → settled (fst (m s)) →
  (∀ a s', P s' → settled (fst (k a s'))) →
  settled (fst (bind m k s)).
Proof.
  intros Hs Hpres [[a Hm]|Hm] Hk; [|right; by apply bind_fails].
  unfold bind. specialize (Hpres s Hs).
  destruct (m s) as [o s']. simpl in *. subst o. by apply Hk.
Qed.

Lemma bind_then_fails {St A B} (P : St → Prop) (m : M St A) (k : A → M St B) s :
  P s → preserves P m → settled (fst (m s)) →
  (∀ a s', P s' → fails (fst (k a s'))) →
  fails (fst (bind m k s)).
Proof.
  intros Hs Hpres [[a Hm]|Hm] Hk; [|by apply bind_fails].
  unfold bind. specialize (Hpres s Hs).
  destruct (m s) as [o s']. simpl in *. subst o. by apply Hk.
Qed.

Lemma for_each_settled {St A} (P : St → Prop) (body : A → M St unit) xs s :
  (∀ x, preserves P (body x)) → (∀ x s, P s → settled (fst (body x s))) →
  P s → settled (fst (for_each body xs s)).
Proof.
  intros Hpres Hbody. revert s. induction xs as [|x xs IH]; intros s Hs; simpl.
  - left. by exists tt.
  - apply (bind_settled P); auto.
Qed.

Lemma for_each_fails {St A} (P : St → Prop) (bad : A → Prop)
    (body : A → M St unit) xs s :
  (∀ x, preserves P (body x)) → (∀ x s, P s → settled (fst (body x s))) →
  (∀ x s, P s → bad x → fails (fst (body x s))) →
  P s → Exists bad xs → fails (fst (for_each body xs s)).
Proof.
  intros Hpres Hbody Hbad Hs Hex. revert s Hs.
  induction Hex as [x xs Hx|x xs Hex IH]; intros s Hs; simpl.
  - apply bind_fails. by apply Hbad.
  - apply (bind_then_fails P); auto.
Qed.

Lemma on_self_call_settled sf f0 t lo fo old c p :
  reuse_inv sf f0 t lo fo old p → settled (fst (on_self (call sf c) p)).
Proof.
  intros (_ & _ & _ & Hr). unfold on_self.
  destruct (call_run sf f0 t _ c Hr) as [(_ & Hrun & _)|(_ & exn & Hrun & Hexn)];
    rewrite Hrun; simpl.
  - left. by exists tt.
  - right. exists exn. auto.
Qed.

(** At an entry without artifact each loop body raises the consistency
    error, whatever the state, and changes nothing. *)
Lemma reuse_missing sf id p :
  (r_docs (old_result p) !! id = None →
     reuse_doc sf id p = (Raise (CompilationException id "docs"), p)) ∧
  (r_macros (old_result p) !! id = None →
     reuse_macro sf id p = (Raise (CompilationException id "macros"), p)) ∧
  (r_sources (old_result p) !! id = None →
     reuse_source sf id p = (Raise (CompilationException id "sources"), p)) ∧
  (r_nodes (old_result p) !! id = None → disabled (old_result p) !! id = None →
     reuse_node sf id p =
       (Raise (CompilationException id "manifest.nodes/manifest.disabled"), p)) ∧
  (r_patches (old_result p) !! id = None →
     reuse_patch sf id p = (Raise (CompilationException id "patches"), p)).
Proof.
  unfold reuse_doc, reuse_macro, reuse_source, reuse_node, reuse_patch,
    _expect_value, bind, gets, raise. simpl.
  repeat split; intros; by repeat match goal with H : _ !! _ = None |- _ =>
                                    rewrite H; clear H end.
Qed.

Lemma reuse_bodies_settled sf f0 t lo fo old id p :
  reuse_inv sf f0 t lo fo old p →
  settled (fst (reuse_doc sf id p)) ∧ settled (fst (reuse_macro sf id p)) ∧
  settled (fst (reuse_source sf id p)) ∧ settled (fst (reuse_node sf id p)) ∧
  settled (fst (reuse_patch sf id p)).
Proof.
  intros HP.
  assert (Hmiss : ∀ key tbl,
    settled (fst (@raise Pass unit (CompilationException key tbl) p))).
  { intros key tbl. right. eexists. split; [done|]. by left. }
  destruct (reuse_missing sf id p) as (Hd & Hm & Hs & Hn & Hp).
  split; [|split; [|split; [|split]]].
  - destruct (r_docs (old_result p) !! id) as [d|] eqn:E;
      [|rewrite Hd by done; apply Hmiss].
    unfold reuse_doc, bind at 1, gets. cbn [fst snd]. unfold _expect_value.
    rewrite E. apply (on_self_call_settled sf f0 t lo fo old (CallDoc d) p HP).
  - destruct (r_macros (old_result p) !! id) as [m|] eqn:E;
      [|rewrite Hm by done; apply Hmiss].
    unfold reuse_macro, bind at 1, gets. cbn [fst snd]. unfold _expect_value.
    rewrite E. apply (on_self_call_settled sf f0 t lo fo old (CallMacro m) p HP).
  - destruct (r_sources (old_result p) !! id) as [s|] eqn:E;
      [|rewrite Hs by done; apply Hmiss].
    unfold reuse_source, bind at 1, gets. cbn [fst snd]. unfold _expect_value.
    rewrite E. apply (on_self_call_settled sf f0 t lo fo old (CallSource s) p HP).
  - unfold reuse_node, bind at 1, gets. cbn [fst snd].
    destruct (r_nodes (old_result p) !! id) as [n|] eqn:E.
    { apply (on_self_call_settled sf f0 t lo fo old (CallNode n) p HP). }
    destruct (disabled (old_result p) !! id) as [ns|] eqn:E'; [|apply Hmiss].
    apply (bind_settled (reuse_inv sf f0 t lo fo old)); [done| | |].
    + apply preserves_on_old_get_disabled.
    + destruct HP as (_ & _ & _ & (f & Hf & _) & _). simpl in Hf.
      unfold on_old.
      rewrite (_get_disabled_run (mkEnv (old_result p) (objects p)) id sf f ns)
        by done.
      left. by eexists.
    + intros matches p' HP'.
      apply (for_each_settled (reuse_inv sf f0 t lo fo old)); [|  |done].
      * intros v. apply (on_self_call_inv sf f0 t lo fo old (CallDisabled v)).
      * intros v p'' HP''.
        apply (on_self_call_settled sf f0 t lo fo old (CallDisabled v) p'' HP'').
  - destruct (r_patches (old_result p) !! id) as [pt|] eqn:E;
      [|rewrite Hp by done; apply Hmiss].
    unfold reuse_patch, bind at 1, gets. cbn [fst snd]. unfold _expect_value.
    rewrite E. apply (on_self_call_settled sf f0 t lo fo old (CallPatch pt) p HP).
Qed.

Lemma consistency_error_fails {St A} key tbl (s : St) :
  fails (fst (@raise St A (CompilationException key tbl) s)).
Proof. eexists. split; [done|]. by left. Qed.

Lemma reuse_snapshot_fails sf f0 t lo fo old p :
  reuse_inv sf f0 t lo fo old p → missing_entry old fo →
  fails (fst (reuse_snapshot sf fo p)) ∧ settled (fst (reuse_snapshot sf fo p)).
Proof.
  set (P := reuse_inv sf f0 t lo fo old). intros HP Hmiss.
  assert (Hold : ∀ s, P s → old_result s = old) by (by intros s [? _]).
  assert (Hpres : ∀ id,
    preserves P (reuse_doc sf id) ∧ preserves P (reuse_macro sf id) ∧
    preserves P (reuse_source sf id) ∧ preserves P (reuse_node sf id) ∧
    preserves P (reuse_patch sf id)) by (intros id; apply reuse_bodies_inv).
  assert (Hset : ∀ id s, P s →
    settled (fst (reuse_doc sf id s)) ∧ settled (fst (reuse_macro sf id s)) ∧
    settled (fst (reuse_source sf id s)) ∧ settled (fst (reuse_node sf id s)) ∧
    settled (fst (reuse_patch sf id s)))
    by (intros id s Hs; by apply (reuse_bodies_settled sf f0 t lo fo old)).
  assert (Hfails : fails (fst (reuse_snapshot sf fo p))); [|split; [done|by right]].
  unfold reuse_snapshot.
  destruct Hmiss as [Hex|[Hex|[Hex|[Hex|Hex]]]].
  - apply bind_fails.
    apply (for_each_fails P (λ id, r_docs old !! id = None));
      [intros id; apply Hpres|intros id s Hs; by apply Hset| |done|done].
    intros id s Hs Hbad. rewrite <- (Hold s Hs) in Hbad.
    destruct (reuse_missing sf id s) as (H1 & H2 & H3 & H4 & H5).
    rewrite H1 by done.
    apply consistency_error_fails.
  - apply (bind_then_fails P); [done| | |intros _ p1 HP1].
    { apply preserves_for_each. intros id. apply Hpres. }
    { apply (for_each_settled P); [intros id; apply Hpres| |done].
      intros id s Hs. by apply Hset. }
    apply bind_fails.
    apply (for_each_fails P (λ id, r_macros old !! id = None));
      [intros id; apply Hpres|intros id s Hs; by apply Hset| |done|done].
    intros id s Hs Hbad. rewrite <- (Hold s Hs) in Hbad.
    destruct (reuse_missing sf id s) as (H1 & H2 & H3 & H4 & H5).
    rewrite H2 by done.
    apply consistency_error_fails.
  - apply (bind_then_fails P); [done| | |intros _ p1 HP1].
    { apply preserves_for_each. intros id. apply Hpres. }
    { apply (for_each_settled P); [intros id; apply Hpres| |done].
      intros id s Hs. by apply Hset. }
    apply (bind_then_fails P); [done| | |intros _ p2 HP2].
    { apply preserves_for_each. intros id. apply Hpres. }
    { apply (for_each_settled P); [intros id; apply Hpres| |done].
      intros id s Hs. by apply Hset. }
    apply bind_fails.
    apply (for_each_fails P (λ id, r_sources old !! id = None));
      [intros id; apply Hpres|intros id s Hs; by apply Hset| |done|done].
    intros id s Hs Hbad. rewrite <- (Hold s Hs) in Hbad.
    destruct (reuse_missing sf id s) as (H1 & H2 & H3 & H4 & H5).
    rewrite H3 by done.
    apply consistency_error_fails.
  - apply (bind_then_fails P); [done| | |intros _ p1 HP1].
    { apply preserves_for_each. intros id. apply Hpres. }
    { apply (for_each_settled P); [intros id; apply Hpres| |done].
      intros id s Hs. by apply Hset. }
    apply (bind_then_fails P); [done| | |intros _ p2 HP2].
    { apply preserves_for_each. intros id. apply Hpres. }
    { apply (for_each_settled P); [intros id; apply Hpres| |done].
      intros id s Hs. by apply Hset. }
    apply (bind_then_fails P); [done| | |intros _ p3 HP3].
    { apply preserves_for_each. intros id. apply Hpres. }
    { apply (for_each_settled P); [intros id; apply Hpres| |done].
      intros id s Hs. by apply Hset. }
    apply bind_fails.
    apply (for_each_fails P
             (λ id, r_nodes old !! id = None ∧ disabled old !! id = None));
      [intros id; apply Hpres|intros id s Hs; by apply Hset| |done|done].
    intros id s Hs Hbad. rewrite <- (Hold s Hs) in Hbad.
    destruct (reuse_missing sf id s) as (H1 & H2 & H3 & H4 & H5).
    rewrite H4 by tauto.
    apply consistency_error_fails.
  - apply (bind_then_fails P); [done| | |intros _ p1 HP1].
    { apply preserves_for_each. intros id. apply Hpres. }
    { apply (for_each_settled P); [intros id; apply Hpres| |done].
      intros id s Hs. by apply Hset. }
    apply (bind_then_fails P); [done| | |intros _ p2 HP2].
    { apply preserves_for_each. intros id. apply Hpres. }
    { apply (for_each_settled P); [intros id; apply Hpres| |done].
      intros id s Hs. by apply Hset. }
    apply (bind_then_fails P); [done| | |intros _ p3 HP3].
    { apply preserves_for_each. intros id. apply Hpres. }
    { apply (for_each_settled P); [intros id; apply Hpres| |done].
      intros id s Hs. by apply Hset. }
    apply (bind_then_fails P); [done| | |intros _ p4 HP4].
    { apply preserves_for_each. intros id. apply Hpres. }
    { apply (for_each_settled P); [intros id; apply Hpres| |done].
      intros id s Hs. by apply Hset. }
    apply bind_fails.
    apply (for_each_fails P (λ id, r_patches old !! id = None));
      [intros id; apply Hpres|intros id s Hs; by apply Hset| |done|done].
    intros id s Hs Hbad. rewrite <- (Hold s Hs) in Hbad.
    destruct (reuse_missing sf id s) as (H1 & H2 & H3 & H4 & H5).
    rewrite H5 by done.
    apply consistency_error_fails.
Qed.

Lemma fuel_for_enough (fo : SourceFile) (fuel : nat) :
  (fuel_for fo ≤ fuel)%nat →
  length (docs fo) < fuel ∧ length (macros fo) < fuel ∧
  length (sources fo) < fuel ∧ length (nodes fo) < fuel ∧
  length (patches fo) < fuel.
Proof. unfold fuel_for. lia. Qed.

Lemma missing_entry_track sf f old fo :
  missing_entry (track sf f old) fo ↔ missing_entry old fo.
Proof.
  unfold track. destruct (search_key f); [|done].
  by destruct (files old !! _).
Qed.

Lemma for_in_raises {St A} fuel (live : St → option (list A))
    (body : A → M St unit) xs i x s exn s' :
  live s = Some xs → xs !! i = Some x → body x s = (Raise exn, s') →
  for_in (S fuel) live body i s = (Raise exn, s').
Proof. intros Hl Hx Hb. simpl. rewrite Hl, Hx. unfold bind. by rewrite Hb. Qed.

(** ** Reuse as the calls it makes *)

Lemma calls_fresh_app sf f cs1 cs2 e :
  calls_fresh sf f (cs1 ++ cs2) e ↔
  calls_fresh sf f cs1 e ∧ calls_fresh sf f cs2 (foldl (apply_call sf f) e cs1).
Proof.
  revert e. induction cs1 as [|c cs1 IH]; intros e; simpl; [tauto|].
  rewrite IH. tauto.
Qed.

Lemma pass_after_app sf f cs1 cs2 p :
  pass_after sf f (cs1 ++ cs2) p = pass_after sf f cs2 (pass_after sf f cs1 p).
Proof.
  unfold pass_after. rewrite foldl_app. simpl.
  by destruct (foldl (apply_call sf f) _ cs1).
Qed.

Lemma pass_after_cons sf f c cs p :
  pass_after sf f (c :: cs) p = pass_after sf f cs (pass_after sf f [c] p).
Proof. apply (pass_after_app sf f [c] cs). Qed.

Lemma pass_after_nil sf f p : pass_after sf f [] p = p.
Proof. by destruct p. Qed.

Lemma on_self_call_run sf f0 t lo fo old c p :
  reuse_inv sf f0 t lo fo old p →
  call_fresh c (self p) →
  on_self (call sf c) p = (Ok tt, pass_after sf f0 [c] p) ∧
  reuse_inv sf f0 t lo fo old (pass_after sf f0 [c] p).
Proof.
  intros HP Hfresh.
  pose proof (on_self_call_inv sf f0 t lo fo old c p HP) as HP'.
  destruct HP as (_ & _ & _ & Hr). unfold on_self in *.
  destruct (call_run sf f0 t _ c Hr) as [(_ & Hrun & _)|(Hn & _)]; [|done].
  rewrite Hrun in *. done.
Qed.

Lemma apply_call_target sf f e c :
  target (result (apply_call sf f e c)) sf f = target (result e) sf f.
Proof. unfold apply_call. simpl. by rewrite target_track, target_call_result. Qed.

Lemma foldl_apply_target sf f cs e :
  target (result (foldl (apply_call sf f) e cs)) sf f = target (result e) sf f.
Proof.
  revert e. induction cs as [|c cs IH]; intros e; simpl; [done|].
  by rewrite IH, apply_call_target.
Qed.

Lemma foldl_apply_store_ne sf f cs e l :
  l ≠ target (result e) sf f →
  store (foldl (apply_call sf f) e cs) !! l = store e !! l.
Proof.
  revert e. induction cs as [|c cs IH]; intros e Hne; simpl; [done|].
  rewrite IH by (by rewrite apply_call_target).
  simpl. by rewrite lookup_alter_ne.
Qed.

Lemma foldl_apply_store sf f cs e ft :
  store e !! target (result e) sf f = Some ft →
  store (foldl (apply_call sf f) e cs) !! target (result e) sf f
  = Some (foldl (λ x c, call_append c x) ft cs).
Proof.
  revert e ft. induction cs as [|c cs IH]; intros e ft Ht; simpl; [done|].
  rewrite <- (apply_call_target sf f e c). apply IH.
  rewrite apply_call_target. simpl. by rewrite lookup_alter_eq, Ht.
Qed.

Lemma pass_after_inv sf f0 t lo fo old cs p :
  reuse_inv sf f0 t lo fo old p →
  calls_fresh sf f0 cs (mkEnv (self p) (objects p)) →
  on_self (for_each (call sf) cs) p = (Ok tt, pass_after sf f0 cs p) ∧
  reuse_inv sf f0 t lo fo old (pass_after sf f0 cs p).
Proof.
  intros (Hold & Hlo & Hne & Hr) Hfresh.
  destruct (calls_run sf f0 t cs _ Hr Hfresh) as [Hrun Hr'].
  unfold on_self. rewrite Hrun. split; [done|].
  unfold pass_after, reuse_inv. simpl. split; [done|]. split; [|split; [done|]].
  - rewrite foldl_apply_store_ne; [done|].
    destruct Hr as (_ & Ht & _). simpl in *. congruence.
  - by destruct (foldl (apply_call sf f0) _ cs).
Qed.

Lemma reuse_loop_run sf f0 t lo fo old (body : string → M Pass unit)
    (calls : string → list Call) ids p :
  (∀ id q, id ∈ ids → reuse_inv sf f0 t lo fo old q →
     calls_fresh sf f0 (calls id) (mkEnv (self q) (objects q)) →
     body id q = (Ok tt, pass_after sf f0 (calls id) q)) →
  reuse_inv sf f0 t lo fo old p →
  calls_fresh sf f0 (ids ≫= calls) (mkEnv (self p) (objects p)) →
  for_each body ids p = (Ok tt, pass_after sf f0 (ids ≫= calls) p) ∧
  reuse_inv sf f0 t lo fo old (pass_after sf f0 (ids ≫= calls) p).
Proof.
  revert p. induction ids as [|id ids IH]; intros p Hbody HP Hfresh.
  - simpl. rewrite pass_after_nil. done.
  - change ((id :: ids) ≫= calls) with (calls id ++ (ids ≫= calls)) in *.
    apply calls_fresh_app in Hfresh as [Hfresh1 Hfresh2].
    destruct (pass_after_inv sf f0 t lo fo old (calls id) p HP Hfresh1)
      as [_ HP1].
    cbn [for_each]. unfold bind.
    rewrite (Hbody id p) by (done || by left).
    rewrite pass_after_app. apply IH; [|done|].
    + intros id' q Hin. apply Hbody. by right.
    + unfold pass_after at 1. simpl.
      by destruct (foldl (apply_call sf f0) _ (calls id)).
Qed.

Lemma for_each_disabled_run sf f0 t lo fo old vs p :
  reuse_inv sf f0 t lo fo old p →
  for_each (λ v, on_self (add_disabled sf v)) vs p
  = (Ok tt, pass_after sf f0 (CallDisabled <$> vs) p).
Proof.
  revert p. induction vs as [|v vs IH]; intros p HP.
  - simpl. by rewrite pass_after_nil.
  - destruct (on_self_call_run sf f0 t lo fo old (CallDisabled v) p HP I)
      as [Hrun HP'].
    cbn [for_each]. unfold bind. simpl in Hrun. rewrite Hrun.
    rewrite fmap_cons, pass_after_cons. by apply IH.
Qed.

(** One entry with its artifact in the old registry: the body makes the
    calls for the entry. *)
Lemma reuse_bodies_run sf f0 t lo fo old id p :
  reuse_inv sf f0 t lo fo old p →
  (is_Some (r_docs old !! id) →
     reuse_doc sf id p = (Ok tt, pass_after sf f0 (doc_calls old id) p)) ∧
  (is_Some (r_macros old !! id) →
     reuse_macro sf id p = (Ok tt, pass_after sf f0 (macro_calls old id) p)) ∧
  (is_Some (r_sources old !! id) →
     calls_fresh sf f0 (source_calls old id) (mkEnv (self p) (objects p)) →
     reuse_source sf id p = (Ok tt, pass_after sf f0 (source_calls old id) p)) ∧
  (is_Some (r_nodes old !! id) ∨ is_Some (disabled old !! id) →
     calls_fresh sf f0 (node_calls old f0 id) (mkEnv (self p) (objects p)) →
     reuse_node sf id p = (Ok tt, pass_after sf f0 (node_calls old f0 id) p)) ∧
  (is_Some (r_patches old !! id) →
     calls_fresh sf f0 (patch_calls old id) (mkEnv (self p) (objects p)) →
     reuse_patch sf id p = (Ok tt, pass_after sf f0 (patch_calls old id) p)).
Proof.
  intros HP. pose proof HP as (Hold & Hlo & Hne & (f & Hf & Hsame) & _).
  unfold reuse_doc, reuse_macro, reuse_source, reuse_node, reuse_patch,
    doc_calls, macro_calls, source_calls, node_calls, patch_calls.
  unfold bind at 1 3 5 7 9, gets. cbn [fst snd]. rewrite Hold.
  split; [|split; [|split; [|split]]].
  - intros [d Hd]. unfold _expect_value, bind, ret. rewrite Hd.
    apply (on_self_call_run sf f0 t lo fo old (CallDoc d) p HP I).
  - intros [m Hm]. unfold _expect_value, bind, ret. rewrite Hm.
    apply (on_self_call_run sf f0 t lo fo old (CallMacro m) p HP I).
  - intros [s Hs]. unfold _expect_value, bind, ret. rewrite Hs.
    intros [Hfresh _].
    apply (on_self_call_run sf f0 t lo fo old (CallSource s) p HP Hfresh).
  - intros Hpresent. destruct (r_nodes old !! id) as [n|] eqn:Hn.
    { intros [Hfresh _].
      apply (on_self_call_run sf f0 t lo fo old (CallNode n) p HP Hfresh). }
    destruct Hpresent as [[? ?]|[vs Hvs]]; [done|]. rewrite Hvs. intros _.
    unfold bind, on_old.
    rewrite (_get_disabled_run (mkEnv (old_result p) (objects p)) id sf f vs)
      by (simpl in *; rewrite ?Hold; done).
    destruct Hsame as (-> & _). destruct p as [new old' h]. simpl in *.
    by apply (for_each_disabled_run sf f0 t lo fo old).
  - intros [pt Hpt]. unfold _expect_value, bind, ret. rewrite Hpt.
    intros [Hfresh _].
    apply (on_self_call_run sf f0 t lo fo old (CallPatch pt) p HP Hfresh).
Qed.

(** The old record has no entry without artifact. *)
Lemma reuse_snapshot_run sf f0 t lo fo old p :
  reuse_inv sf f0 t lo fo old p →
  Forall (λ id, is_Some (r_docs old !! id)) (docs fo) →
  Forall (λ id, is_Some (r_macros old !! id)) (macros fo) →
  Forall (λ id, is_Some (r_sources old !! id)) (sources fo) →
  Forall (λ id, is_Some (r_nodes old !! id) ∨ is_Some (disabled old !! id))
    (nodes fo) →
  Forall (λ nm, is_Some (r_patches old !! nm)) (patches fo) →
  calls_fresh sf f0 (calls_of old f0 fo) (mkEnv (self p) (objects p)) →
  reuse_snapshot sf fo p = (Ok true, pass_after sf f0 (calls_of old f0 fo) p).
Proof.
  intros HP Fd Fm Fs Fn Fp Hfresh. unfold calls_of in *.
  set (P := reuse_inv sf f0 t lo fo old) in *.
  assert (Henv : ∀ cs q, mkEnv (self (pass_after sf f0 cs q))
                           (objects (pass_after sf f0 cs q))
                         = foldl (apply_call sf f0) (mkEnv (self q) (objects q)) cs).
  { intros cs q. unfold pass_after. simpl. by destruct (foldl _ _ cs). }
  apply calls_fresh_app in Hfresh as [H1 Hfresh]. rewrite <- Henv in Hfresh.
  apply calls_fresh_app in Hfresh as [H2 Hfresh]. rewrite <- Henv in Hfresh.
  apply calls_fresh_app in Hfresh as [H3 Hfresh]. rewrite <- Henv in Hfresh.
  apply calls_fresh_app in Hfresh as [H4 H5]. rewrite <- Henv in H5.
  destruct (reuse_loop_run sf f0 t lo fo old (reuse_doc sf) (doc_calls old)
              (docs fo) p) as [R1 P1]; [|done|done|].
  { intros id q Hin Hq _.
    destruct (reuse_bodies_run sf f0 t lo fo old id q Hq) as (B1 & B2 & B3 & B4 & B5).
    apply B1. by apply (proj1 (Forall_forall _ _) Fd). }
  set (p1 := pass_after sf f0 (docs fo ≫= doc_calls old) p) in *.
  destruct (reuse_loop_run sf f0 t lo fo old (reuse_macro sf) (macro_calls old)
              (macros fo) p1) as [R2 P2]; [|exact P1|exact H2|].
  { intros id q Hin Hq _.
    destruct (reuse_bodies_run sf f0 t lo fo old id q Hq) as (B1 & B2 & B3 & B4 & B5).
    apply B2. by apply (proj1 (Forall_forall _ _) Fm). }
  set (p2 := pass_after sf f0 (macros fo ≫= macro_calls old) p1) in *.
  destruct (reuse_loop_run sf f0 t lo fo old (reuse_source sf) (source_calls old)
              (sources fo) p2) as [R3 P3]; [|exact P2|exact H3|].
  { intros id q Hin Hq Hfr.
    destruct (reuse_bodies_run sf f0 t lo fo old id q Hq) as (B1 & B2 & B3 & B4 & B5).
    apply B3; [|done]. by apply (proj1 (Forall_forall _ _) Fs). }
  set (p3 := pass_after sf f0 (sources fo ≫= source_calls old) p2) in *.
  destruct (reuse_loop_run sf f0 t lo fo old (reuse_node sf) (node_calls old f0)
              (nodes fo) p3) as [R4 P4]; [|exact P3|exact H4|].
  { intros id q Hin Hq Hfr.
    destruct (reuse_bodies_run sf f0 t lo fo old id q Hq) as (B1 & B2 & B3 & B4 & B5).
    apply B4; [|done]. by apply (proj1 (Forall_forall _ _) Fn). }
  set (p4 := pass_after sf f0 (nodes fo ≫= node_calls old f0) p3) in *.
  destruct (reuse_loop_run sf f0 t lo fo old (reuse_patch sf) (patch_calls old)
              (patches fo) p4) as [R5 P5]; [|exact P4|exact H5|].
  { intros id q Hin Hq Hfr.
    destruct (reuse_bodies_run sf f0 t lo fo old id q Hq) as (B1 & B2 & B3 & B4 & B5).
    apply B5; [|done]. by apply (proj1 (Forall_forall _ _) Fp). }
  unfold reuse_snapshot, bind, ret.
  rewrite R1, R2, R3, R4, R5. by rewrite !pass_after_app.
Qed.

(** ** The mappings after the calls *)

Lemma track_maps sf f r :
  r_nodes (track sf f r) = r_nodes r ∧ r_sources (track sf f r) = r_sources r ∧
  r_docs (track sf f r) = r_docs r ∧ r_macros (track sf f r) = r_macros r ∧
  r_patches (track sf f r) = r_patches r ∧ disabled (track sf f r) = disabled r.
Proof.
  unfold track. destruct (search_key f); [|done]. by destruct (files r !! _).
Qed.

Lemma apply_call_maps sf f e c :
  r_docs (result (apply_call sf f e c))
    = insert_sel sel_doc unique_id (r_docs (result e)) c ∧
  r_macros (result (apply_call sf f e c))
    = insert_sel sel_macro unique_id (r_macros (result e)) c ∧
  r_sources (result (apply_call sf f e c))
    = insert_sel sel_source unique_id (r_sources (result e)) c ∧
  r_nodes (result (apply_call sf f e c))
    = insert_sel sel_node unique_id (r_nodes (result e)) c ∧
  r_patches (result (apply_call sf f e c))
    = insert_sel sel_patch name (r_patches (result e)) c.
Proof.
  unfold apply_call. simpl.
  destruct (track_maps sf f (call_result c (result e)))
    as (-> & -> & -> & -> & -> & _).
  by destruct c.
Qed.

Lemma foldl_apply_maps sf f cs e :
  r_docs (result (foldl (apply_call sf f) e cs))
    = foldl (insert_sel sel_doc unique_id) (r_docs (result e)) cs ∧
  r_macros (result (foldl (apply_call sf f) e cs))
    = foldl (insert_sel sel_macro unique_id) (r_macros (result e)) cs ∧
  r_sources (result (foldl (apply_call sf f) e cs))
    = foldl (insert_sel sel_source unique_id) (r_sources (result e)) cs ∧
  r_nodes (result (foldl (apply_call sf f) e cs))
    = foldl (insert_sel sel_node unique_id) (r_nodes (result e)) cs ∧
  r_patches (result (foldl (apply_call sf f) e cs))
    = foldl (insert_sel sel_patch name) (r_patches (result e)) cs.
Proof.
  revert e. induction cs as [|c cs IH]; intros e; simpl; [done|].
  destruct (IH (apply_call sf f e c)) as (-> & -> & -> & -> & ->).
  by destruct (apply_call_maps sf f e c) as (-> & -> & -> & -> & ->).
Qed.

(** No call inserts under [id]: the entry of [id] is as before. *)
Lemma foldl_insert_sel_frame {A} (sel : Call → option A) (key : A → string)
    cs (m : gmap string A) id :
  (∀ c a, c ∈ cs → sel c = Some a → key a ≠ id) →
  foldl (insert_sel sel key) m cs !! id = m !! id.
Proof.
  revert m. induction cs as [|c cs IH]; intros m Hne; simpl; [done|].
  rewrite IH by (intros c' a' Hin; apply Hne; by right).
  unfold insert_sel. destruct (sel c) as [a|] eqn:Hsel; [|done].
  rewrite lookup_insert_ne; [done|]. apply (Hne c a); [by left|done].
Qed.

(** The calls that insert under [id] all insert [a]: the entry is [a]. *)
Lemma foldl_insert_sel_hit {A} (sel : Call → option A) (key : A → string)
    cs (m : gmap string A) id c a :
  c ∈ cs → sel c = Some a → key a = id →
  (∀ c' a', c' ∈ cs → sel c' = Some a' → key a' = id → a' = a) →
  foldl (insert_sel sel key) m cs !! id = Some a.
Proof.
  revert m. induction cs as [|c0 cs IH] using rev_ind; intros m Hin Hsel Hkey Hall.
  - by apply elem_of_nil in Hin.
  - rewrite foldl_app. simpl. unfold insert_sel at 1.
    destruct (sel c0) as [a0|] eqn:Hsel0.
    + destruct (decide (key a0 = id)) as [Hk|Hk].
      * rewrite Hk, lookup_insert_eq. f_equal.
        apply (Hall c0 a0); [|done|done]. apply elem_of_app. right. by left.
      * rewrite lookup_insert_ne by done. apply IH; try done.
        -- apply elem_of_app in Hin as [Hin|Hin%list_elem_of_singleton]; [done|].
           subst c0. congruence.
        -- intros c' a' Hin'. apply Hall. apply elem_of_app. by left.
    + apply IH; try done.
      * apply elem_of_app in Hin as [Hin|Hin%list_elem_of_singleton]; [done|].
        subst c0. congruence.
      * intros c' a' Hin'. apply Hall. apply elem_of_app. by left.
Qed.

(** The keys the calls insert under are new and pairwise distinct: every
    call passes its duplicate check. *)
Lemma calls_fresh_intro sf f cs e :
  NoDup (source_keys cs) →
  Forall (λ k, r_sources (result e) !! k = None) (source_keys cs) →
  NoDup (node_keys cs) →
  Forall (λ k, r_nodes (result e) !! k = None) (node_keys cs) →
  NoDup (patch_keys cs) →
  Forall (λ k, r_patches (result e) !! k = None) (patch_keys cs) →
  calls_fresh sf f cs e.
Proof.
  revert e. induction cs as [|c cs IH]; intros e Ns Fs Nn Fn Np Fp; [done|].
  assert (Hstep : ∀ A (m : gmap string A) (k : string) (a : A) ks,
            NoDup (k :: ks) → Forall (λ k', m !! k' = None) (k :: ks) →
            Forall (λ k', <[k := a]> m !! k' = None) ks).
  { intros A m k a ks Hnd Hall. apply NoDup_cons in Hnd as [Hk _].
    apply Forall_cons in Hall as [_ Hall].
    apply Forall_forall. intros k' Hin.
    rewrite lookup_insert_ne by (intros ->; done).
    by apply (proj1 (Forall_forall _ _) Hall). }
  destruct (apply_call_maps sf f e c) as (_ & _ & Es & En & Ep).
  split.
  - destruct c; simpl in *; try done.
    + by apply Forall_cons in Fs as [? _].
    + by apply Forall_cons in Fn as [? _].
    + by apply Forall_cons in Fp as [? _].
  - apply IH; rewrite ?Es, ?En, ?Ep; unfold insert_sel;
      destruct c; simpl in *;
      try done; eauto using NoDup_cons_1_2.
Qed.

(** ** The keys of the calls of a reuse *)

Lemma appended_calls_app cs1 cs2 :
  appended (cs1 ++ cs2) = appended_app (appended cs1) (appended cs2).
Proof.
  unfold appended, appended_app, doc_keys, macro_keys, source_keys,
    record_keys, patch_keys.
  by rewrite !omap_app.
Qed.

Lemma node_keys_app cs1 cs2 : node_keys (cs1 ++ cs2) = node_keys cs1 ++ node_keys cs2.
Proof. unfold node_keys. by rewrite omap_app. Qed.

Lemma doc_segment old ids :
  Forall (λ id, ∃ d, r_docs old !! id = Some d ∧ unique_id d = id) ids →
  appended (ids ≫= doc_calls old) = (ids, [], [], [], []) ∧
  node_keys (ids ≫= doc_calls old) = [].
Proof.
  induction 1 as [|id ids (d & Hd & Hk) _ [IH1 IH2]]; [done|].
  rewrite bind_cons, appended_calls_app, node_keys_app, IH1, IH2.
  unfold doc_calls. rewrite Hd. simpl in *. by rewrite Hk.
Qed.

Lemma macro_segment old ids :
  Forall (λ id, ∃ m, r_macros old !! id = Some m ∧ unique_id m = id) ids →
  appended (ids ≫= macro_calls old) = ([], ids, [], [], []) ∧
  node_keys (ids ≫= macro_calls old) = [].
Proof.
  induction 1 as [|id ids (d & Hd & Hk) _ [IH1 IH2]]; [done|].
  rewrite bind_cons, appended_calls_app, node_keys_app, IH1, IH2.
  unfold macro_calls. rewrite Hd. simpl in *. by rewrite Hk.
Qed.

Lemma source_segment old ids :
  Forall (λ id, ∃ s, r_sources old !! id = Some s ∧ unique_id s = id) ids →
  appended (ids ≫= source_calls old) = ([], [], ids, [], []) ∧
  node_keys (ids ≫= source_calls old) = [].
Proof.
  induction 1 as [|id ids (d & Hd & Hk) _ [IH1 IH2]]; [done|].
  rewrite bind_cons, appended_calls_app, node_keys_app, IH1, IH2.
  unfold source_calls. rewrite Hd. simpl in *. by rewrite Hk.
Qed.

Lemma patch_segment old ids :
  Forall (λ nm, ∃ p, r_patches old !! nm = Some p ∧ name p = nm) ids →
  appended (ids ≫= patch_calls old) = ([], [], [], [], ids) ∧
  node_keys (ids ≫= patch_calls old) = [].
Proof.
  induction 1 as [|id ids (d & Hd & Hk) _ [IH1 IH2]]; [done|].
  rewrite bind_cons, appended_calls_app, node_keys_app, IH1, IH2.
  unfold patch_calls. rewrite Hd. simpl in *. by rewrite Hk.
Qed.

Lemma node_segment old f ids :
  Forall (λ id,
            (∃ n, r_nodes old !! id = Some n ∧ unique_id n = id) ∨
            (r_nodes old !! id = None ∧
             ∃ v vs, disabled old !! id = Some vs ∧
               filter (from f) vs = [v] ∧ unique_id v = id)) ids →
  appended (ids ≫= node_calls old f) = ([], [], [], ids, []) ∧
  node_keys (ids ≫= node_calls old f) `sublist_of` ids.
Proof.
  induction 1 as [|id ids Hid _ [IH1 IH2]]; [done|].
  rewrite bind_cons, appended_calls_app, node_keys_app, IH1.
  unfold node_calls.
  destruct Hid as [(n & Hn & Hk)|(Hn & v & vs & Hvs & Hone & Hk)]; rewrite Hn.
  - simpl in *. rewrite Hk. split; [done|]. by apply sublist_skip.
  - rewrite Hvs. simpl. rewrite Hone. simpl in *. rewrite Hk.
    split; [done|]. by apply sublist_cons.
Qed.

Lemma calls_of_keys old f fo :
  reusable old f fo →
  appended (calls_of old f fo)
    = (docs fo, macros fo, sources fo, nodes fo, patches fo) ∧
  node_keys (calls_of old f fo) `sublist_of` nodes fo.
Proof.
  intros (Hd & Hm & Hs & Hn & Hp). unfold calls_of.
  destruct (doc_segment old _ Hd) as [D1 D2].
  destruct (macro_segment old _ Hm) as [M1 M2].
  destruct (source_segment old _ Hs) as [S1 S2].
  destruct (node_segment old f _ Hn) as [N1 N2].
  destruct (patch_segment old _ Hp) as [P1 P2].
  rewrite !appended_calls_app, !node_keys_app, D1, D2, M1, M2, S1, S2, N1, P1, P2.
  simpl. by rewrite !app_nil_r.
Qed.

Lemma calls_of_fresh sf old new f fo h :
  reusable old f fo → untaken new fo →
  calls_fresh sf f (calls_of old f fo) (mkEnv new h).
Proof.
  intros Hre (Ns & Fs & Nn & Fn & Np & Fp).
  destruct (calls_of_keys old f fo Hre) as [Hkeys Hsub].
  unfold appended in Hkeys. simplify_eq.
  apply calls_fresh_intro; simpl.
  - congruence.
  - congruence.
  - by apply (sublist_NoDup _ (nodes fo)).
  - apply Forall_forall. intros k Hk.
    apply (proj1 (Forall_forall _ _) Fn). by apply (elem_of_sublist _ _ _ Hk).
  - congruence.
  - congruence.
Qed.

Lemma foldl_call_append ft cs :
  foldl (λ x c, call_append c x) ft cs =
    let '(d, m, s, n, p) := appended cs in
    mkSourceFile (path ft) (checksum ft) (search_key ft)
      (nodes ft ++ n) (docs ft ++ d) (macros ft ++ m) (sources ft ++ s)
      (patches ft ++ p).
Proof.
  revert ft. induction cs as [|c cs IH]; intros ft.
  - simpl. rewrite !app_nil_r. by destruct ft.
  - simpl foldl. rewrite IH. unfold appended, doc_keys, macro_keys,
      source_keys, record_keys, patch_keys.
    destruct c; simpl; by rewrite <- app_assoc.
Qed.

(** Where a call of a reuse comes from. *)
Lemma calls_of_origin old f fo c :
  c ∈ calls_of old f fo →
  (∀ a, sel_doc c = Some a → ∃ id, id ∈ docs fo ∧ r_docs old !! id = Some a) ∧
  (∀ a, sel_macro c = Some a → ∃ id, id ∈ macros fo ∧ r_macros old !! id = Some a) ∧
  (∀ a, sel_source c = Some a →
     ∃ id, id ∈ sources fo ∧ r_sources old !! id = Some a) ∧
  (∀ a, sel_node c = Some a → ∃ id, id ∈ nodes fo ∧ r_nodes old !! id = Some a) ∧
  (∀ a, sel_patch c = Some a →
     ∃ id, id ∈ patches fo ∧ r_patches old !! id = Some a).
Proof.
  unfold calls_of. rewrite !elem_of_app, !list_elem_of_bind.
  unfold doc_calls, macro_calls, source_calls, node_calls, patch_calls.
  intros [(id & Hc & Hid)|[(id & Hc & Hid)|[(id & Hc & Hid)|
          [(id & Hc & Hid)|(id & Hc & Hid)]]]].
  - destruct (r_docs old !! id) as [d|] eqn:E; [|by apply elem_of_nil in Hc].
    apply list_elem_of_singleton in Hc as ->.
    repeat split; intros a Ha; simplify_eq/=; eauto.
  - destruct (r_macros old !! id) as [d|] eqn:E; [|by apply elem_of_nil in Hc].
    apply list_elem_of_singleton in Hc as ->.
    repeat split; intros a Ha; simplify_eq/=; eauto.
  - destruct (r_sources old !! id) as [d|] eqn:E; [|by apply elem_of_nil in Hc].
    apply list_elem_of_singleton in Hc as ->.
    repeat split; intros a Ha; simplify_eq/=; eauto.
  - destruct (r_nodes old !! id) as [d|] eqn:E.
    + apply list_elem_of_singleton in Hc as ->.
      repeat split; intros a Ha; simplify_eq/=; eauto.
    + apply list_elem_of_fmap in Hc as (v & -> & _).
      repeat split; intros a Ha; simplify_eq/=.
  - destruct (r_patches old !! id) as [d|] eqn:E; [|by apply elem_of_nil in Hc].
    apply list_elem_of_singleton in Hc as ->.
    repeat split; intros a Ha; simplify_eq/=; eauto.
Qed.

(** The call a reuse makes for an entry. *)
Lemma calls_of_entry old f fo id :
  (∀ d, id ∈ docs fo → r_docs old !! id = Some d →
     CallDoc d ∈ calls_of old f fo) ∧
  (∀ m, id ∈ macros fo → r_macros old !! id = Some m →
     CallMacro m ∈ calls_of old f fo) ∧
  (∀ s, id ∈ sources fo → r_sources old !! id = Some s →
     CallSource s ∈ calls_of old f fo) ∧
  (∀ n, id ∈ nodes fo → r_nodes old !! id = Some n →
     CallNode n ∈ calls_of old f fo) ∧
  (∀ v vs, id ∈ nodes fo → r_nodes old !! id = None →
     disabled old !! id = Some vs → v ∈ filter (from f) vs →
     CallDisabled v ∈ calls_of old f fo) ∧
  (∀ p, id ∈ patches fo → r_patches old !! id = Some p →
     CallPatch p ∈ calls_of old f fo).
Proof.
  unfold doc_calls, macro_calls, source_calls, node_calls, patch_calls.
  repeat split; intros; unfold calls_of;
    rewrite !elem_of_app, !list_elem_of_bind;
    unfold doc_calls, macro_calls, source_calls, node_calls, patch_calls.
  - left. exists id. rewrite H0. split; [by left|done].
  - right; left. exists id. rewrite H0. split; [by left|done].
  - right; right; left. exists id. rewrite H0. split; [by left|done].
  - right; right; right; left. exists id. rewrite H0. split; [by left|done].
  - right; right; right; left. exists id.
    rewrite H0, H1. split; [|done]. apply list_elem_of_fmap. by exists v.
  - right; right; right; right. exists id. rewrite H0. split; [by left|done].
Qed.

Lemma apply_call_disabled sf f e c :
  disabled (result (apply_call sf f e c)) =
    match c with
    | CallDisabled v =>
        <[unique_id v := default [] (disabled (result e) !! unique_id v) ++ [v]]>
          (disabled (result e))
    | _ => disabled (result e)
    end.
Proof.
  unfold apply_call. simpl.
  destruct (track_maps sf f (call_result c (result e)))
    as (_ & _ & _ & _ & _ & ->).
  by destruct c.
Qed.

(** A registered variant stays in the list of its id. *)
Lemma disabled_kept sf f cs e k l :
  disabled (result e) !! k = Some l →
  ∃ l', disabled (result (foldl (apply_call sf f) e cs)) !! k = Some l' ∧
        l ⊆ l'.
Proof.
  revert e l. induction cs as [|c cs IH]; intros e l Hl; simpl.
  - by exists l.
  - assert (∃ l1, disabled (result (apply_call sf f e c)) !! k = Some l1 ∧ l ⊆ l1)
      as (l1 & Hl1 & Hsub1).
    { rewrite apply_call_disabled.
      destruct c as [| | | |v|]; try (by exists l).
      destruct (decide (unique_id v = k)) as [->|Hne].
      - rewrite lookup_insert_eq, Hl. simpl. eexists. split; [done|].
        intros x Hx. apply elem_of_app. by left.
      - rewrite lookup_insert_ne by done. by exists l. }
    destruct (IH _ l1 Hl1) as (l' & Hl' & Hsub').
    exists l'. split; [done|]. by transitivity l1.
Qed.

Lemma disabled_after sf f cs e v :
  CallDisabled v ∈ cs →
  ∃ l, disabled (result (foldl (apply_call sf f) e cs)) !! unique_id v = Some l ∧
       v ∈ l.
Proof.
  revert e. induction cs as [|c cs IH]; intros e Hin.
  - by apply elem_of_nil in Hin.
  - apply elem_of_cons in Hin as [<-|Hin]; [|by apply IH]. simpl foldl.
    destruct (disabled_kept sf f cs (apply_call sf f e (CallDisabled v))
                (unique_id v)
                (default [] (disabled (result e) !! unique_id v) ++ [v]))
      as (l & Hl & Hsub).
    { rewrite apply_call_disabled. by rewrite lookup_insert_eq. }
    exists l. split; [done|]. apply Hsub, elem_of_app. right. by left.
Qed.

(** ** Reuse fidelity *)

Lemma reusable_present old f fo :
  reusable old f fo →
  Forall (λ id, is_Some (r_docs old !! id)) (docs fo) ∧
  Forall (λ id, is_Some (r_macros old !! id)) (macros fo) ∧
  Forall (λ id, is_Some (r_sources old !! id)) (sources fo) ∧
  Forall (λ id, is_Some (r_nodes old !! id) ∨ is_Some (disabled old !! id))
    (nodes fo) ∧
  Forall (λ nm, is_Some (r_patches old !! nm)) (patches fo).
Proof.
  intros (Hd & Hm & Hs & Hn & Hp).
  repeat split; (eapply Forall_impl; [eassumption|]); simpl.
  - by intros id (d & -> & _).
  - by intros id (d & -> & _).
  - by intros id (d & -> & _).
  - intros id [(n & -> & _)|(_ & v & vs & -> & _)]; [by left|by right].
  - by intros id (d & -> & _).
Qed.

(** Every entry of a reusable record is in the new registry after the
    calls, with the artifact the old registry has for it. *)
Lemma calls_of_copied sf old f fo e :
  reusable old f fo →
  let e' := foldl (apply_call sf f) e (calls_of old f fo) in
  Forall (λ id, r_docs (result e') !! id = r_docs old !! id) (docs fo) ∧
  Forall (λ id, r_macros (result e') !! id = r_macros old !! id) (macros fo) ∧
  Forall (λ id, r_sources (result e') !! id = r_sources old !! id) (sources fo) ∧
  Forall (λ id,
            match r_nodes old !! id with
            | Some n => r_nodes (result e') !! id = Some n
            | None =>
                ∃ l, disabled (result e') !! id = Some l ∧
                  ∀ v, v ∈ filter (from f) (default [] (disabled old !! id)) →
                       v ∈ l
            end) (nodes fo) ∧
  Forall (λ nm, r_patches (result e') !! nm = r_patches old !! nm) (patches fo).
Proof.
  intros Hre e'. pose proof Hre as (Hd & Hm & Hs & Hn & Hp).
  destruct (foldl_apply_maps sf f (calls_of old f fo) e)
    as (Ed & Em & Es & En & Ep).
  fold e' in Ed, Em, Es, En, Ep.
  rewrite Forall_forall in Hd, Hm, Hs, Hn, Hp.
  split; [|split; [|split; [|split]]]; apply Forall_forall; intros id Hin.
  - destruct (Hd id Hin) as (d & Hold & Hk). rewrite Ed, Hold.
    apply (foldl_insert_sel_hit sel_doc unique_id _ _ id (CallDoc d) d);
      [by apply (calls_of_entry old f fo id)|done|done|].
    intros c' d' Hc' Hsel' Hk'.
    destruct (calls_of_origin old f fo c' Hc') as (O & _).
    destruct (O d' Hsel') as (id' & Hin' & Hold').
    destruct (Hd id' Hin') as (d'' & Hold'' & Hk''). congruence.
  - destruct (Hm id Hin) as (d & Hold & Hk). rewrite Em, Hold.
    apply (foldl_insert_sel_hit sel_macro unique_id _ _ id (CallMacro d) d);
      [by apply (calls_of_entry old f fo id)|done|done|].
    intros c' d' Hc' Hsel' Hk'.
    destruct (calls_of_origin old f fo c' Hc') as (_ & O & _).
    destruct (O d' Hsel') as (id' & Hin' & Hold').
    destruct (Hm id' Hin') as (d'' & Hold'' & Hk''). congruence.
  - destruct (Hs id Hin) as (d & Hold & Hk). rewrite Es, Hold.
    apply (foldl_insert_sel_hit sel_source unique_id _ _ id (CallSource d) d);
      [by apply (calls_of_entry old f fo id)|done|done|].
    intros c' d' Hc' Hsel' Hk'.
    destruct (calls_of_origin old f fo c' Hc') as (_ & _ & O & _).
    destruct (O d' Hsel') as (id' & Hin' & Hold').
    destruct (Hs id' Hin') as (d'' & Hold'' & Hk''). congruence.
  - destruct (Hn id Hin) as [(d & Hold & Hk)|(Hnone & v & vs & Hvs & Hone & Hk)].
    + rewrite Hold, En.
      apply (foldl_insert_sel_hit sel_node unique_id _ _ id (CallNode d) d);
        [by apply (calls_of_entry old f fo id)|done|done|].
      intros c' d' Hc' Hsel' Hk'.
      destruct (calls_of_origin old f fo c' Hc') as (_ & _ & _ & O & _).
      destruct (O d' Hsel') as (id' & Hin' & Hold').
      destruct (Hn id' Hin') as [(d'' & Hold'' & Hk'')|(Hnone' & _)]; congruence.
    + rewrite Hnone, Hvs. simpl. rewrite Hone.
      destruct (disabled_after sf f (calls_of old f fo) e v) as (l & Hl & Hv).
      { apply (calls_of_entry old f fo id) with vs; try done.
        rewrite Hone. by left. }
      exists l. rewrite <- Hk. split; [done|].
      by intros v' ->%list_elem_of_singleton.
  - destruct (Hp id Hin) as (d & Hold & Hk). rewrite Ep, Hold.
    apply (foldl_insert_sel_hit sel_patch name _ _ id (CallPatch d) d);
      [by apply (calls_of_entry old f fo id)|done|done|].
    intros c' d' Hc' Hsel' Hk'.
    destruct (calls_of_origin old f fo c' Hc') as (_ & _ & _ & _ & O).
    destruct (O d' Hsel') as (id' & Hin' & Hold').
    destruct (Hp id' Hin') as (d'' & Hold'' & Hk''). congruence.
Qed.

(** Outside the entries of the record the five mappings are as before. *)
Lemma calls_of_frame sf old f fo e :
  reusable old f fo →
  let e' := foldl (apply_call sf f) e (calls_of old f fo) in
  (∀ id, id ∉ docs fo → r_docs (result e') !! id = r_docs (result e) !! id) ∧
  (∀ id, id ∉ macros fo →
     r_macros (result e') !! id = r_macros (result e) !! id) ∧
  (∀ id, id ∉ sources fo →
     r_sources (result e') !! id = r_sources (result e) !! id) ∧
  (∀ id, id ∉ nodes fo → r_nodes (result e') !! id = r_nodes (result e) !! id) ∧
  (∀ nm, nm ∉ patches fo →
     r_patches (result e') !! nm = r_patches (result e) !! nm).
Proof.
  intros Hre e'. pose proof Hre as (Hd & Hm & Hs & Hn & Hp).
  destruct (foldl_apply_maps sf f (calls_of old f fo) e)
    as (Ed & Em & Es & En & Ep).
  fold e' in Ed, Em, Es, En, Ep.
  rewrite Forall_forall in Hd, Hm, Hs, Hn, Hp.
  split; [|split; [|split; [|split]]]; intros id Hnot.
  - rewrite Ed. apply foldl_insert_sel_frame. intros c a Hc Hsel Hk.
    destruct (calls_of_origin old f fo c Hc) as (O & _).
    destruct (O a Hsel) as (id' & Hin' & Hold').
    destruct (Hd id' Hin') as (a' & Hold'' & Hk''). apply Hnot. congruence.
  - rewrite Em. apply foldl_insert_sel_frame. intros c a Hc Hsel Hk.
    destruct (calls_of_origin old f fo c Hc) as (_ & O & _).
    destruct (O a Hsel) as (id' & Hin' & Hold').
    destruct (Hm id' Hin') as (a' & Hold'' & Hk''). apply Hnot. congruence.
  - rewrite Es. apply foldl_insert_sel_frame. intros c a Hc Hsel Hk.
    destruct (calls_of_origin old f fo c Hc) as (_ & _ & O & _).
    destruct (O a Hsel) as (id' & Hin' & Hold').
    destruct (Hs id' Hin') as (a' & Hold'' & Hk''). apply Hnot. congruence.
  - rewrite En. apply foldl_insert_sel_frame. intros c a Hc Hsel Hk.
    destruct (calls_of_origin old f fo c Hc) as (_ & _ & _ & O & _).
    destruct (O a Hsel) as (id' & Hin' & Hold').
    destruct (Hn id' Hin') as [(a' & Hold'' & Hk'')|(Hnone & _)];
      [apply Hnot|]; congruence.
  - rewrite Ep. apply foldl_insert_sel_frame. intros c a Hc Hsel Hk.
    destruct (calls_of_origin old f fo c Hc) as (_ & _ & _ & _ & O).
    destruct (O a Hsel) as (id' & Hin' & Hold').
    destruct (Hp id' Hin') as (a' & Hold'' & Hk''). apply Hnot. congruence.
Qed.

(** X17.  Reuse fidelity where every disabled id has one variant of the
    file.  Let the old registry track the cacheable file under its
    search key, in a record [lo] that is another object than the record
    [t] which the new registry returns for the file.  Let every entry of
    [lo] have its artifact in the old registry, stored under its own id,
    where a node id that is no key of [nodes] has exactly one disabled
    variant from the path of the file.  Let the source ids, node ids and
    patch names of [lo] be recorded once each and be no keys of the new
    registry.  Then [sanitized_update] returns true; it leaves the old
    registry as it is; the new registry and the store are those reached by
    the insertion calls for the doc entries, then the macro, source, node
    and patch entries, each in the order of its sequence; every entry is
    in the new registry with the artifact of the old one, the five
    mappings being as before at every other key; and the sequences of [t]
    are what they were followed by the sequences of [lo], no other record
    having changed. *)
Theorem reuse_copies_in_order
    (fuel : nat) (sf : loc) (p : Pass) (f fo ft : SourceFile)
    (key : string) (lo : loc) :
  objects p !! sf = Some f → isinstance_RemoteFile (path f) = false →
  search_key f = Some key →
  files (old_result p) !! key = Some lo → objects p !! lo = Some fo →
  objects p !! target (self p) sf f = Some ft →
  target (self p) sf f ≠ lo →
  reusable (old_result p) f fo → untaken (self p) fo →
  (fuel_for fo ≤ fuel)%nat →
  ∃ p',
    sanitized_update fuel sf p = (Ok true, p') ∧
    old_result p' = old_result p ∧
    for_each (call sf) (calls_of (old_result p) f fo)
      (mkEnv (self p) (objects p))
    = (Ok tt, mkEnv (self p') (objects p')) ∧
    Forall (λ id, r_docs (self p') !! id = r_docs (old_result p) !! id)
      (docs fo) ∧
    Forall (λ id, r_macros (self p') !! id = r_macros (old_result p) !! id)
      (macros fo) ∧
    Forall (λ id, r_sources (self p') !! id = r_sources (old_result p) !! id)
      (sources fo) ∧
    Forall (λ id,
              match r_nodes (old_result p) !! id with
              | Some n => r_nodes (self p') !! id = Some n
              | None =>
                  ∃ l, disabled (self p') !! id = Some l ∧
                    ∀ v, v ∈ filter (from f)
                               (default [] (disabled (old_result p) !! id)) →
                         v ∈ l
              end) (nodes fo) ∧
    Forall (λ nm, r_patches (self p') !! nm = r_patches (old_result p) !! nm)
      (patches fo) ∧
    ((∀ id, id ∉ docs fo → r_docs (self p') !! id = r_docs (self p) !! id) ∧
     (∀ id, id ∉ macros fo → r_macros (self p') !! id = r_macros (self p) !! id) ∧
     (∀ id, id ∉ sources fo →
        r_sources (self p') !! id = r_sources (self p) !! id) ∧
     (∀ id, id ∉ nodes fo → r_nodes (self p') !! id = r_nodes (self p) !! id) ∧
     (∀ nm, nm ∉ patches fo →
        r_patches (self p') !! nm = r_patches (self p) !! nm)) ∧
    target (self p') sf f = target (self p) sf f ∧
    objects p' !! target (self p) sf f =
      Some (mkSourceFile (path ft) (checksum ft) (search_key ft)
              (nodes ft ++ nodes fo) (docs ft ++ docs fo)
              (macros ft ++ macros fo) (sources ft ++ sources fo)
              (patches ft ++ patches fo)) ∧
    (∀ l, l ≠ target (self p) sf f → objects p' !! l = objects p !! l).
Proof.
  intros Hf Hremote Hkey Hfiles Hlo Ht Hne Hre Hun Hfuel.
  destruct p as [new old h]. simpl in *.
  destruct (fuel_for_enough fo fuel Hfuel) as (Ld & Lm & Ls & Ln & Lp).
  assert (Htlo : target old sf f = lo).
  { unfold target. by rewrite Hkey, Hfiles. }
  assert (Htrack : track sf f old = old).
  { unfold track. by rewrite Hkey, Hfiles. }
  destruct (sanitized_update_snapshot fuel sf (mkPass new old h) f fo)
    as [Hrun HP]; simpl; rewrite ?Htlo; try done.
  simpl in Hrun, HP. rewrite Htrack, ?Htlo in Hrun, HP.
  destruct (reusable_present old f fo Hre) as (Pd & Pm & Ps & Pn & Pp).
  pose proof (calls_of_fresh sf old new f fo h Hre Hun) as Hfresh.
  pose proof (reuse_snapshot_run sf f _ _ fo old _ HP Pd Pm Ps Pn Pp Hfresh)
    as Hsnap.
  destruct HP as (_ & _ & _ & Hreached).
  destruct (calls_run sf f _ (calls_of old f fo) _ Hreached Hfresh)
    as [Hcalls _].
  set (cs := calls_of old f fo) in *.
  set (e' := foldl (apply_call sf f) (mkEnv new h) cs) in *.
  assert (Heta : mkEnv (self (pass_after sf f cs (mkPass new old h)))
                   (objects (pass_after sf f cs (mkPass new old h))) = e').
  { unfold pass_after. simpl. fold e'. by destruct e'. }
  exists (pass_after sf f cs (mkPass new old h)).
  split; [by rewrite Hrun|]. split; [done|].
  split; [by rewrite Heta|].
  destruct (calls_of_copied sf old f fo (mkEnv new h) Hre)
    as (Cd & Cm & Cs & Cn & Cp).
  fold cs in Cd, Cm, Cs, Cn, Cp. fold e' in Cd, Cm, Cs, Cn, Cp.
  unfold pass_after. simpl. fold e'.
  split; [done|]. split; [done|]. split; [done|]. split; [done|].
  split; [done|].
  split; [apply (calls_of_frame sf old f fo (mkEnv new h) Hre)|].
  split; [apply (foldl_apply_target sf f cs (mkEnv new h))|].
  split; [|intros l Hl; by apply (foldl_apply_store_ne sf f cs (mkEnv new h))].
  unfold e'.
  pose proof (foldl_apply_store sf f cs (mkEnv new h) ft Ht) as Hstore.
  simpl in Hstore. rewrite Hstore, foldl_call_append.
  destruct (calls_of_keys old f fo Hre) as [Hkeys _].
  fold cs in Hkeys. by rewrite Hkeys.
Qed.

Lemma reuse_copies_in_order_witness :
  let n := mkNode "model.p.a" "models/a.sql" "select 1" in
  let v := mkNode "model.p.off" "models/a.sql" "select 2" in
  let w := mkNode "model.p.off" "models/b.sql" "select 3" in
  let d := mkDoc "doc.p.a" "about a" in
  let m := mkMacro "macro.p.cents" "{{ x * 100 }}" in
  let s := mkSource "source.p.raw.events" "events" in
  let pt := mkPatch "a" "description: a" in
  let stored := mkSourceFile (FilePath "models/a.sql") "H1" (Some "/p/models/a.sql")
                  ["model.p.a"; "model.p.off"] ["doc.p.a"] ["macro.p.cents"]
                  ["source.p.raw.events"] ["a"] in
  let candidate := mkSourceFile (FilePath "models/a.sql") "H1"
                     (Some "/p/models/a.sql") [] [] [] [] [] in
  let old := mkParseResult "" "" ∅ {[ "model.p.a" := n ]}
               {[ "source.p.raw.events" := s ]} {[ "doc.p.a" := d ]}
               {[ "macro.p.cents" := m ]} {[ "a" := pt ]}
               {[ "/p/models/a.sql" := 0 ]} {[ "model.p.off" := [w; v] ]} "" in
  let p := mkPass (mkParseResult "" "" ∅ ∅ ∅ ∅ ∅ ∅ ∅ ∅ "") old
             {[ 0 := stored; 1 := candidate ]} in
  ∃ p', sanitized_update 3 1 p = (Ok true, p') ∧
    r_nodes (self p') !! "model.p.a" = Some n ∧
    objects p' !! 1 = Some stored.
Proof.
  intros n v w d m s pt stored candidate old p.
  destruct (reuse_copies_in_order 3 1 p candidate stored candidate
              "/p/models/a.sql" 0)
    as (p' & Hrun & _ & _ & _ & _ & _ & Hn & _ & _ & _ & Hrec & _).
  - reflexivity.
  - reflexivity.
  - reflexivity.
  - reflexivity.
  - reflexivity.
  - reflexivity.
  - vm_compute. discriminate.
  - unfold reusable. simpl. split; [|split; [|split; [|split]]].
    + apply Forall_cons. split; [by exists d|by apply Forall_nil].
    + apply Forall_cons. split; [by exists m|by apply Forall_nil].
    + apply Forall_cons. split; [by exists s|by apply Forall_nil].
    + apply Forall_cons. split; [left; by exists n|].
      apply Forall_cons. split; [|by apply Forall_nil].
      right. split; [reflexivity|]. by exists v, [w; v].
    + apply Forall_cons. split; [by exists pt|by apply Forall_nil].
  - apply (bool_decide_unpack _). vm_compute. reflexivity.
  - vm_compute. lia.
  - exists p'. split; [exact Hrun|]. split.
    + apply Forall_cons in Hn as [Hn _]. exact Hn.
    + exact Hrec.
Defined.

(** C1.  The reuse does not reproduce the node sequence of a file that
    registered two disabled variants of one id.  Such a file has the id
    twice in its node sequence, once per [add_disabled]; for each
    occurrence the node loop of [sanitized_update] registers every variant
    of the file again, where the loops for docs, macros, sources and
    patches insert one artifact per entry.  The call returns [True], the
    new record lists the id four times instead of twice and the new
    registry holds four variants instead of two. *)
Lemma reuse_repeats_disabled_variants :
  let v1 := mkNode "model.p.a" "models/a.sql" "variant 1" in
  let v2 := mkNode "model.p.a" "models/a.sql" "variant 2" in
  let fresh := mkSourceFile (FilePath "models/a.sql") "H1"
                 (Some "/p/models/a.sql") [] [] [] [] [] in
  let empty := mkParseResult "" "" ∅ ∅ ∅ ∅ ∅ ∅ ∅ ∅ "" in
  let e0 := mkEnv empty {[ 0 := fresh ]} in
  let e2 := snd (add_disabled 0 v2 (snd (add_disabled 0 v1 e0))) in
  let p := mkPass empty (result e2) (<[1 := fresh]> (store e2)) in
  let p' := snd (sanitized_update 5 1 p) in
  nodes <$> objects p !! 0 = Some ["model.p.a"; "model.p.a"] ∧
  disabled (old_result p) !! "model.p.a" = Some [v1; v2] ∧
  fst (sanitized_update 5 1 p) = Ok true ∧
  nodes <$> objects p' !! 1
    = Some ["model.p.a"; "model.p.a"; "model.p.a"; "model.p.a"] ∧
  disabled (self p') !! "model.p.a" = Some [v1; v2; v1; v2].
Proof.
  intros v1 v2 fresh empty e0 e2 p p'.
  repeat split; vm_compute; reflexivity.
Qed.

(** ** No collision, no duplicate error *)

Lemma bind_clean {St A B} (I : St → Prop) (J : St → Prop)
    (m : M St A) (k : A → M St B) s :
  clean (fst (m s)) → (∀ a, fst (m s) = Ok a → I (snd (m s))) →
  (∀ a s', I s' → clean (fst (k a s')) ∧
                  (∀ b, fst (k a s') = Ok b → J (snd (k a s')))) →
  clean (fst (bind m k s)) ∧ (∀ b, fst (bind m k s) = Ok b → J (snd (bind m k s))).
Proof.
  intros Hm HI Hk. unfold bind. destruct (m s) as [o s']. simpl in *.
  destruct Hm as [[a ->]|(key & tbl & ->)].
  - apply Hk. by apply (HI a).
  - split; [right; by exists key, tbl|done].
Qed.

(** A loop whose body consumes a condition on the entries still to come. *)
Lemma for_each_clean {St A} (I : list A → St → Prop) (body : A → M St unit) xs s :
  (∀ x xs s, I (x :: xs) s →
     clean (fst (body x s)) ∧
     (∀ a, fst (body x s) = Ok a → I xs (snd (body x s)))) →
  I xs s →
  clean (fst (for_each body xs s)) ∧
  (∀ a, fst (for_each body xs s) = Ok a → I [] (snd (for_each body xs s))).
Proof.
  intros Hbody. revert s. induction xs as [|x xs IH]; intros s Hs; simpl.
  - split; [left; by exists tt|done].
  - destruct (Hbody x xs s Hs) as [Hc Hnext].
    apply (bind_clean (I xs)); [done|done|]. intros _ s' Hs'. by apply IH.
Qed.

Lemma pending_call sf f0 c ss ns ps p :
  pending ss ns ps p →
  (∀ s, sel_source c = Some s → unique_id s ∉ ss) →
  (∀ n, sel_node c = Some n → unique_id n ∉ ns) →
  (∀ pt, sel_patch c = Some pt → name pt ∉ ps) →
  pending ss ns ps (pass_after sf f0 [c] p).
Proof.
  intros (Hs & Hn & Hp) Ks Kn Kp. unfold pending, pass_after.
  cbn [foldl self old_result objects].
  destruct (apply_call_maps sf f0 (mkEnv (self p) (objects p)) c)
    as (_ & _ & -> & -> & ->).
  unfold insert_sel. simpl.
  assert (Hins : ∀ A (m : gmap string A) k (a : A) ks,
            k ∉ ks → Forall (λ id, m !! id = None) ks →
            Forall (λ id, <[k := a]> m !! id = None) ks).
  { intros A m k a ks Hk Hall. apply Forall_forall. intros id Hin.
    rewrite lookup_insert_ne by (intros ->; done).
    by apply (proj1 (Forall_forall _ _) Hall). }
  repeat split.
  - destruct (sel_source c) as [s|]; [|done]. apply Hins; [|done]. by apply Ks.
  - destruct (sel_node c) as [n|]; [|done]. apply Hins; [|done]. by apply Kn.
  - destruct (sel_patch c) as [pt|]; [|done]. apply Hins; [|done]. by apply Kp.
Qed.

Lemma pending_calls sf f0 cs ss ns ps p :
  pending ss ns ps p →
  Forall (λ c, sel_source c = None ∧ sel_node c = None ∧ sel_patch c = None) cs →
  pending ss ns ps (pass_after sf f0 cs p).
Proof.
  intros Hp Hcs. revert p Hp.
  induction Hcs as [|c cs (Hs & Hn & Hpt) _ IH]; intros p Hp.
  - by rewrite pass_after_nil.
  - rewrite pass_after_cons. apply IH.
    apply pending_call; [done|..]; intros ? ?; congruence.
Qed.

Lemma clean_missing {St A} key tbl (s : St) :
  clean (fst (@raise St A (CompilationException key tbl) s)).
Proof. right. by exists key, tbl. Qed.

Lemma calls_fresh_disabled sf f vs e :
  calls_fresh sf f (CallDisabled <$> vs) e.
Proof. revert e. induction vs as [|v vs IH]; intros e; simpl; auto. Qed.

Section clean_bodies.
Context (sf : loc) (f0 : SourceFile) (t lo : loc) (fo : SourceFile)
  (old : ParseResult).
Let P := reuse_inv sf f0 t lo fo old.

Lemma reuse_doc_clean id ss ns ps p :
  P p → pending ss ns ps p →
  clean (fst (reuse_doc sf id p)) ∧
  (∀ a, fst (reuse_doc sf id p) = Ok a → pending ss ns ps (snd (reuse_doc sf id p))).
Proof.
  intros HP Hpend. pose proof HP as (Hold & _).
  destruct (reuse_bodies_run sf f0 t lo fo old id p HP) as (B & _).
  destruct (reuse_missing sf id p) as (Miss & _). rewrite Hold in Miss.
  destruct (r_docs old !! id) as [d|] eqn:E.
  - rewrite B by done. unfold doc_calls. rewrite E. simpl.
    split; [left; by exists tt|]. intros ? _.
    apply pending_calls; [done|]. by repeat constructor.
  - rewrite Miss by done. split; [apply clean_missing|done].
Qed.

Lemma reuse_macro_clean id ss ns ps p :
  P p → pending ss ns ps p →
  clean (fst (reuse_macro sf id p)) ∧
  (∀ a, fst (reuse_macro sf id p) = Ok a →
     pending ss ns ps (snd (reuse_macro sf id p))).
Proof.
  intros HP Hpend. pose proof HP as (Hold & _).
  destruct (reuse_bodies_run sf f0 t lo fo old id p HP) as (_ & B & _).
  destruct (reuse_missing sf id p) as (_ & Miss & _). rewrite Hold in Miss.
  destruct (r_macros old !! id) as [d|] eqn:E.
  - rewrite B by done. unfold macro_calls. rewrite E. simpl.
    split; [left; by exists tt|]. intros ? _.
    apply pending_calls; [done|]. by repeat constructor.
  - rewrite Miss by done. split; [apply clean_missing|done].
Qed.

Lemma reuse_source_clean id ss ns ps p :
  P p → keyed old → id ∉ ss → pending (id :: ss) ns ps p →
  clean (fst (reuse_source sf id p)) ∧
  (∀ a, fst (reuse_source sf id p) = Ok a →
     pending ss ns ps (snd (reuse_source sf id p))).
Proof.
  intros HP (Hkey & _) Hnot (Hs & Hn & Hp). pose proof HP as (Hold & _).
  destruct (reuse_bodies_run sf f0 t lo fo old id p HP) as (_ & _ & B & _).
  destruct (reuse_missing sf id p) as (_ & _ & Miss & _). rewrite Hold in Miss.
  apply Forall_cons in Hs as [Hid Hs].
  destruct (r_sources old !! id) as [s|] eqn:E.
  - pose proof (Hkey id s E) as Hk.
    unfold source_calls in B. rewrite E in B. rewrite B; [|done|].
    + simpl. split; [left; by exists tt|]. intros ? _.
      apply pending_call; [done|..]; intros ? ?; simplify_eq/=. congruence.
    + split; [|done]. simpl in *. by rewrite Hk.
  - rewrite Miss by done. split; [apply clean_missing|done].
Qed.

Lemma reuse_node_clean id ns ps p :
  P p → keyed old → id ∉ ns → pending [] (id :: ns) ps p →
  clean (fst (reuse_node sf id p)) ∧
  (∀ a, fst (reuse_node sf id p) = Ok a →
     pending [] ns ps (snd (reuse_node sf id p))).
Proof.
  intros HP (_ & Hkey & _) Hnot (Hs & Hn & Hp). pose proof HP as (Hold & _).
  destruct (reuse_bodies_run sf f0 t lo fo old id p HP) as (_ & _ & _ & B & _).
  destruct (reuse_missing sf id p) as (_ & _ & _ & Miss & _).
  rewrite Hold in Miss.
  apply Forall_cons in Hn as [Hid Hn].
  unfold node_calls in B.
  destruct (r_nodes old !! id) as [n|] eqn:E.
  - pose proof (Hkey id n E) as Hk. rewrite B; [|by left|].
    + simpl. split; [left; by exists tt|]. intros ? _.
      apply pending_call; [done|..]; intros ? ?; simplify_eq/=. congruence.
    + split; [|done]. simpl in *. by rewrite Hk.
  - destruct (disabled old !! id) as [vs|] eqn:E'.
    + rewrite B; [|by right|apply calls_fresh_disabled].
      simpl. split; [left; by exists tt|]. intros ? _.
      apply pending_calls; [done|].
      apply Forall_fmap, Forall_forall. by intros v _.
    + rewrite Miss by done. split; [apply clean_missing|done].
Qed.

Lemma reuse_patch_clean id ps p :
  P p → keyed old → id ∉ ps → pending [] [] (id :: ps) p →
  clean (fst (reuse_patch sf id p)) ∧
  (∀ a, fst (reuse_patch sf id p) = Ok a →
     pending [] [] ps (snd (reuse_patch sf id p))).
Proof.
  intros HP (_ & _ & Hkey) Hnot (Hs & Hn & Hp). pose proof HP as (Hold & _).
  destruct (reuse_bodies_run sf f0 t lo fo old id p HP) as (_ & _ & _ & _ & B).
  destruct (reuse_missing sf id p) as (_ & _ & _ & _ & Miss).
  rewrite Hold in Miss.
  apply Forall_cons in Hp as [Hid Hp].
  destruct (r_patches old !! id) as [pt|] eqn:E.
  - pose proof (Hkey id pt E) as Hk.
    unfold patch_calls in B. rewrite E in B. rewrite B; [|done|].
    + simpl. split; [left; by exists tt|]. intros ? _.
      apply pending_call; [done|..]; intros ? ?; simplify_eq/=. congruence.
    + split; [|done]. simpl in *. by rewrite Hk.
  - rewrite Miss by done. split; [apply clean_missing|done].
Qed.

(** With nothing to collide with, a reuse returns or stops on the
    consistency guard. *)
Lemma reuse_snapshot_clean p :
  P p → keyed old → untaken (self p) fo →
  clean (fst (reuse_snapshot sf fo p)).
Proof.
  intros HP Hkeyed (Ns & Fs & Nn & Fn & Np & Fp).
  assert (Hinv : ∀ id,
    preserves P (reuse_doc sf id) ∧ preserves P (reuse_macro sf id) ∧
    preserves P (reuse_source sf id) ∧ preserves P (reuse_node sf id) ∧
    preserves P (reuse_patch sf id)) by (intros id; apply reuse_bodies_inv).
  unfold reuse_snapshot.
  apply (bind_clean
           (λ q, P q ∧ pending (sources fo) (nodes fo) (patches fo) q)
           (λ _, True)).
  { apply (for_each_clean
             (λ _ q, P q ∧ pending (sources fo) (nodes fo) (patches fo) q));
      [|done].
    intros id _ q [Hq Hpend].
    destruct (reuse_doc_clean id _ _ _ q Hq Hpend) as [Hc Hnext].
    split; [done|]. intros a Ha. split; [by apply Hinv|by apply (Hnext a)]. }
  { intros a Ha.
    apply (for_each_clean
             (λ _ q, P q ∧ pending (sources fo) (nodes fo) (patches fo) q)
             (reuse_doc sf) (docs fo) p) with a; [|done|done].
    intros id _ q [Hq Hpend].
    destruct (reuse_doc_clean id _ _ _ q Hq Hpend) as [Hc Hnext].
    split; [done|]. intros b Hb. split; [by apply Hinv|by apply (Hnext b)]. }
  intros _ p1 [HP1 Hpend1].
  apply (bind_clean
           (λ q, P q ∧ pending (sources fo) (nodes fo) (patches fo) q)
           (λ _, True)).
  { apply (for_each_clean
             (λ _ q, P q ∧ pending (sources fo) (nodes fo) (patches fo) q));
      [|done].
    intros id _ q [Hq Hpend].
    destruct (reuse_macro_clean id _ _ _ q Hq Hpend) as [Hc Hnext].
    split; [done|]. intros a Ha. split; [by apply Hinv|by apply (Hnext a)]. }
  { intros a Ha.
    apply (for_each_clean
             (λ _ q, P q ∧ pending (sources fo) (nodes fo) (patches fo) q)
             (reuse_macro sf) (macros fo) p1) with a; [|done|done].
    intros id _ q [Hq Hpend].
    destruct (reuse_macro_clean id _ _ _ q Hq Hpend) as [Hc Hnext].
    split; [done|]. intros b Hb. split; [by apply Hinv|by apply (Hnext b)]. }
  intros _ p2 [HP2 Hpend2].
  assert (Hsrc : ∀ id xs q,
    P q ∧ NoDup (id :: xs) ∧ pending (id :: xs) (nodes fo) (patches fo) q →
    clean (fst (reuse_source sf id q)) ∧
    (∀ a, fst (reuse_source sf id q) = Ok a →
       P (snd (reuse_source sf id q)) ∧ NoDup xs ∧
       pending xs (nodes fo) (patches fo) (snd (reuse_source sf id q)))).
  { intros id xs q (Hq & [Hnot Hnd]%NoDup_cons & Hpend).
    destruct (reuse_source_clean id xs _ _ q Hq Hkeyed Hnot Hpend)
      as [Hc Hnext].
    split; [done|]. intros a Ha.
    split; [by apply Hinv|]. split; [done|by apply (Hnext a)]. }
  apply (bind_clean
           (λ q, P q ∧ NoDup (@nil string) ∧ pending [] (nodes fo) (patches fo) q)
           (λ _, True)).
  { by apply (for_each_clean
                (λ xs q, P q ∧ NoDup xs ∧
                         pending xs (nodes fo) (patches fo) q)). }
  { intros a Ha.
    by apply (for_each_clean
                (λ xs q, P q ∧ NoDup xs ∧
                         pending xs (nodes fo) (patches fo) q)
                (reuse_source sf) (sources fo) p2) with a. }
  intros _ p3 (HP3 & _ & Hpend3).
  assert (Hnod : ∀ id xs q,
    P q ∧ NoDup (id :: xs) ∧ pending [] (id :: xs) (patches fo) q →
    clean (fst (reuse_node sf id q)) ∧
    (∀ a, fst (reuse_node sf id q) = Ok a →
       P (snd (reuse_node sf id q)) ∧ NoDup xs ∧
       pending [] xs (patches fo) (snd (reuse_node sf id q)))).
  { intros id xs q (Hq & [Hnot Hnd]%NoDup_cons & Hpend).
    destruct (reuse_node_clean id xs _ q Hq Hkeyed Hnot Hpend) as [Hc Hnext].
    split; [done|]. intros a Ha.
    split; [by apply Hinv|]. split; [done|by apply (Hnext a)]. }
  apply (bind_clean
           (λ q, P q ∧ NoDup (@nil string) ∧ pending [] [] (patches fo) q) (λ _, True)).
  { by apply (for_each_clean
                (λ xs q, P q ∧ NoDup xs ∧ pending [] xs (patches fo) q)). }
  { intros a Ha.
    by apply (for_each_clean
                (λ xs q, P q ∧ NoDup xs ∧ pending [] xs (patches fo) q)
                (reuse_node sf) (nodes fo) p3) with a. }
  intros _ p4 (HP4 & _ & Hpend4).
  assert (Hpat : ∀ id xs q,
    P q ∧ NoDup (id :: xs) ∧ pending [] [] (id :: xs) q →
    clean (fst (reuse_patch sf id q)) ∧
    (∀ a, fst (reuse_patch sf id q) = Ok a →
       P (snd (reuse_patch sf id q)) ∧ NoDup xs ∧
       pending [] [] xs (snd (reuse_patch sf id q)))).
  { intros id xs q (Hq & [Hnot Hnd]%NoDup_cons & Hpend).
    destruct (reuse_patch_clean id xs q Hq Hkeyed Hnot Hpend) as [Hc Hnext].
    split; [done|]. intros a Ha.
    split; [by apply Hinv|]. split; [done|by apply (Hnext a)]. }
  apply (bind_clean (λ _, True) (λ _, True)).
  { by apply (for_each_clean
                (λ xs q, P q ∧ NoDup xs ∧ pending [] [] xs q)). }
  { done. }
  intros _ p5 _. split; [left; by exists true|done].
Qed.
End clean_bodies.

Lemma keyed_track sf f old : keyed old → keyed (track sf f old).
Proof.
  unfold keyed. by destruct (track_maps sf f old) as (-> & -> & _ & _ & -> & _).
Qed.

(** C4, amended.  When a loop of [sanitized_update] reaches an entry of the
    old record without artifact (a doc, macro or source id or a patch name
    that is no key of its mapping, a node id that is a key of neither
    [nodes] nor [disabled]) it raises the consistency error there and
    changes nothing more; it does not skip the entry.  So for a cacheable
    file whose old record has such an entry the reuse never returns: it
    ends in an exception, which is the consistency error or the
    duplicate-name error of an insertion; it is the consistency error
    when the source ids, node ids and patch names of the old record are
    recorded once, are no keys of the new registry and have their
    artifacts stored under them.  [_get_disabled] raises the internal
    error whenever its id is no key of [disabled]. *)
Theorem missing_entry_stops_reuse
    (fuel : nat) (sf : loc) (p : Pass) (f fo : SourceFile) :
  objects p !! sf = Some f → isinstance_RemoteFile (path f) = false →
  objects p !! target (old_result p) sf f = Some fo →
  is_Some (objects p !! target (self p) sf f) →
  target (self p) sf f ≠ target (old_result p) sf f →
  (fuel_for fo ≤ fuel)%nat →
  missing_entry (old_result p) fo →
  (∃ exn p', sanitized_update fuel sf p = (Raise exn, p') ∧
     (is_consistency_error exn ∨ is_duplicate_error exn)) ∧
  (keyed (old_result p) → untaken (self p) fo →
   ∃ id table p',
     sanitized_update fuel sf p = (Raise (CompilationException id table), p')) ∧
  (∀ n lo i id q xs, xs !! i = Some id →
     (live lo docs q = Some xs → r_docs (old_result q) !! id = None →
        for_in (S n) (live lo docs) (reuse_doc sf) i q
        = (Raise (CompilationException id "docs"), q)) ∧
     (live lo macros q = Some xs → r_macros (old_result q) !! id = None →
        for_in (S n) (live lo macros) (reuse_macro sf) i q
        = (Raise (CompilationException id "macros"), q)) ∧
     (live lo sources q = Some xs → r_sources (old_result q) !! id = None →
        for_in (S n) (live lo sources) (reuse_source sf) i q
        = (Raise (CompilationException id "sources"), q)) ∧
     (live lo nodes q = Some xs → r_nodes (old_result q) !! id = None →
        disabled (old_result q) !! id = None →
        for_in (S n) (live lo nodes) (reuse_node sf) i q
        = (Raise (CompilationException id "manifest.nodes/manifest.disabled"), q)) ∧
     (live lo patches q = Some xs → r_patches (old_result q) !! id = None →
        for_in (S n) (live lo patches) (reuse_patch sf) i q
        = (Raise (CompilationException id "patches"), q))) ∧
  (∀ id mf e, disabled (result e) !! id = None →
     _get_disabled id mf e = (Raise (InternalException id), e)).
Proof.
  intros Hf Hremote Hlo Ht Hne Hfuel Hmiss.
  destruct (fuel_for_enough fo fuel Hfuel) as (Ld & Lm & Ls & Ln & Lp).
  destruct (sanitized_update_snapshot fuel sf p f fo) as [Hrun HP]; try done.
  destruct (reuse_snapshot_fails sf f _ _ fo _ _ HP) as [(exn & Hexn & Hkind) _].
  { by apply missing_entry_track. }
  split; [|split; [|split]].
  - rewrite Hrun.
    destruct (reuse_snapshot sf fo _) as [o p']. simpl in Hexn. subst o.
    by exists exn, p'.
  - intros Hkeyed Huntaken. rewrite Hrun.
    destruct (reuse_snapshot_clean sf f _ _ fo _ _ HP)
      as [[a Hok]|(id & table & Hraise)].
    { by apply keyed_track. }
    { done. }
    + congruence.
    + destruct (reuse_snapshot sf fo _) as [o p']. simpl in Hraise. subst o.
      by exists id, table, p'.
  - intros n lo i id q xs Hx.
    destruct (reuse_missing sf id q) as (H1 & H2 & H3 & H4 & H5).
    repeat split; intros; eapply for_in_raises; eauto.
  - intros id mf e. apply _get_disabled_absent.
Qed.

Lemma missing_entry_stops_reuse_witness :
  let n := mkNode "model.p.a" "models/a.sql" "select 1" in
  let stored := mkSourceFile (FilePath "models/a.sql") "H1"
                  (Some "/p/models/a.sql") ["model.p.a"; "model.p.gone"] [] [] [] [] in
  let candidate := mkSourceFile (FilePath "models/a.sql") "H1"
                     (Some "/p/models/a.sql") [] [] [] [] [] in
  let old := mkParseResult "" "" ∅ {[ "model.p.a" := n ]} ∅ ∅ ∅ ∅
               {[ "/p/models/a.sql" := 0 ]} ∅ "" in
  let p := mkPass (mkParseResult "" "" ∅ ∅ ∅ ∅ ∅ ∅ ∅ ∅ "") old
             {[ 0 := stored; 1 := candidate ]} in
  ∃ id table p',
    sanitized_update 3 1 p = (Raise (CompilationException id table), p').
Proof.
  intros n stored candidate old p.
  refine (proj1 (proj2
            (missing_entry_stops_reuse 3 1 p candidate stored _ _ _ _ _ _ _))
            _ _).
  - reflexivity.
  - reflexivity.
  - reflexivity.
  - vm_compute. by eexists.
  - vm_compute. discriminate.
  - vm_compute. lia.
  - right; right; right; left. apply Exists_cons_tl, Exists_cons_hd.
    split; reflexivity.
  - apply (bool_decide_unpack _). vm_compute. reflexivity.
  - apply (bool_decide_unpack _). vm_compute. reflexivity.
Defined.

(** C4 as stated fails: the old record lists a node id without artifact,
    but the source recorded before it is already a key of [sources] in the
    new registry.  The reuse ends in [DuplicateResourceName], not in the
    consistency error. *)
Lemma duplicate_error_precedes_consistency_error :
  let s := mkSource "source.p.raw.events" "old definition" in
  let s' := mkSource "source.p.raw.events" "new definition" in
  let stored := mkSourceFile (FilePath "models/schema.yml") "H1"
                  (Some "/p/models/schema.yml")
                  ["model.p.gone"] [] [] ["source.p.raw.events"] [] in
  let candidate := mkSourceFile (FilePath "models/schema.yml") "H1"
                     (Some "/p/models/schema.yml") [] [] [] [] [] in
  let old := mkParseResult "" "" ∅ ∅ {[ "source.p.raw.events" := s ]} ∅ ∅ ∅
               {[ "/p/models/schema.yml" := 0 ]} ∅ "" in
  let new := mkParseResult "" "" ∅ ∅ {[ "source.p.raw.events" := s' ]} ∅ ∅ ∅
               ∅ ∅ "" in
  let p := mkPass new old {[ 0 := stored; 1 := candidate ]} in
  r_nodes old !! "model.p.gone" = None ∧
  disabled old !! "model.p.gone" = None ∧
  sanitized_update 5 1 p =
    (Raise (DuplicateResourceName (SourceResource s) (SourceResource s')), p).
Proof.
  intros s s' stored candidate old new p.
  repeat split; vm_compute; reflexivity.
Qed.


(** * Further properties of the module *)

(** ** Later states *)

Lemma record_extends_refl f : record_extends f f.
Proof. by repeat split. Qed.

Lemma record_extends_trans f g k :
  record_extends f g → record_extends g k → record_extends f k.
Proof.
  intros (S1 & N1 & D1 & M1 & So1 & P1) (S2 & N2 & D2 & M2 & So2 & P2).
  split; [by eapply same_file_trans|].
  repeat split; by etransitivity.
Qed.

Lemma record_extends_append id f :
  record_extends f (nodes_append id f) ∧ record_extends f (docs_append id f) ∧
  record_extends f (macros_append id f) ∧
  record_extends f (sources_append id f) ∧
  record_extends f (patches_append id f).
Proof.
  repeat split; simpl; try done; by apply prefix_app_r.
Qed.

Lemma registry_extends_refl r : registry_extends r r.
Proof. repeat split; try done. intros id vs Hvs. by exists vs. Qed.

Lemma registry_extends_trans r1 r2 r3 :
  registry_extends r1 r2 → registry_extends r2 r3 → registry_extends r1 r3.
Proof.
  intros (N1 & S1 & P1 & F1 & D1 & M1 & Dis1 & V1 & Pr1 & Pj1 & Ve1)
         (N2 & S2 & P2 & F2 & D2 & M2 & Dis2 & V2 & Pr2 & Pj2 & Ve2).
  split; [by etransitivity|]. split; [by etransitivity|].
  split; [by etransitivity|]. split; [by etransitivity|].
  split; [by etransitivity|]. split; [by etransitivity|].
  split; [|repeat split; congruence].
  intros id vs Hvs. destruct (Dis1 id vs Hvs) as (vs1 & Hvs1 & Hp1).
  destruct (Dis2 id vs1 Hvs1) as (vs2 & Hvs2 & Hp2).
  exists vs2. split; [done|by etransitivity].
Qed.

Lemma store_extends_refl h : store_extends h h.
Proof. split; [done|]. intros l f Hl. exists f. split; [done|apply record_extends_refl]. Qed.

Lemma store_extends_trans h1 h2 h3 :
  store_extends h1 h2 → store_extends h2 h3 → store_extends h1 h3.
Proof.
  intros [D1 H1] [D2 H2]. split; [congruence|].
  intros l f Hl. destruct (H1 l f Hl) as (f1 & Hl1 & E1).
  destruct (H2 l f1 Hl1) as (f2 & Hl2 & E2).
  exists f2. split; [done|by eapply record_extends_trans].
Qed.

#[local] Instance env_extends_preorder : PreOrder env_extends.
Proof.
  split.
  - intros e. split; [apply registry_extends_refl|apply store_extends_refl].
  - intros e1 e2 e3 [R1 S1] [R2 S2].
    split; [by eapply registry_extends_trans|by eapply store_extends_trans].
Qed.

(** ** Computations that only move to later states *)

Lemma steps_ret {St A} (R : St → St → Prop) `{!Reflexive R} (a : A) :
  steps R (ret a).
Proof. by intros s. Qed.

Lemma steps_raise {St A} (R : St → St → Prop) `{!Reflexive R} exn :
  steps R (@raise St A exn).
Proof. by intros s. Qed.

Lemma steps_gets {St A} (R : St → St → Prop) `{!Reflexive R} (f : St → A) :
  steps R (gets f).
Proof. by intros s. Qed.

Lemma steps_bind {St A B} (R : St → St → Prop) `{!Transitive R}
    (m : M St A) (k : A → M St B) :
  steps R m → (∀ a, steps R (k a)) → steps R (bind m k).
Proof.
  intros Hm Hk s. unfold bind. specialize (Hm s).
  destruct (m s) as [[a|exn| |] s']; simpl in *; try done.
  transitivity s'; [done|apply Hk].
Qed.

Lemma steps_for_each {St A} (R : St → St → Prop) `{!PreOrder R}
    (body : A → M St unit) xs :
  (∀ x, steps R (body x)) → steps R (for_each body xs).
Proof.
  intros Hbody. induction xs as [|x xs IH]; simpl.
  - apply steps_ret; apply _.
  - apply steps_bind; [apply _|apply Hbody|done].
Qed.

Lemma steps_for_in {St A} (R : St → St → Prop) `{!PreOrder R} fuel
    (lv : St → option (list A)) (body : A → M St unit) i :
  (∀ x, steps R (body x)) → steps R (for_in fuel lv body i).
Proof.
  intros Hbody. revert i. induction fuel as [|fuel IH]; intros i s; simpl.
  - reflexivity.
  - destruct (lv s) as [xs|]; [|reflexivity].
    destruct (xs !! i) as [x|]; [|reflexivity].
    apply (steps_bind R (body x)); [apply Hbody|]. intros _. apply IH.
Qed.

Lemma steps_deref l : steps env_extends (deref l).
Proof. intros e. unfold deref. destruct (store e !! l); reflexivity. Qed.

Lemma track_extends sf f r : registry_extends r (track sf f r).
Proof.
  unfold track. destruct (search_key f) as [key|];
    [|apply registry_extends_refl].
  destruct (files r !! key) eqn:Hk; [apply registry_extends_refl|].
  repeat split; simpl; try done.
  - by apply insert_subseteq.
  - intros id vs Hvs. by exists vs.
Qed.

Lemma steps_get_file sf : steps env_extends (get_file sf).
Proof.
  intros e. destruct (store e !! sf) as [f|] eqn:Hf.
  - rewrite (get_file_run e sf f Hf). split; simpl.
    + apply track_extends.
    + apply store_extends_refl.
  - destruct e as [r h]. simpl in Hf. unfold get_file, bind, deref. simpl.
    rewrite Hf. reflexivity.
Qed.

Lemma steps_mutate l g :
  (∀ f, record_extends f (g f)) → steps env_extends (mutate l g).
Proof.
  intros Hg e. unfold mutate, bind, deref, modify. simpl.
  destruct (store e !! l) as [f|] eqn:Hl; simpl; [|reflexivity].
  split; simpl; [apply registry_extends_refl|]. split.
  - rewrite dom_insert_L. apply elem_of_dom_2 in Hl.
    apply subseteq_union_1_L. by apply singleton_subseteq_l.
  - intros l' f' Hl'. destruct (decide (l = l')) as [<-|Hne].
    + rewrite lookup_insert_eq. simplify_eq. eauto.
    + rewrite lookup_insert_ne by done. exists f'.
      split; [done|apply record_extends_refl].
Qed.

(** Tracking the file and appending to its record. *)
Lemma steps_record sf g :
  (∀ f, record_extends f (g f)) →
  steps env_extends (l <- get_file sf ;; mutate l g).
Proof.
  intros Hg. apply steps_bind; [apply _|apply steps_get_file|].
  intros l. by apply steps_mutate.
Qed.

Lemma steps_on_result g e :
  registry_extends (result e) (g (result e)) →
  env_extends e (on_result g e).
Proof. intros Hg. split; [done|apply store_extends_refl]. Qed.

Lemma call_result_extends c r :
  call_fresh c r → registry_extends r (call_result c r).
Proof.
  intros Hfresh.
  destruct c as [d|m|s|n|n|p]; simpl in *; repeat split; simpl; try done;
    try (by apply insert_subseteq);
    try (rewrite dom_insert_L; set_solver);
    try (intros id vs Hvs; by exists vs).
  intros id vs Hvs. destruct (decide (node_unique_id n = id)) as [->|Hne].
  - rewrite lookup_insert_eq, Hvs. simpl. eexists. split; [done|].
    by apply prefix_app_r.
  - rewrite lookup_insert_ne by done. by exists vs.
Qed.

(** A call that passes its duplicate check is the insertion into the
    mapping followed by the append to the record of the file. *)
Lemma call_unfold sf c e :
  call_fresh c (result e) →
  call sf c e =
    (l <- get_file sf ;; mutate l (call_append c))
      (on_result (call_result c) e).
Proof.
  intros Hfresh. destruct e as [r h].
  destruct c as [d|m|s|n|n|p]; simpl in *;
    unfold add_doc, add_macro, add_source, add_node, add_disabled, add_patch,
      bind, gets, modify, _check_duplicates, ret, on_result; simpl;
    rewrite ?Hfresh; try reflexivity.
  by destruct (disabled r !! node_unique_id n).
Qed.

Lemma call_stale sf c e :
  ¬ call_fresh c (result e) → ∃ exn, call sf c e = (Raise exn, e) ∧
    match c with
    | CallPatch _ => is_duplicate_patch exn
    | _ => is_duplicate_resource exn
    end.
Proof.
  intros Hstale. destruct c as [d|m|s|n|n|p]; simpl in *; try done.
  - destruct (r_sources (result e) !! source_unique_id s) as [x|] eqn:E; [|done].
    eexists. split; [by apply add_source_dup|done].
  - destruct (r_nodes (result e) !! node_unique_id n) as [x|] eqn:E; [|done].
    eexists. split; [by apply add_node_dup|done].
  - destruct (r_patches (result e) !! name p) as [x|] eqn:E; [|done].
    eexists. split; [by apply add_patch_dup|done].
Qed.

#[local] Instance call_fresh_dec c r : Decision (call_fresh c r).
Proof. destruct c; simpl; apply _. Defined.

Lemma steps_call sf c : steps env_extends (call sf c).
Proof.
  intros e. destruct (decide (call_fresh c (result e))) as [Hfresh|Hstale].
  - rewrite (call_unfold sf c e Hfresh).
    transitivity (on_result (call_result c) e).
    + apply steps_on_result. by apply call_result_extends.
    + apply steps_record. intros f.
      destruct c; apply record_extends_append.
  - destruct (call_stale sf c e Hstale) as (exn & -> & _). reflexivity.
Qed.

Lemma old_kept_refl sf r : old_kept sf r r.
Proof. repeat split; try done. intros key l Hl. by left. Qed.

Lemma old_kept_trans sf r1 r2 r3 :
  old_kept sf r1 r2 → old_kept sf r2 r3 → old_kept sf r1 r3.
Proof.
  intros (N1 & S1 & D1 & M1 & P1 & Di1 & V1 & Pr1 & Pj1 & Ve1 & F1 & New1)
         (N2 & S2 & D2 & M2 & P2 & Di2 & V2 & Pr2 & Pj2 & Ve2 & F2 & New2).
  repeat split; try congruence; [by etransitivity|].
  intros key l Hl. destruct (New2 key l Hl) as [Hl2|[Hnone ->]].
  - by apply New1.
  - right. split; [|done].
    destruct (files r1 !! key) as [l1|] eqn:E; [|done].
    apply (proj1 (map_subseteq_spec _ _) F1) in E. congruence.
Qed.

Lemma old_kept_track sf f r : old_kept sf r (track sf f r).
Proof.
  unfold track. destruct (search_key f) as [key|]; [|apply old_kept_refl].
  destruct (files r !! key) eqn:Hk; [apply old_kept_refl|].
  repeat split; simpl; try done; [by apply insert_subseteq|].
  intros key' l Hl. destruct (decide (key = key')) as [<-|Hne].
  - rewrite lookup_insert_eq in Hl. simplify_eq. by right.
  - rewrite lookup_insert_ne in Hl by done. by left.
Qed.

#[local] Instance pass_extends_preorder sf : PreOrder (pass_extends sf).
Proof.
  split.
  - intros p. split; [reflexivity|apply old_kept_refl].
  - intros p1 p2 p3 [E1 O1] [E2 O2].
    split; [by etransitivity|by eapply old_kept_trans].
Qed.

Lemma steps_on_self {A} sf (m : M Env A) :
  steps env_extends m → steps (pass_extends sf) (on_self m).
Proof.
  intros Hm p. unfold on_self. specialize (Hm (mkEnv (self p) (objects p))).
  destruct (m _) as [o [r h]]. split; [done|apply old_kept_refl].
Qed.

Lemma steps_on_old_get_file sf :
  steps (pass_extends sf) (on_old (get_file sf)).
Proof.
  intros p. unfold on_old.
  destruct (objects p !! sf) as [f|] eqn:Hf.
  - rewrite (get_file_run (mkEnv (old_result p) (objects p)) sf f Hf). simpl.
    split; [reflexivity|apply old_kept_track].
  - unfold get_file, bind, deref. simpl. rewrite Hf. simpl.
    split; [reflexivity|apply old_kept_refl].
Qed.

Lemma steps_on_old_get_disabled sf id mf :
  steps (pass_extends sf) (on_old (_get_disabled id mf)).
Proof.
  intros [new old h]. unfold on_old. simpl.
  pose proof (_get_disabled_state id mf (mkEnv old h)) as Hs.
  destruct (_get_disabled id mf _) as [o e']. simpl in *. subst e'.
  reflexivity.
Qed.

Lemma steps_expect_value {St T} (R : St → St → Prop) `{!Reflexive R} key
    (src : gmap string T) tbl :
  steps R (_expect_value key src tbl).
Proof. intros s. unfold _expect_value. by destruct (src !! key). Qed.

Lemma steps_sanitized_update fuel sf :
  steps (pass_extends sf) (sanitized_update fuel sf).
Proof.
  unfold sanitized_update.
  apply steps_bind; [apply _|apply steps_on_self, steps_deref|].
  intros f. destruct (isinstance_RemoteFile (path f));
    [apply steps_ret; apply _|].
  apply steps_bind; [apply _|apply steps_on_old_get_file|]. intros old_file.
  repeat (apply steps_bind;
          [apply _|apply steps_for_in; [apply _|intros id]|intros _]);
    [..|apply steps_ret; apply _].
  - unfold reuse_doc.
    apply steps_bind; [apply _|apply steps_gets; apply _|intros src].
    apply steps_bind; [apply _|apply steps_expect_value; apply _|intros d].
    apply steps_on_self, (steps_call sf (CallDoc d)).
  - unfold reuse_macro.
    apply steps_bind; [apply _|apply steps_gets; apply _|intros src].
    apply steps_bind; [apply _|apply steps_expect_value; apply _|intros m].
    apply steps_on_self, (steps_call sf (CallMacro m)).
  - unfold reuse_source.
    apply steps_bind; [apply _|apply steps_gets; apply _|intros src].
    apply steps_bind; [apply _|apply steps_expect_value; apply _|intros s].
    apply steps_on_self, (steps_call sf (CallSource s)).
  - unfold reuse_node.
    apply steps_bind; [apply _|apply steps_gets; apply _|intros old].
    destruct (r_nodes old !! id) as [n|].
    { apply steps_on_self, (steps_call sf (CallNode n)). }
    destruct (disabled old !! id) as [vs|]; [|apply steps_raise; apply _].
    apply steps_bind; [apply _|apply steps_on_old_get_disabled|intros matches].
    apply steps_for_each; [apply _|]. intros v.
    apply steps_on_self, (steps_call sf (CallDisabled v)).
  - unfold reuse_patch.
    apply steps_bind; [apply _|apply steps_gets; apply _|intros src].
    apply steps_bind; [apply _|apply steps_expect_value; apply _|intros pt].
    apply steps_on_self, (steps_call sf (CallPatch pt)).
Qed.

Lemma after_extends op e : env_extends e (after op e).
Proof.
  destruct op as [sf|sf n|sf s|sf n|sf m|sf d|sf p|fuel old sf]; simpl.
  - apply steps_get_file.
  - apply (steps_call sf (CallNode n)).
  - apply (steps_call sf (CallSource s)).
  - apply (steps_call sf (CallDisabled n)).
  - apply (steps_call sf (CallMacro m)).
  - apply (steps_call sf (CallDoc d)).
  - apply (steps_call sf (CallPatch p)).
  - destruct (steps_sanitized_update fuel sf (mkPass (result e) old (store e)))
      as [He _].
    simpl in He. by destruct e.
Qed.

Lemma run_ops_snoc ops op e : run_ops (ops ++ [op]) e = after op (run_ops ops e).
Proof. unfold run_ops. by rewrite foldl_app. Qed.

(** X1.  No sequence of operations takes anything back.  After any calls
    of [get_file], the insertion methods and [sanitized_update] on [self],
    however each of them ends, every entry of [nodes], [sources], [patches]
    and [files] is still there with the same value, every key of [docs] and
    [macros] is still a key, every list of disabled variants has only grown
    at its end, and the store holds the same objects, each the same file
    with sequences that have only grown at their end. *)
Theorem operations_only_extend (ops : list Op) (e : Env) :
  env_extends e (run_ops ops e).
Proof.
  induction ops as [|op ops IH] using rev_ind; [reflexivity|].
  rewrite run_ops_snoc. etransitivity; [exact IH|apply after_extends].
Qed.

(** ** Which exceptions are raised *)

Lemma raises_only_ret {St A} (allowed : Exn → Prop) (a : A) :
  raises_only allowed (@ret St A a).
Proof. by intros s exn. Qed.

Lemma raises_only_gets {St A} (allowed : Exn → Prop) (f : St → A) :
  raises_only allowed (gets f).
Proof. by intros s exn. Qed.

Lemma raises_only_weaken {St A} (P Q : Exn → Prop) (m : M St A) :
  (∀ exn, P exn → Q exn) → raises_only P m → raises_only Q m.
Proof. intros HPQ Hm s exn Hs. by apply HPQ, (Hm s). Qed.

Lemma raises_only_bind {St A B} (allowed : Exn → Prop)
    (m : M St A) (k : A → M St B) :
  raises_only allowed m → (∀ a, raises_only allowed (k a)) →
  raises_only allowed (bind m k).
Proof.
  intros Hm Hk s exn. unfold bind. specialize (Hm s).
  destruct (m s) as [[a|exn'| |] s']; simpl in *; try done.
  - apply Hk.
  - intros [= <-]. by apply Hm.
Qed.

Lemma raises_only_for_each {St A} (allowed : Exn → Prop)
    (body : A → M St unit) xs :
  (∀ x, raises_only allowed (body x)) → raises_only allowed (for_each body xs).
Proof.
  intros Hbody. induction xs as [|x xs IH]; simpl.
  - apply raises_only_ret.
  - by apply raises_only_bind.
Qed.

Lemma raises_only_for_in {St A} (allowed : Exn → Prop) fuel
    (lv : St → option (list A)) (body : A → M St unit) i :
  (∀ x, raises_only allowed (body x)) →
  raises_only allowed (for_in fuel lv body i).
Proof.
  intros Hbody. revert i. induction fuel as [|fuel IH]; intros i s exn; simpl.
  - done.
  - destruct (lv s) as [xs|]; [|done].
    destruct (xs !! i) as [x|]; [|done].
    apply (raises_only_bind allowed (body x)); [apply Hbody|].
    intros _. apply IH.
Qed.

Lemma raises_only_on_self {A} (allowed : Exn → Prop) (m : M Env A) :
  raises_only allowed m → raises_only allowed (on_self m).
Proof.
  intros Hm p exn. unfold on_self. specialize (Hm (mkEnv (self p) (objects p))).
  destruct (m _) as [o e']. simpl in *. apply Hm.
Qed.

Lemma raises_only_on_old {A} (allowed : Exn → Prop) (m : M Env A) :
  raises_only allowed m → raises_only allowed (on_old m).
Proof.
  intros Hm p exn. unfold on_old.
  specialize (Hm (mkEnv (old_result p) (objects p))).
  destruct (m _) as [o e']. simpl in *. apply Hm.
Qed.

Lemma raises_only_deref (allowed : Exn → Prop) l : raises_only allowed (deref l).
Proof. intros e exn. unfold deref. by destruct (store e !! l). Qed.

Lemma raises_only_get_file (allowed : Exn → Prop) sf :
  raises_only allowed (get_file sf).
Proof.
  intros e exn. destruct (store e !! sf) as [f|] eqn:Hf.
  - by rewrite (get_file_run e sf f Hf).
  - destruct e as [r h]. simpl in Hf. unfold get_file, bind, deref. simpl.
    by rewrite Hf.
Qed.

Lemma raises_only_mutate (allowed : Exn → Prop) l g :
  raises_only allowed (mutate l g).
Proof.
  intros e exn. unfold mutate, bind, deref, modify. simpl.
  by destruct (store e !! l).
Qed.

Lemma raises_only_call sf c :
  raises_only
    (match c with
     | CallDoc _ | CallMacro _ | CallDisabled _ => λ _, False
     | CallSource _ | CallNode _ => is_duplicate_resource
     | CallPatch _ => is_duplicate_patch
     end)
    (call sf c).
Proof.
  intros e exn. destruct (decide (call_fresh c (result e))) as [Hfresh|Hstale].
  - rewrite (call_unfold sf c e Hfresh). intros Hraise. exfalso.
    revert Hraise.
    apply (raises_only_bind (λ _, False) (get_file sf)
             (λ l, mutate l (call_append c))
             (raises_only_get_file _ sf)
             (λ l, raises_only_mutate _ l _)).
  - destruct (call_stale sf c e Hstale) as (exn' & -> & Hexn').
    intros [= <-]. by destruct c.
Qed.

Lemma raises_only_expect_value {St T} key (src : gmap string T) tbl :
  raises_only is_consistency_error (@_expect_value St T key src tbl).
Proof.
  intros s exn. unfold _expect_value. destruct (src !! key); [done|].
  by intros [= <-].
Qed.

Lemma get_disabled_present id mf e vs exn :
  disabled (result e) !! id = Some vs →
  fst (_get_disabled id mf e) ≠ Raise exn.
Proof.
  intros Hd. destruct e as [r h]. simpl in Hd.
  unfold _get_disabled, bind, gets, deref, ret. simpl. rewrite Hd. simpl.
  by destruct (h !! mf).
Qed.

Lemma raises_only_reuse_node sf id :
  raises_only (λ exn, is_consistency_error exn ∨ is_duplicate_error exn)
    (reuse_node sf id).
Proof.
  intros p exn. unfold reuse_node, bind at 1, gets. cbn [fst snd].
  destruct (r_nodes (old_result p) !! id) as [n|].
  { intros Hraise. right.
    pose proof (raises_only_on_self _ _ (raises_only_call sf (CallNode n))
                  p exn Hraise) as Hexn.
    by destruct exn. }
  destruct (disabled (old_result p) !! id) as [vs|] eqn:Hd.
  - unfold bind, on_old at 1.
    pose proof (get_disabled_present id sf (mkEnv (old_result p) (objects p)) vs)
      as Hpresent.
    destruct (_get_disabled id sf _) as [[matches|exn'| |] e']; simpl in *;
      try done.
    + intros Hraise. exfalso. revert Hraise.
      apply (raises_only_for_each (λ _, False)). intros v.
      apply raises_only_on_self, (raises_only_call sf (CallDisabled v)).
    + by destruct (Hpresent exn' Hd).
  - intros [= <-]. by left.
Qed.

Lemma raises_only_sanitized_update fuel sf :
  raises_only (λ exn, is_consistency_error exn ∨ is_duplicate_error exn)
    (sanitized_update fuel sf).
Proof.
  assert (Hcall : ∀ c, raises_only
            (λ exn, is_consistency_error exn ∨ is_duplicate_error exn)
            (on_self (call sf c))).
  { intros c. apply raises_only_on_self.
    eapply raises_only_weaken; [|apply raises_only_call].
    intros exn Hexn. right. destruct c, exn; done. }
  assert (Hexpect : ∀ T key (src : gmap string T) tbl, raises_only
            (λ exn, is_consistency_error exn ∨ is_duplicate_error exn)
            (@_expect_value Pass T key src tbl)).
  { intros T key src tbl.
    eapply raises_only_weaken; [|apply raises_only_expect_value]. by left. }
  unfold sanitized_update.
  apply raises_only_bind; [apply raises_only_on_self, raises_only_deref|].
  intros f. destruct (isinstance_RemoteFile (path f)); [apply raises_only_ret|].
  apply raises_only_bind; [apply raises_only_on_old, raises_only_get_file|].
  intros old_file.
  repeat (apply raises_only_bind;
          [apply raises_only_for_in; intros id|intros _]);
    [..|apply raises_only_ret].
  - unfold reuse_doc. apply raises_only_bind; [apply raises_only_gets|intros src].
    apply raises_only_bind; [apply Hexpect|intros d]. apply (Hcall (CallDoc d)).
  - unfold reuse_macro.
    apply raises_only_bind; [apply raises_only_gets|intros src].
    apply raises_only_bind; [apply Hexpect|intros m]. apply (Hcall (CallMacro m)).
  - unfold reuse_source.
    apply raises_only_bind; [apply raises_only_gets|intros src].
    apply raises_only_bind; [apply Hexpect|intros s]. apply (Hcall (CallSource s)).
  - apply raises_only_reuse_node.
  - unfold reuse_patch.
    apply raises_only_bind; [apply raises_only_gets|intros src].
    apply raises_only_bind; [apply Hexpect|intros p]. apply (Hcall (CallPatch p)).
Qed.

(** ** Invariants of every registry *)

(** How a call of an insertion method can leave the state: unchanged (the
    duplicate check failed), or with the artifact registered and then the
    file tracked and the record extended, as far as the objects exist. *)
Lemma call_cases sf c e :
  snd (call sf c e) = e ∨
  snd (call sf c e) = on_result (call_result c) e ∨
  (∃ f, store e !! sf = Some f ∧
     snd (call sf c e) = on_result (track sf f) (on_result (call_result c) e)) ∨
  (∃ f ft, store e !! sf = Some f ∧
     store e !! target (call_result c (result e)) sf f = Some ft ∧
     snd (call sf c e) =
       mkEnv (track sf f (call_result c (result e)))
         (<[target (call_result c (result e)) sf f := call_append c ft]>
            (store e))).
Proof.
  destruct (decide (call_fresh c (result e))) as [Hfresh|Hstale].
  - rewrite (call_unfold sf c e Hfresh). right.
    set (e1 := on_result (call_result c) e).
    destruct (store e !! sf) as [f|] eqn:Hf.
    + right. unfold bind. rewrite (get_file_run e1 sf f) by done.
      unfold mutate, bind, deref, modify. simpl.
      destruct (store e !! target (call_result c (result e)) sf f) as [ft|] eqn:Ht;
        simpl.
      * right. exists f, ft. done.
      * left. exists f. done.
    + left. unfold bind, get_file, bind, deref. simpl. by rewrite Hf.
  - destruct (call_stale sf c e Hstale) as (exn & -> & _). by left.
Qed.

Lemma get_file_cases sf e :
  snd (get_file sf e) = e ∨
  ∃ f, store e !! sf = Some f ∧ snd (get_file sf e) = on_result (track sf f) e.
Proof.
  destruct (store e !! sf) as [f|] eqn:Hf.
  - right. exists f. by rewrite (get_file_run e sf f Hf).
  - left. destruct e as [r h]. simpl in Hf. unfold get_file, bind, deref. simpl.
    by rewrite Hf.
Qed.

(** An invariant of [self] and the store that every insertion method keeps
    is kept by [sanitized_update], whatever the old registry holds. *)
Lemma sanitized_update_preserves (P : Env → Prop) fuel sf :
  (∀ c, preserves P (call sf c)) →
  preserves (λ p, P (mkEnv (self p) (objects p))) (sanitized_update fuel sf).
Proof.
  intros Hcall.
  assert (Hself : ∀ c, preserves (λ p, P (mkEnv (self p) (objects p)))
                         (on_self (call sf c)))
    by (intros c; apply preserves_on_self, Hcall).
  unfold sanitized_update.
  apply preserves_bind; [apply preserves_on_self, preserves_deref|].
  intros f. destruct (isinstance_RemoteFile (path f)); [apply preserves_ret|].
  apply preserves_bind; [apply preserves_on_old_get_file|]. intros old_file.
  repeat (apply preserves_bind;
          [apply preserves_for_in; intros id|intros _]);
    [..|apply preserves_ret].
  - unfold reuse_doc. apply preserves_bind; [apply preserves_gets|intros src].
    apply preserves_bind; [apply preserves_expect_value|intros d].
    apply (Hself (CallDoc d)).
  - unfold reuse_macro. apply preserves_bind; [apply preserves_gets|intros src].
    apply preserves_bind; [apply preserves_expect_value|intros m].
    apply (Hself (CallMacro m)).
  - unfold reuse_source. apply preserves_bind; [apply preserves_gets|intros src].
    apply preserves_bind; [apply preserves_expect_value|intros s].
    apply (Hself (CallSource s)).
  - unfold reuse_node. apply preserves_bind; [apply preserves_gets|intros old].
    destruct (r_nodes old !! id) as [n|]; [apply (Hself (CallNode n))|].
    destruct (disabled old !! id); [|apply preserves_raise].
    apply preserves_bind; [apply preserves_on_old_get_disabled|intros matches].
    apply preserves_for_each. intros v. apply (Hself (CallDisabled v)).
  - unfold reuse_patch. apply preserves_bind; [apply preserves_gets|intros src].
    apply preserves_bind; [apply preserves_expect_value|intros pt].
    apply (Hself (CallPatch pt)).
Qed.

Lemma after_preserves (P : Env → Prop) op :
  preserves P (get_file (op_file op)) →
  (∀ c, preserves P (call (op_file op) c)) →
  ∀ e, P e → P (after op e).
Proof.
  intros Hget Hcall e He.
  destruct op as [sf|sf n|sf s|sf n|sf m|sf d|sf p|fuel old sf]; simpl in *.
  - by apply Hget.
  - by apply (Hcall (CallNode n)).
  - by apply (Hcall (CallSource s)).
  - by apply (Hcall (CallDisabled n)).
  - by apply (Hcall (CallMacro m)).
  - by apply (Hcall (CallDoc d)).
  - by apply (Hcall (CallPatch p)).
  - apply (sanitized_update_preserves P fuel sf Hcall
             (mkPass (result e) old (store e))).
    simpl. by destruct e.
Qed.

Lemma run_ops_preserves (P : Env → Prop) :
  (∀ op e, P e → P (after op e)) → ∀ ops e, P e → P (run_ops ops e).
Proof.
  intros Hstep ops. induction ops as [|op ops IH] using rev_ind; intros e He.
  - done.
  - rewrite run_ops_snoc. by apply Hstep, IH.
Qed.

Lemma run_ops_later ops e0 e :
  env_extends e0 e → env_extends e0 (run_ops ops e).
Proof.
  apply (run_ops_preserves (env_extends e0)). intros op e1 He1.
  etransitivity; [exact He1|apply after_extends].
Qed.

(** *** Artifacts are stored under their own id *)

Lemma well_keyed_track sf f r : well_keyed (track sf f r) ↔ well_keyed r.
Proof.
  unfold well_keyed.
  by destruct (track_maps sf f r) as (-> & -> & -> & -> & -> & ->).
Qed.

Lemma well_keyed_call_result c r : well_keyed r → well_keyed (call_result c r).
Proof.
  intros (Hn & Hs & Hd & Hm & Hp & Hv).
  destruct c as [d|m|s|n|n|p]; simpl;
    (split; [|split; [|split; [|split; [|split]]]]); simpl; try done;
    try (by apply map_Forall_insert_2).
  apply map_Forall_insert_2; [|done]. split.
  - intros Hnil. by apply app_eq_nil in Hnil as [_ ?].
  - apply Forall_app. split; [|by apply Forall_singleton].
    destruct (disabled r !! node_unique_id n) as [vs|] eqn:E; simpl; [|done].
    by destruct (Hv _ _ E).
Qed.

Lemma well_keyed_get_file sf : preserves (λ e, well_keyed (result e)) (get_file sf).
Proof.
  intros e He. destruct (get_file_cases sf e) as [->|(f & _ & ->)]; [done|].
  simpl. by apply well_keyed_track.
Qed.

Lemma well_keyed_call sf c : preserves (λ e, well_keyed (result e)) (call sf c).
Proof.
  intros e He.
  destruct (call_cases sf c e) as [->|[->|[(f & _ & ->)|(f & ft & _ & _ & ->)]]];
    simpl; [done|..].
  - by apply well_keyed_call_result.
  - by apply well_keyed_track, well_keyed_call_result.
  - by apply well_keyed_track, well_keyed_call_result.
Qed.

(** X4.  Every mapping of a registry stays keyed by the artifacts' own ids.
    If each artifact of [nodes], [sources], [docs] and [macros] is stored
    under its [unique_id], each patch under its [name], and each list of
    [disabled] is non-empty and holds variants of its key only, then the
    same is true after any operation, however it ends; for
    [sanitized_update] this needs nothing of the old registry, since an
    artifact found there under some id is inserted under its own. *)
Theorem operations_keep_own_keys (op : Op) (e : Env) :
  well_keyed (result e) → well_keyed (result (after op e)).
Proof.
  apply (after_preserves (λ e, well_keyed (result e))).
  - apply well_keyed_get_file.
  - apply well_keyed_call.
Qed.

Lemma operations_keep_own_keys_witness :
  let n := mkNode "model.p.a" "models/a.sql" "select 1" in
  let stored := mkSourceFile (FilePath "models/a.sql") "H1"
                  (Some "/p/models/a.sql") ["alias"] [] [] [] [] in
  let candidate := mkSourceFile (FilePath "models/a.sql") "H1"
                     (Some "/p/models/a.sql") [] [] [] [] [] in
  let old := mkParseResult "" "" ∅ {[ "alias" := n ]} ∅ ∅ ∅ ∅
               {[ "/p/models/a.sql" := 0 ]} ∅ "" in
  let e := mkEnv (rpc "" "0.17.0") {[ 0 := stored; 1 := candidate ]} in
  well_keyed (result e) ∧
  well_keyed (result (after (ReuseFile 3 old 1) e)) ∧
  r_nodes (result (after (ReuseFile 3 old 1) e)) !! "model.p.a" = Some n.
Proof.
  intros n stored candidate old e.
  assert (He : well_keyed (result e))
    by (apply (bool_decide_unpack _); vm_compute; reflexivity).
  split; [exact He|].
  split; [exact (operations_keep_own_keys (ReuseFile 3 old 1) e He)|].
  vm_compute. reflexivity.
Defined.

(** *** File objects are filed under their own key *)

Lemma call_result_files c r : files (call_result c r) = files r.
Proof. by destruct c. Qed.

Lemma call_append_same c f : same_file f (call_append c f).
Proof. by destruct c. Qed.

Lemma files_keyed_track sf f r h :
  h !! sf = Some f → files_keyed (mkEnv r h) → files_keyed (mkEnv (track sf f r) h).
Proof.
  intros Hf H. unfold track. destruct (search_key f) as [key|] eqn:Hkey; [|done].
  destruct (files r !! key) eqn:Hk; [done|].
  unfold files_keyed. simpl. apply map_Forall_insert_2; [|done]. by rewrite Hf.
Qed.

Lemma files_keyed_files r r' h :
  files r' = files r → files_keyed (mkEnv r h) → files_keyed (mkEnv r' h).
Proof. unfold files_keyed. simpl. by intros ->. Qed.

Lemma files_keyed_insert r h t ft x :
  h !! t = Some ft → same_file ft x →
  files_keyed (mkEnv r h) → files_keyed (mkEnv r (<[t := x]> h)).
Proof.
  intros Ht (_ & _ & Hx) H key l Hk. specialize (H key l Hk). simpl in *.
  destruct (decide (t = l)) as [->|Hne].
  - rewrite lookup_insert_eq. rewrite Ht in H. congruence.
  - by rewrite lookup_insert_ne.
Qed.

Lemma files_keyed_get_file sf : preserves files_keyed (get_file sf).
Proof.
  intros [r h] He. destruct (get_file_cases sf (mkEnv r h)) as [->|(f & Hf & ->)];
    [done|].
  by apply files_keyed_track.
Qed.

Lemma files_keyed_call sf c : preserves files_keyed (call sf c).
Proof.
  intros [r h] He.
  assert (He1 : files_keyed (mkEnv (call_result c r) h))
    by (revert He; apply files_keyed_files, call_result_files).
  destruct (call_cases sf c (mkEnv r h))
    as [->|[->|[(f & Hf & ->)|(f & ft & Hf & Ht & ->)]]]; simpl in *;
    [done|done|by apply files_keyed_track|].
  apply (files_keyed_insert _ _ _ ft); [done|apply call_append_same|].
  by apply files_keyed_track.
Qed.

(** X5.  Every file object of [files] sits under its own search key, and
    stays there: the property is kept by every operation, however it ends.
    So a file object without search key is never tracked. *)
Theorem operations_keep_files_keyed (op : Op) (e : Env) :
  files_keyed e → files_keyed (after op e).
Proof.
  apply (after_preserves files_keyed).
  - apply files_keyed_get_file.
  - apply files_keyed_call.
Qed.

Lemma operations_keep_files_keyed_witness :
  let d := mkDoc "doc.p.intro" "Welcome" in
  let tracked := mkSourceFile (FilePath "docs/a.md") "H1" (Some "/p/docs/a.md")
                   [] [] [] [] [] in
  let again := mkSourceFile (FilePath "docs/a.md") "H2" (Some "/p/docs/a.md")
                 [] [] [] [] [] in
  let keyless := mkSourceFile (FilePath "docs/b.md") "H3" None [] [] [] [] [] in
  let r := mkParseResult "" "" ∅ ∅ ∅ ∅ ∅ ∅ {[ "/p/docs/a.md" := 0 ]} ∅ "" in
  let e := mkEnv r {[ 0 := tracked; 1 := again; 2 := keyless ]} in
  files_keyed e ∧
  files_keyed (after (AddDoc 2 d) e) ∧
  files (result (after (AddDoc 2 d) e)) = {[ "/p/docs/a.md" := 0 ]}.
Proof.
  intros d tracked again keyless r e.
  assert (He : files_keyed e)
    by (apply (bool_decide_unpack _); vm_compute; reflexivity).
  split; [exact He|].
  split; [exact (operations_keep_files_keyed (AddDoc 2 d) e He)|].
  vm_compute. reflexivity.
Defined.

(** *** Every object lists registered ids only *)

Lemma call_result_grows c r : grows r (call_result c r).
Proof.
  destruct c as [d|m|s|n|n|p]; simpl;
    (split; [|split; [|split; [|split; [|split]]]]); simpl; try done;
    intros id Hid; apply lookup_insert_is_Some'; by right.
Qed.

Lemma call_append_registered c r ft :
  ids_registered (call_result c r) ft →
  ids_registered (call_result c r) (call_append c ft).
Proof.
  intros (Fn & Fs & Fd & Fm & Fp).
  destruct c as [d|m|s|n|n|p]; simpl in *;
    (split; [|split; [|split; [|split]]]); simpl; try done;
    (apply Forall_app; split; [done|]); apply Forall_singleton.
  - by rewrite lookup_insert_eq.
  - by rewrite lookup_insert_eq.
  - by rewrite lookup_insert_eq.
  - left. by rewrite lookup_insert_eq.
  - right. by rewrite lookup_insert_eq.
  - by rewrite lookup_insert_eq.
Qed.

Lemma refs_alive_track sf f r h :
  h !! sf = Some f → refs_alive (mkEnv r h) → refs_alive (mkEnv (track sf f r) h).
Proof.
  intros Hf H. unfold track. destruct (search_key f) as [key|]; [|done].
  destruct (files r !! key) eqn:Hk; [done|].
  unfold refs_alive. simpl. apply map_Forall_insert_2; [|done]. by rewrite Hf.
Qed.

Lemma refs_alive_call sf c : preserves refs_alive (call sf c).
Proof.
  intros [r h] He.
  assert (He1 : refs_alive (mkEnv (call_result c r) h)).
  { unfold refs_alive in *. simpl in *. by rewrite call_result_files. }
  destruct (call_cases sf c (mkEnv r h))
    as [->|[->|[(f & Hf & ->)|(f & ft & Hf & Ht & ->)]]]; simpl in *;
    [done|done|by apply refs_alive_track|].
  apply (refs_alive_track sf f _ _ Hf) in He1.
  intros key l Hk. simpl. rewrite lookup_insert_is_Some'. right.
  apply (He1 key l Hk).
Qed.

(** *** Registries grown from [ParseResult.rpc()] *)

Lemma rpc_well_keyed hash version : well_keyed (rpc hash version).
Proof.
  unfold well_keyed, rpc. simpl.
  split; [|split; [|split; [|split; [|split]]]]; apply map_Forall_empty.
Qed.

(** ** Reuse at its edges *)

(** X8.  A file the old registry knows nothing about is still reused with
    success.  When the record [old_result.get_file(source_file)] returns
    lists no ids (as it does when the key of a fresh file was not tracked,
    the file then being its own record), [sanitized_update] returns [True]
    on any non-remote file, inserts nothing into [self] and does not track
    the file there; its one effect is that [old_result] tracks the file. *)
Theorem reuse_of_unknown_file
    (fuel : nat) (sf : loc) (p : Pass) (f fo : SourceFile) :
  objects p !! sf = Some f → isinstance_RemoteFile (path f) = false →
  objects p !! target (old_result p) sf f = Some fo → fresh_file fo →
  sanitized_update (S fuel) sf p =
    (Ok true, mkPass (self p) (track sf f (old_result p)) (objects p)).
Proof.
  intros Hf Hremote Hfo (En & Ed & Em & Es & Ep).
  destruct p as [new old h]. simpl in *.
  unfold sanitized_update, bind at 1, on_self at 1, deref. simpl.
  rewrite Hf, Hremote.
  unfold bind at 1, on_old. cbn [self old_result objects result store].
  rewrite (get_file_run (mkEnv old h) sf f Hf). simpl.
  unfold bind, live. simpl.
  do 5 (rewrite Hfo; simpl; rewrite ?Ed, ?Em, ?Es, ?En, ?Ep; simpl).
  done.
Qed.

Lemma reuse_of_unknown_file_witness :
  let f := mkSourceFile (FilePath "models/new.sql") "H1"
             (Some "/p/models/new.sql") [] [] [] [] [] in
  let old := mkParseResult "" "" ∅ ∅ ∅ ∅ ∅ ∅ ∅ ∅ "" in
  let p := mkPass (rpc "" "0.17.0") old {[ 0 := f ]} in
  sanitized_update 1 0 p =
    (Ok true,
     mkPass (rpc "" "0.17.0")
       (set_files <[ "/p/models/new.sql" := 0 ]> old) {[ 0 := f ]}).
Proof.
  intros f old p.
  apply (reuse_of_unknown_file 0 0 p f f).
  - reflexivity.
  - reflexivity.
  - reflexivity.
  - apply (bool_decide_unpack _). vm_compute. reflexivity.
Defined.

(** A value that no continuation returns is not returned. *)
Lemma never_returns_bind {St A B} (b : B) (m : M St A) (k : A → M St B) s :
  (∀ a s', fst (k a s') = Ok b → False) → fst (bind m k s) = Ok b → False.
Proof.
  intros Hk. unfold bind. destruct (m s) as [[a|exn| |] s']; simpl; try done.
  apply Hk.
Qed.

(** X9.  [sanitized_update] returns [False] for remote files and for no
    other: whenever it returns on a file that is not remote it returns
    [True], and a reuse that cannot be completed ends in an exception, not
    in [False]. *)
Theorem reuse_refuses_only_remote_files
    (fuel : nat) (sf : loc) (p : Pass) (f : SourceFile) :
  objects p !! sf = Some f →
  (fst (sanitized_update fuel sf p) = Ok false ↔
   isinstance_RemoteFile (path f) = true).
Proof.
  intros Hf. split.
  - destruct (isinstance_RemoteFile (path f)) eqn:Hremote; [done|].
    intros Hfalse. exfalso. revert Hfalse.
    unfold sanitized_update, bind at 1, on_self at 1, deref. simpl.
    rewrite Hf, Hremote.
    apply never_returns_bind. intros old_file s1.
    do 5 (apply never_returns_bind; intros ? ?). done.
  - intros Hremote. unfold sanitized_update, bind, on_self, deref. simpl.
    by rewrite Hf, Hremote.
Qed.

Lemma reuse_refuses_only_remote_files_witness :
  let f := mkSourceFile (RemoteFile "from remote system") "H1" None
             [] [] [] [] [] in
  let p := mkPass (rpc "" "0.17.0") (rpc "" "0.17.0") {[ 0 := f ]} in
  fst (sanitized_update 1 0 p) = Ok false ↔
  isinstance_RemoteFile (path f) = true.
Proof.
  intros f p. apply (reuse_refuses_only_remote_files 1 0 p f). reflexivity.
Defined.

(** ** What [has_file] answers after the registry has moved *)

Lemma has_file_run e sf f key l stored :
  store e !! sf = Some f → search_key f = Some key →
  files (result e) !! key = Some l → store e !! l = Some stored →
  has_file sf e = (Ok (bool_decide (checksum stored = checksum f)), e).
Proof.
  intros Hf Hkey Hk Hl. destruct e as [r h]. simpl in *.
  unfold has_file, bind, deref, gets, ret. simpl.
  rewrite Hf. simpl. rewrite Hkey. simpl. rewrite Hk. simpl. by rewrite Hl.
Qed.

Lemma has_file_true_inv e sf :
  fst (has_file sf e) = Ok true →
  ∃ f key l stored,
    store e !! sf = Some f ∧ search_key f = Some key ∧
    files (result e) !! key = Some l ∧ store e !! l = Some stored ∧
    checksum stored = checksum f.
Proof.
  destruct e as [r h]. unfold has_file, bind, deref, gets, ret. simpl.
  destruct (h !! sf) as [f|] eqn:Hf; simpl; [|done].
  destruct (search_key f) as [key|] eqn:Hkey; simpl; [|done].
  destruct (files r !! key) as [l|] eqn:Hk; simpl; [|done].
  destruct (h !! l) as [stored|] eqn:Hl; simpl; [|done].
  intros [= Htrue]. apply bool_decide_eq_true in Htrue.
  by exists f, key, l, stored.
Qed.

(** X10.  Once [has_file] answers [True] for a file object it keeps doing
    so: no sequence of operations on the registry, on this or other files
    and however each ends, replaces or removes the record under the key or
    changes a fingerprint. *)
Theorem has_file_stays_true (ops : list Op) (e : Env) (sf : loc) :
  fst (has_file sf e) = Ok true →
  has_file sf (run_ops ops e) = (Ok true, run_ops ops e).
Proof.
  intros Htrue.
  destruct (has_file_true_inv e sf Htrue)
    as (f & key & l & stored & Hf & Hkey & Hk & Hl & Hsum).
  destruct (run_ops_later ops e e (reflexivity _))
    as [(_ & _ & _ & Hfiles & _) [_ Hstore]].
  destruct (Hstore sf f Hf) as (f' & Hf' & (_ & Hsum' & Hkey') & _).
  destruct (Hstore l stored Hl) as (stored' & Hl' & (_ & Hsum'' & _) & _).
  rewrite (has_file_run (run_ops ops e) sf f' key l stored'); try done.
  - by rewrite bool_decide_eq_true_2 by congruence.
  - congruence.
  - by apply (lookup_weaken _ _ _ _ Hk).
Qed.

Lemma has_file_stays_true_witness :
  let n := mkNode "model.p.a" "models/a.sql" "select 1" in
  let d := mkDoc "doc.p.intro" "Welcome" in
  let tracked := mkSourceFile (FilePath "models/a.sql") "H1"
                   (Some "/p/models/a.sql") [] [] [] [] [] in
  let again := mkSourceFile (FilePath "models/a.sql") "H1"
                 (Some "/p/models/a.sql") [] [] [] [] [] in
  let r := mkParseResult "" "" ∅ ∅ ∅ ∅ ∅ ∅ {[ "/p/models/a.sql" := 0 ]} ∅ "" in
  let e := mkEnv r {[ 0 := tracked; 1 := again ]} in
  let ops := [AddNode 1 n; AddNode 0 n; AddDoc 1 d] in
  has_file 1 (run_ops ops e) = (Ok true, run_ops ops e).
Proof.
  intros n d tracked again r e ops.
  apply (has_file_stays_true ops e 1). vm_compute. reflexivity.
Defined.

Lemma call_first sf c e f key :
  store e !! sf = Some f → search_key f = Some key →
  files (result e) !! key = None → call_fresh c (result e) →
  call sf c e =
    (Ok tt,
     mkEnv (set_files <[key := sf]> (call_result c (result e)))
       (<[sf := call_append c f]> (store e))).
Proof.
  intros Hf Hkey Hnone Hfresh. rewrite (call_unfold sf c e Hfresh).
  unfold bind. rewrite (get_file_run (on_result (call_result c) e) sf f) by done.
  unfold target, track, on_result. cbn [result store].
  rewrite Hkey, call_result_files, Hnone.
  unfold mutate, bind, deref, modify. simpl. by rewrite Hf.
Qed.

(** X11.  The first file that reaches a registry under a search key decides
    what [has_file] answers for that key.  While the key is not tracked
    [has_file] answers [False]; after [get_file] or an insertion method
    that returns has been called with a file object under that key,
    [has_file] answers for every file object with the same key whether
    its fingerprint is that of the first one. *)
Theorem first_file_decides_has_file
    (e : Env) (sf sf2 : loc) (f f2 : SourceFile) (key : string) :
  store e !! sf = Some f → search_key f = Some key →
  files (result e) !! key = None →
  store e !! sf2 = Some f2 → search_key f2 = Some key →
  let answer := bool_decide (checksum f = checksum f2) in
  has_file sf2 e = (Ok false, e) ∧
  has_file sf2 (snd (get_file sf e)) = (Ok answer, snd (get_file sf e)) ∧
  (∀ c e', call sf c e = (Ok tt, e') → has_file sf2 e' = (Ok answer, e')).
Proof.
  intros Hf Hkey Hnone Hf2 Hkey2 answer. split; [|split].
  - destruct e as [r h]. simpl in *.
    unfold has_file, bind, deref, gets, ret. simpl.
    rewrite Hf2. simpl. rewrite Hkey2. simpl. by rewrite Hnone.
  - rewrite (get_file_run e sf f Hf). simpl.
    apply (has_file_run _ sf2 f2 key sf f); simpl; try done.
    unfold track. rewrite Hkey, Hnone. simpl. by rewrite lookup_insert_eq.
  - intros c e' Hcall.
    destruct (decide (call_fresh c (result e))) as [Hfresh|Hstale];
      [|by destruct (call_stale sf c e Hstale) as (exn & Hraise & _);
        rewrite Hraise in Hcall].
    rewrite (call_first sf c e f key) in Hcall by done. simplify_eq.
    assert (Hsum : checksum (call_append c f) = checksum f) by (by destruct c).
    destruct (decide (sf2 = sf)) as [->|Hne].
    + assert (f2 = f) as -> by congruence.
      rewrite (has_file_run _ sf (call_append c f) key sf (call_append c f));
        simpl; try done; try (by rewrite lookup_insert_eq).
      * unfold answer. by rewrite !bool_decide_eq_true_2.
      * by destruct c.
    + rewrite (has_file_run _ sf2 f2 key sf (call_append c f));
        simpl; try done; try (by rewrite lookup_insert_eq).
      * unfold answer. by rewrite Hsum.
      * by rewrite lookup_insert_ne.
Qed.

Lemma first_file_decides_has_file_witness :
  let n := mkNode "model.p.a" "models/a.sql" "select 1" in
  let first := mkSourceFile (FilePath "models/a.sql") "H1"
                 (Some "/p/models/a.sql") [] [] [] [] [] in
  let edited := mkSourceFile (FilePath "models/a.sql") "H2"
                  (Some "/p/models/a.sql") [] [] [] [] [] in
  let e := mkEnv (rpc "" "0.17.0") {[ 0 := first; 1 := edited ]} in
  has_file 1 e = (Ok false, e) ∧
  has_file 1 (snd (get_file 0 e)) = (Ok false, snd (get_file 0 e)) ∧
  (∀ c e', call 0 c e = (Ok tt, e') → has_file 1 e' = (Ok false, e')).
Proof.
  intros n first edited e.
  apply (first_file_decides_has_file e 0 1 first edited "/p/models/a.sql");
    reflexivity.
Defined.

(** ** What an operation files *)

Lemma gained_refl sf e : gained sf e e.
Proof. split; [done|by left]. Qed.

Lemma gained_files sf e r1 r2 h :
  files r2 = files r1 → gained sf e (mkEnv r1 h) → gained sf e (mkEnv r2 h).
Proof. unfold gained. simpl. by intros ->. Qed.

Lemma gained_track sf e r1 h f1 :
  h !! sf = Some f1 →
  gained sf e (mkEnv r1 h) → gained sf e (mkEnv (track sf f1 r1) h).
Proof.
  intros Hf1 [Hkey Hfiles]. simpl in *. split; [done|]. simpl. unfold track.
  destruct (search_key f1) as [key|] eqn:Hk1; [|done].
  destruct (files r1 !! key) eqn:Hlook; [done|]. simpl.
  rewrite Hf1 in Hkey. simpl in Hkey.
  destruct (store e !! sf) as [f|] eqn:Hf; [|done]. simpl in Hkey.
  injection Hkey as Hkey.
  destruct Hfiles as [Hsame|(f' & key' & Hf' & Hkey' & Hnone & Hins)].
  - right. exists f, key. rewrite <- Hsame.
    split; [done|]. split; [congruence|]. by split.
  - exfalso. simplify_eq. assert (key' = key) as -> by congruence.
    by rewrite Hins, lookup_insert_eq in Hlook.
Qed.

Lemma gained_insert sf e r h t ft x :
  h !! t = Some ft → same_file ft x →
  gained sf e (mkEnv r h) → gained sf e (mkEnv r (<[t := x]> h)).
Proof.
  intros Ht (_ & _ & Hx) [Hkey Hfiles]. split; [|done]. simpl in *.
  destruct (decide (t = sf)) as [->|Hne].
  - rewrite lookup_insert_eq. rewrite Ht in Hkey. simpl in *. by rewrite Hx.
  - by rewrite lookup_insert_ne.
Qed.

Lemma gained_get_file sf e : preserves (gained sf e) (get_file sf).
Proof.
  intros [r h] He. destruct (get_file_cases sf (mkEnv r h)) as [->|(f & Hf & ->)];
    [done|].
  by apply gained_track.
Qed.

Lemma gained_call sf e c : preserves (gained sf e) (call sf c).
Proof.
  intros [r h] He.
  assert (He1 : gained sf e (mkEnv (call_result c r) h))
    by (revert He; apply gained_files, call_result_files).
  destruct (call_cases sf c (mkEnv r h))
    as [->|[->|[(f & Hf & ->)|(f & ft & Hf & Ht & ->)]]]; simpl in *;
    [done|done|by apply gained_track|].
  apply (gained_insert _ _ _ _ _ ft); [done|apply call_append_same|].
  by apply gained_track.
Qed.

(** X12.  An operation files nothing but the file it is called with.
    After [get_file], an insertion method or [sanitized_update] on [self],
    however the call ends, [files] is as before or has one more entry: the
    file object of the call under its search key, which was free. *)
Theorem operations_file_only_their_file (op : Op) (e : Env) :
  files (result (after op e)) = files (result e) ∨
  ∃ f key, store e !! op_file op = Some f ∧ search_key f = Some key ∧
    files (result e) !! key = None ∧
    files (result (after op e)) = <[key := op_file op]> (files (result e)).
Proof.
  assert (H : gained (op_file op) e (after op e)).
  { apply (after_preserves (gained (op_file op) e) op).
    - apply gained_get_file.
    - apply gained_call.
    - apply gained_refl. }
  apply H.
Qed.

(** ** Reuse as a replay, in general *)

Lemma calls_of_track sf f0 old f fo :
  calls_of (track sf f0 old) f fo = calls_of old f fo.
Proof.
  unfold track. destruct (search_key f0); [|done].
  by destruct (files old !! _).
Qed.

Lemma appended_disabled vs :
  appended (CallDisabled <$> vs) = ([], [], [], unique_id <$> vs, []).
Proof.
  induction vs as [|v vs IH]; [done|].
  change (CallDisabled <$> v :: vs)
    with ([CallDisabled v] ++ (CallDisabled <$> vs)).
  by rewrite appended_calls_app, IH.
Qed.

Lemma appended_calls_of old f fo :
  appended (calls_of old f fo) = reused_ids old f fo.
Proof.
  assert (Hd : ∀ ids, appended (ids ≫= doc_calls old)
                      = (ids ≫= ids_under unique_id (r_docs old), [], [], [], [])).
  { induction ids as [|id ids IH]; [done|].
    rewrite !bind_cons, appended_calls_app, IH. unfold doc_calls, ids_under.
    by destruct (r_docs old !! id). }
  assert (Hm : ∀ ids, appended (ids ≫= macro_calls old)
                      = ([], ids ≫= ids_under unique_id (r_macros old), [], [], [])).
  { induction ids as [|id ids IH]; [done|].
    rewrite !bind_cons, appended_calls_app, IH. unfold macro_calls, ids_under.
    by destruct (r_macros old !! id). }
  assert (Hs : ∀ ids, appended (ids ≫= source_calls old)
                      = ([], [], ids ≫= ids_under unique_id (r_sources old), [], [])).
  { induction ids as [|id ids IH]; [done|].
    rewrite !bind_cons, appended_calls_app, IH. unfold source_calls, ids_under.
    by destruct (r_sources old !! id). }
  assert (Hn : ∀ ids, appended (ids ≫= node_calls old f)
                      = ([], [], [], ids ≫= node_ids old f, [])).
  { induction ids as [|id ids IH]; [done|].
    rewrite !bind_cons, appended_calls_app, IH. unfold node_calls, node_ids.
    destruct (r_nodes old !! id); [done|]. by rewrite appended_disabled. }
  assert (Hp : ∀ ids, appended (ids ≫= patch_calls old)
                      = ([], [], [], [], ids ≫= ids_under name (r_patches old))).
  { induction ids as [|id ids IH]; [done|].
    rewrite !bind_cons, appended_calls_app, IH. unfold patch_calls, ids_under.
    by destruct (r_patches old !! id). }
  unfold calls_of, reused_ids.
  rewrite !appended_calls_app, Hd, Hm, Hs, Hn, Hp. simpl.
  by rewrite !app_nil_r.
Qed.

(** X13.  A reuse is a replay of insertions, whatever the old registry
    holds.  If the old record lists registered ids only, is another object
    than the record of the file in [self], and the duplicate checks pass,
    then [sanitized_update] returns [True] and has done to [self] and to
    the store exactly what the insertion calls for the entries of the old
    record do, in order: one call per doc, macro, source and patch entry
    and per node id that is a key of [nodes], and for a node id that is
    only a key of [disabled] one [add_disabled] per variant from the path
    of the file, which may be none or several.  The record of the file in
    [self] gains the own ids of the artifacts inserted, no other object
    changes, and [old_result] has at most come to track the file. *)
Theorem reuse_replays_insertions
    (fuel : nat) (sf : loc) (p : Pass) (f fo ft : SourceFile) :
  objects p !! sf = Some f → isinstance_RemoteFile (path f) = false →
  objects p !! target (old_result p) sf f = Some fo →
  objects p !! target (self p) sf f = Some ft →
  target (self p) sf f ≠ target (old_result p) sf f →
  (fuel_for fo ≤ fuel)%nat →
  ids_registered (old_result p) fo →
  calls_fresh sf f (calls_of (old_result p) f fo) (mkEnv (self p) (objects p)) →
  ∃ p',
    sanitized_update fuel sf p = (Ok true, p') ∧
    for_each (call sf) (calls_of (old_result p) f fo)
      (mkEnv (self p) (objects p))
    = (Ok tt, mkEnv (self p') (objects p')) ∧
    old_result p' = track sf f (old_result p) ∧
    (let '(d, m, s, n, pt) := reused_ids (old_result p) f fo in
     objects p' !! target (self p) sf f =
       Some (mkSourceFile (path ft) (checksum ft) (search_key ft)
               (nodes ft ++ n) (docs ft ++ d) (macros ft ++ m)
               (sources ft ++ s) (patches ft ++ pt))) ∧
    (∀ l, l ≠ target (self p) sf f → objects p' !! l = objects p !! l).
Proof.
  intros Hf Hremote Hlo Ht Hne Hfuel Hreg Hfresh.
  destruct p as [new old h]. simpl in *.
  destruct (fuel_for_enough fo fuel Hfuel) as (Ld & Lm & Ls & Ln & Lp).
  destruct (sanitized_update_snapshot fuel sf (mkPass new old h) f fo)
    as [Hrun HP]; simpl; try done.
  simpl in Hrun, HP.
  apply (ids_registered_track sf f) in Hreg as (Pn & Ps & Pd & Pm & Pp).
  rewrite <- (calls_of_track sf f old f fo) in Hfresh.
  pose proof (reuse_snapshot_run sf f _ _ fo (track sf f old) _ HP
                Pd Pm Ps Pn Pp Hfresh) as Hsnap.
  destruct HP as (_ & _ & _ & Hreached).
  destruct (calls_run sf f _ (calls_of (track sf f old) f fo) _ Hreached Hfresh)
    as [Hcalls _].
  rewrite (calls_of_track sf f old f fo) in *.
  set (cs := calls_of old f fo) in *.
  set (e' := foldl (apply_call sf f) (mkEnv new h) cs) in *.
  exists (pass_after sf f cs (mkPass new (track sf f old) h)).
  split; [by rewrite Hrun|].
  unfold pass_after. simpl. fold e'.
  simpl in Hcalls. fold e' in Hcalls.
  split; [rewrite Hcalls; by destruct e'|]. split; [done|].
  split; [|intros l Hl; by apply (foldl_apply_store_ne sf f cs (mkEnv new h))].
  pose proof (foldl_apply_store sf f cs (mkEnv new h) ft Ht) as Hstore.
  simpl in Hstore. fold e' in Hstore.
  rewrite Hstore, foldl_call_append.
  unfold cs. by rewrite appended_calls_of.
Qed.

Lemma reuse_replays_insertions_witness :
  let v1 := mkNode "model.p.a" "models/a.sql" "select 1" in
  let v2 := mkNode "model.p.a" "models/a.sql" "select 2" in
  let w := mkNode "model.p.b" "models/b.sql" "select 3" in
  let stored := mkSourceFile (FilePath "models/a.sql") "H1"
                  (Some "/p/models/a.sql") ["model.p.a"; "model.p.b"] [] [] [] [] in
  let candidate := mkSourceFile (FilePath "models/a.sql") "H1"
                     (Some "/p/models/a.sql") [] [] [] [] [] in
  let old := mkParseResult "" "" ∅ ∅ ∅ ∅ ∅ ∅ {[ "/p/models/a.sql" := 0 ]}
               {[ "model.p.a" := [v1; v2]; "model.p.b" := [w] ]} "" in
  let p := mkPass (rpc "" "0.17.0") old {[ 0 := stored; 1 := candidate ]} in
  ∃ p',
    sanitized_update 3 1 p = (Ok true, p') ∧
    for_each (call 1) [CallDisabled v1; CallDisabled v2]
      (mkEnv (self p) (objects p))
    = (Ok tt, mkEnv (self p') (objects p')) ∧
    old_result p' = old ∧
    objects p' !! 1 =
      Some (mkSourceFile (FilePath "models/a.sql") "H1" (Some "/p/models/a.sql")
              ["model.p.a"; "model.p.a"] [] [] [] []) ∧
    (∀ l, l ≠ 1 → objects p' !! l = objects p !! l).
Proof.
  intros v1 v2 w stored candidate old p.
  apply (reuse_replays_insertions 3 1 p candidate stored candidate).
  - reflexivity.
  - reflexivity.
  - reflexivity.
  - reflexivity.
  - vm_compute. discriminate.
  - vm_compute. lia.
  - apply (bool_decide_unpack _). vm_compute. reflexivity.
  - vm_compute. tauto.
Defined.

(** ** Reuse from the record it writes to *)

Lemma bind_out_of_fuel {St A B} (m : M St A) (k : A → M St B) s :
  fst (m s) = OutOfFuel → fst (bind m k s) = OutOfFuel.
Proof. unfold bind. by destruct (m s) as [[a|exn| |] s']. Qed.

(** The loop over the docs of a record that is also the record the
    insertions append to never reaches the end of the list. *)
Lemma shared_docs_loop sf f t old fuel i q ft :
  old_result q = old → reached sf f t (mkEnv (self q) (objects q)) →
  objects q !! t = Some ft →
  Forall (λ id, ∃ d, r_docs old !! id = Some d ∧ unique_id d = id) (docs ft) →
  i < length (docs ft) →
  fst (for_in fuel (live t docs) (reuse_doc sf) i q) = OutOfFuel.
Proof.
  revert i q ft.
  induction fuel as [|fuel IH]; intros i q ft Hold Hr Ht Hall Hi; [done|].
  simpl. unfold live at 1. rewrite Ht. simpl.
  destruct (lookup_lt_is_Some_2 (docs ft) i Hi) as [id Hid]. rewrite Hid.
  destruct (proj1 (Forall_forall _ _) Hall id (list_elem_of_lookup_2 _ _ _ Hid))
    as (d & Hd & Hk).
  destruct (call_run sf f t _ (CallDoc d) Hr) as [(_ & Hrun & Hr')|(Hn & _)];
    [|by destruct Hn].
  assert (Hbody : reuse_doc sf id q = (Ok tt, pass_after sf f [CallDoc d] q)).
  { unfold reuse_doc, bind at 1, gets. cbn [fst snd]. rewrite Hold.
    unfold _expect_value. rewrite Hd. unfold bind, ret, on_self.
    simpl in Hrun. by rewrite Hrun. }
  unfold bind. rewrite Hbody.
  destruct Hr as (_ & Htarget & _). simpl in Htarget.
  apply (IH (S i) _ (docs_append (unique_id d) ft)).
  - done.
  - exact Hr'.
  - unfold pass_after. simpl. by rewrite Htarget, lookup_alter_eq, Ht.
  - simpl. apply Forall_app. split; [done|]. apply Forall_singleton.
    exists d. split; [|done]. simpl in *. congruence.
  - simpl. rewrite length_app. simpl. lia.
Qed.

(** X14.  Reuse must not read from the record it writes to.  When
    [old_result] and [self] resolve the file to the same record object,
    and that record lists a doc, each doc id it lists being the id of its
    doc in the old registry, the first loop of [sanitized_update] appends
    to the list it iterates over and visits what it appends: the reuse
    never returns and never raises, it runs out of any amount of fuel. *)
Theorem reuse_of_shared_record_never_ends
    (fuel : nat) (sf : loc) (p : Pass) (f fo : SourceFile) :
  objects p !! sf = Some f → isinstance_RemoteFile (path f) = false →
  target (self p) sf f = target (old_result p) sf f →
  objects p !! target (old_result p) sf f = Some fo →
  docs fo ≠ [] →
  Forall (λ id, ∃ d, r_docs (old_result p) !! id = Some d ∧ unique_id d = id)
    (docs fo) →
  fst (sanitized_update fuel sf p) = OutOfFuel.
Proof.
  intros Hf Hremote Hshared Hfo Hdocs Hall.
  destruct p as [new old h]. simpl in *.
  unfold sanitized_update, bind at 1, on_self at 1, deref. simpl.
  rewrite Hf, Hremote.
  unfold bind at 1, on_old. cbn [self old_result objects result store].
  rewrite (get_file_run (mkEnv old h) sf f Hf). simpl.
  apply bind_out_of_fuel.
  apply (shared_docs_loop sf f (target old sf f) (track sf f old) fuel 0 _ fo).
  - done.
  - split; [|split]; simpl.
    + exists f. split; [done|apply same_file_refl].
    + done.
    + by rewrite Hfo.
  - done.
  - by destruct (track_maps sf f old) as (_ & _ & -> & _).
  - destruct (docs fo); [done|simpl; lia].
Qed.

Lemma reuse_of_shared_record_never_ends_witness :
  let d := mkDoc "doc.p.intro" "Welcome" in
  let f := mkSourceFile (FilePath "docs/a.md") "H1" (Some "/p/docs/a.md")
             [] ["doc.p.intro"] [] [] [] in
  let old := mkParseResult "" "" ∅ ∅ ∅ {[ "doc.p.intro" := d ]} ∅ ∅
               {[ "/p/docs/a.md" := 0 ]} ∅ "" in
  let p := mkPass (rpc "" "0.17.0") old {[ 0 := f ]} in
  fst (sanitized_update 1000 0 p) = OutOfFuel.
Proof.
  intros d f old p.
  apply (reuse_of_shared_record_never_ends 1000 0 p f f).
  - reflexivity.
  - reflexivity.
  - reflexivity.
  - reflexivity.
  - discriminate.
  - apply Forall_cons. split; [|by apply Forall_nil].
    exists d. split; reflexivity.
Defined.

(** ** Insertions for different files *)

Lemma call_result_track c sf f r :
  call_result c (track sf f r) = track sf f (call_result c r).
Proof.
  unfold track. destruct (search_key f) as [key|]; [|done].
  rewrite call_result_files. destruct (files r !! key); [done|].
  by destruct c.
Qed.

Lemma track_commute sf1 f1 sf2 f2 r :
  search_key f1 ≠ search_key f2 →
  track sf1 f1 (track sf2 f2 r) = track sf2 f2 (track sf1 f1 r).
Proof.
  intros Hne. unfold track.
  destruct (search_key f1) as [k1|], (search_key f2) as [k2|]; try done.
  assert (k1 ≠ k2) by congruence.
  destruct (files r !! k1) eqn:H1, (files r !! k2) eqn:H2; simpl;
    rewrite ?lookup_insert_ne, ?H1, ?H2 by done; try done.
  unfold set_files. simpl. f_equal. by apply insert_insert_ne.
Qed.

Lemma call_result_commute c1 c2 r :
  call_slot c1 ≠ call_slot c2 →
  call_result c1 (call_result c2 r) = call_result c2 (call_result c1 r).
Proof.
  intros Hne.
  destruct c1, c2; simpl in *; try done;
    unfold set_docs, set_macros, set_sources, set_nodes, set_disabled,
      set_patches; simpl; f_equal;
    rewrite ?lookup_insert_ne by congruence;
    apply insert_insert_ne; congruence.
Qed.

Lemma call_fresh_other c1 c2 r :
  call_slot c1 ≠ call_slot c2 → call_fresh c2 r → call_fresh c2 (call_result c1 r).
Proof.
  intros Hne. destruct c1, c2; simpl in *; try done; intros Hfresh;
    rewrite lookup_insert_ne by congruence; done.
Qed.

Lemma call_fresh_track c sf f r : call_fresh c (track sf f r) ↔ call_fresh c r.
Proof.
  unfold call_fresh.
  destruct (track_maps sf f r) as (-> & -> & _ & _ & -> & _). done.
Qed.

Lemma target_track_other sf1 f1 sf2 f2 r :
  search_key f1 ≠ search_key f2 →
  target (track sf1 f1 r) sf2 f2 = target r sf2 f2.
Proof.
  intros Hne. unfold target, track.
  destruct (search_key f2) as [k2|]; [|done].
  destruct (search_key f1) as [k1|]; [|done].
  destruct (files r !! k1); [done|]. simpl.
  rewrite lookup_insert_ne by congruence. done.
Qed.

(** The second of two calls for different files runs as if it were the
    first. *)
Lemma call_after_other e sf1 sf2 f1 f2 ft1 ft2 c1 c2 :
  store e !! sf1 = Some f1 → store e !! sf2 = Some f2 →
  search_key f1 ≠ search_key f2 →
  store e !! target (result e) sf1 f1 = Some ft1 →
  store e !! target (result e) sf2 f2 = Some ft2 →
  target (result e) sf1 f1 ≠ target (result e) sf2 f2 →
  call_slot c1 ≠ call_slot c2 →
  call_fresh c1 (result e) → call_fresh c2 (result e) →
  (call sf1 c1 ;;; call sf2 c2) e =
    (Ok tt, apply_call sf2 f2 (apply_call sf1 f1 e c1) c2) ∧
  target (result (apply_call sf1 f1 e c1)) sf2 f2 = target (result e) sf2 f2.
Proof.
  intros Hf1 Hf2 Hkeys Ht1 Ht2 Hts Hslots Hfresh1 Hfresh2.
  assert (Hr1 : reached sf1 f1 (target (result e) sf1 f1) e).
  { split; [|split]; [|done|by rewrite Ht1].
    exists f1. split; [done|apply same_file_refl]. }
  destruct (call_run sf1 f1 _ e c1 Hr1) as [(_ & Hrun1 & _)|(Hn & _)]; [|done].
  set (e1 := apply_call sf1 f1 e c1) in *.
  assert (Htarget : target (result e1) sf2 f2 = target (result e) sf2 f2).
  { unfold e1, apply_call. simpl.
    by rewrite (target_track_other sf1 f1 sf2 f2), target_call_result. }
  assert (Hr2 : reached sf2 f2 (target (result e) sf2 f2) e1).
  { split; [|split]; [|done|].
    - unfold e1, apply_call. simpl.
      destruct (decide (target (result e) sf1 f1 = sf2)) as [Heq|Hne].
      + rewrite Heq, lookup_alter_eq, Hf2. simpl. eexists. split; [done|].
        apply same_file_call_append.
      + rewrite lookup_alter_ne by done. exists f2.
        split; [done|apply same_file_refl].
    - unfold e1, apply_call. simpl. rewrite lookup_alter_ne by done.
      by rewrite Ht2. }
  assert (Hfresh2' : call_fresh c2 (result e1)).
  { unfold e1, apply_call. simpl. by apply call_fresh_track, call_fresh_other. }
  destruct (call_run sf2 f2 _ e1 c2 Hr2) as [(_ & Hrun2 & _)|(Hn & _)]; [|done].
  unfold bind. by rewrite Hrun1, Hrun2.
Qed.

(** X15.  Insertions for different files commute.  Two insertion calls
    that pass their duplicate checks, are made for files with different
    search keys whose records are different objects, and insert under
    different keys or into different mappings, return in either order and
    leave the same registry and the same file objects behind. *)
Theorem insertions_for_different_files_commute
    (e : Env) (sf1 sf2 : loc) (f1 f2 ft1 ft2 : SourceFile) (c1 c2 : Call) :
  store e !! sf1 = Some f1 → store e !! sf2 = Some f2 →
  search_key f1 ≠ search_key f2 →
  store e !! target (result e) sf1 f1 = Some ft1 →
  store e !! target (result e) sf2 f2 = Some ft2 →
  target (result e) sf1 f1 ≠ target (result e) sf2 f2 →
  call_slot c1 ≠ call_slot c2 →
  call_fresh c1 (result e) → call_fresh c2 (result e) →
  ∃ e', (call sf1 c1 ;;; call sf2 c2) e = (Ok tt, e') ∧
        (call sf2 c2 ;;; call sf1 c1) e = (Ok tt, e').
Proof.
  intros Hf1 Hf2 Hkeys Ht1 Ht2 Hts Hslots Hfresh1 Hfresh2.
  destruct (call_after_other e sf1 sf2 f1 f2 ft1 ft2 c1 c2) as [H12 T12];
    try done.
  destruct (call_after_other e sf2 sf1 f2 f1 ft2 ft1 c2 c1) as [H21 T21];
    try done.
  eexists. split; [exact H12|]. rewrite H21. f_equal.
  unfold apply_call at 1 3. rewrite T12, T21. f_equal.
  - unfold apply_call. simpl.
    rewrite !call_result_track, (call_result_commute c2 c1) by done.
    by apply track_commute.
  - unfold apply_call. simpl. by apply alter_alter_ne.
Qed.

Lemma insertions_for_different_files_commute_witness :
  let n := mkNode "model.p.a" "models/a.sql" "select 1" in
  let d := mkDoc "doc.p.intro" "Welcome" in
  let fa := mkSourceFile (FilePath "models/a.sql") "H1" (Some "/p/models/a.sql")
              [] [] [] [] [] in
  let fb := mkSourceFile (FilePath "docs/b.md") "H2" (Some "/p/docs/b.md")
              [] [] [] [] [] in
  let e := mkEnv (rpc "" "0.17.0") {[ 0 := fa; 1 := fb ]} in
  ∃ e', (call 0 (CallNode n) ;;; call 1 (CallDoc d)) e = (Ok tt, e') ∧
        (call 1 (CallDoc d) ;;; call 0 (CallNode n)) e = (Ok tt, e').
Proof.
  intros n d fa fb e.
  apply (insertions_for_different_files_commute e 0 1 fa fb fa fb
           (CallNode n) (CallDoc d)).
  - reflexivity.
  - reflexivity.
  - discriminate.
  - reflexivity.
  - reflexivity.
  - vm_compute. discriminate.
  - discriminate.
  - reflexivity.
  - exact I.
Defined.

(** ** A reuse that fails *)

Lemma for_each_app {St A} (body : A → M St unit) xs ys s :
  for_each body (xs ++ ys) s = (for_each body xs ;;; for_each body ys) s.
Proof.
  revert s. induction xs as [|x xs IH]; intros s; simpl; [done|].
  unfold bind. destruct (body x s) as [[[]|exn| |] s']; [apply IH|done..].
Qed.

Lemma calls_fresh_unchecked sf f cs e :
  Forall (λ c, ∀ r, call_fresh c r) cs → calls_fresh sf f cs e.
Proof.
  revert e. induction cs as [|c cs IH]; intros e Hall; [done|].
  apply Forall_cons in Hall as [Hc Hcs]. split; [apply Hc|by apply IH].
Qed.

Lemma doc_calls_unchecked old ids :
  Forall (λ c, ∀ r, call_fresh c r) (ids ≫= doc_calls old).
Proof.
  induction ids as [|id ids IH]; [by apply Forall_nil|].
  rewrite bind_cons. apply Forall_app. split; [|done].
  unfold doc_calls. destruct (r_docs old !! id); [|by apply Forall_nil].
  by apply Forall_singleton.
Qed.

Lemma macro_calls_unchecked old ids :
  Forall (λ c, ∀ r, call_fresh c r) (ids ≫= macro_calls old).
Proof.
  induction ids as [|id ids IH]; [by apply Forall_nil|].
  rewrite bind_cons. apply Forall_app. split; [|done].
  unfold macro_calls. destruct (r_macros old !! id); [|by apply Forall_nil].
  by apply Forall_singleton.
Qed.

(** X16.  A reuse that fails is not undone.  When every doc entry of the
    old record has its doc but a macro entry has no macro in the old
    registry, [sanitized_update] raises the consistency error for that
    macro id and leaves [self] and the file objects as the insertions made
    so far left them: every doc of the old record and every macro listed
    before the missing one has been inserted and recorded. *)
Theorem failed_reuse_keeps_insertions
    (fuel : nat) (sf : loc) (p : Pass) (f fo : SourceFile)
    (before rest : list string) (id : string) :
  objects p !! sf = Some f → isinstance_RemoteFile (path f) = false →
  objects p !! target (old_result p) sf f = Some fo →
  is_Some (objects p !! target (self p) sf f) →
  target (self p) sf f ≠ target (old_result p) sf f →
  (fuel_for fo ≤ fuel)%nat →
  Forall (λ id, is_Some (r_docs (old_result p) !! id)) (docs fo) →
  macros fo = before ++ id :: rest →
  Forall (λ id, is_Some (r_macros (old_result p) !! id)) before →
  r_macros (old_result p) !! id = None →
  let cs := (docs fo ≫= doc_calls (old_result p)) ++
            (before ≫= macro_calls (old_result p)) in
  ∃ p',
    sanitized_update fuel sf p = (Raise (CompilationException id "macros"), p') ∧
    for_each (call sf) cs (mkEnv (self p) (objects p))
    = (Ok tt, mkEnv (self p') (objects p')) ∧
    old_result p' = track sf f (old_result p).
Proof.
  intros Hf Hremote Hlo Ht Hne Hfuel Hdocs Hmacros Hbefore Hmissing cs.
  destruct p as [new old h]. simpl in *.
  destruct (fuel_for_enough fo fuel Hfuel) as (Ld & Lm & Ls & Ln & Lp).
  destruct (sanitized_update_snapshot fuel sf (mkPass new old h) f fo)
    as [Hrun HP]; simpl; try done.
  simpl in Hrun, HP.
  set (old' := track sf f old) in *.
  set (p1 := mkPass new old' h) in *.
  destruct (track_maps sf f old) as (_ & _ & Edocs & Emacros & _).
  fold old' in Edocs, Emacros.
  assert (Edc : ∀ ids, ids ≫= doc_calls old' = ids ≫= doc_calls old).
  { intros ids. unfold doc_calls. by rewrite Edocs. }
  assert (Emc : ∀ ids, ids ≫= macro_calls old' = ids ≫= macro_calls old).
  { intros ids. unfold macro_calls. by rewrite Emacros. }
  destruct (reuse_loop_run sf f (target new sf f) (target old sf f) fo old' (reuse_doc sf) (doc_calls old')
              (docs fo) p1) as [Hloop1 HP1].
  { intros x q Hx HQ _.
    apply (reuse_bodies_run sf f (target new sf f) (target old sf f) fo old' x q HQ). rewrite Edocs.
    by apply (proj1 (Forall_forall _ _) Hdocs). }
  { exact HP. }
  { apply calls_fresh_unchecked, doc_calls_unchecked. }
  set (p2 := pass_after sf f (docs fo ≫= doc_calls old') p1) in *.
  destruct (reuse_loop_run sf f (target new sf f) (target old sf f) fo old' (reuse_macro sf) (macro_calls old')
              before p2) as [Hloop2 HP2].
  { intros x q Hx HQ _.
    apply (reuse_bodies_run sf f (target new sf f) (target old sf f) fo old' x q HQ). rewrite Emacros.
    by apply (proj1 (Forall_forall _ _) Hbefore). }
  { exact HP1. }
  { apply calls_fresh_unchecked, macro_calls_unchecked. }
  set (p3 := pass_after sf f (before ≫= macro_calls old') p2) in *.
  assert (Hp3 : p3 = pass_after sf f cs p1).
  { unfold p3, p2, cs. by rewrite pass_after_app, Edc, Emc. }
  destruct (reuse_missing sf id p3) as (_ & Hraise & _).
  destruct HP2 as (Hold3 & _). rewrite Hold3, Emacros in Hraise.
  specialize (Hraise Hmissing).
  exists p3. split; [|split].
  - rewrite Hrun. unfold reuse_snapshot. unfold bind at 1. rewrite Hloop1.
    unfold bind at 1. rewrite Hmacros, for_each_app. unfold bind at 1.
    rewrite Hloop2. simpl. unfold bind at 1. by rewrite Hraise.
  - destruct HP as (_ & _ & _ & Hreached).
    destruct (calls_run sf f _ cs _ Hreached) as [Hcalls _].
    { apply calls_fresh_unchecked. apply Forall_app.
      split; [apply doc_calls_unchecked|apply macro_calls_unchecked]. }
    simpl in Hcalls. rewrite Hcalls, Hp3. unfold pass_after. simpl.
    by destruct (foldl _ _ cs).
  - rewrite Hp3. done.
Qed.

Lemma failed_reuse_keeps_insertions_witness :
  let d := mkDoc "doc.p.intro" "Welcome" in
  let stored := mkSourceFile (FilePath "docs/a.md") "H1" (Some "/p/docs/a.md")
                  [] ["doc.p.intro"] ["macro.p.gone"] [] [] in
  let candidate := mkSourceFile (FilePath "docs/a.md") "H1"
                     (Some "/p/docs/a.md") [] [] [] [] [] in
  let old := mkParseResult "" "" ∅ ∅ ∅ {[ "doc.p.intro" := d ]} ∅ ∅
               {[ "/p/docs/a.md" := 0 ]} ∅ "" in
  let p := mkPass (rpc "" "0.17.0") old {[ 0 := stored; 1 := candidate ]} in
  ∃ p',
    sanitized_update 2 1 p
    = (Raise (CompilationException "macro.p.gone" "macros"), p') ∧
    for_each (call 1) [CallDoc d] (mkEnv (self p) (objects p))
    = (Ok tt, mkEnv (self p') (objects p')) ∧
    old_result p' = old.
Proof.
  intros d stored candidate old p.
  apply (failed_reuse_keeps_insertions 2 1 p candidate stored [] []
           "macro.p.gone").
  - reflexivity.
  - reflexivity.
  - reflexivity.
  - vm_compute. by eexists.
  - vm_compute. discriminate.
  - vm_compute. lia.
  - apply Forall_cons. split; [|by apply Forall_nil]. vm_compute. by eexists.
  - reflexivity.
  - by apply Forall_nil.
  - reflexivity.
Defined.

(** ** What a reuse writes to *)

(** While insertions for the file [sf] run, the record [t] that [self]
    returns for the file stays the same object and is the only object of
    the store that changes. *)
Lemma call_writes_one_record sf f t (h0 : gmap loc SourceFile) c :
  preserves
    (λ e, target (result e) sf f = t ∧
          (∃ f', store e !! sf = Some f' ∧ same_file f f') ∧
          ∀ l, l ≠ t → store e !! l = h0 !! l)
    (call sf c).
Proof.
  intros [r h] (Ht & (f' & Hf' & Hsame) & Hrest). simpl in *.
  destruct (same_file_target (call_result c r) sf f f' Hsame) as [Htg Htr].
  assert (Ht1 : target (track sf f (call_result c r)) sf f = t)
    by (by rewrite target_track, target_call_result).
  destruct (call_cases sf c (mkEnv r h))
    as [->|[->|[(f1 & Hf1 & ->)|(f1 & ft & Hf1 & Hft & ->)]]]; simpl in *.
  - eauto.
  - rewrite target_call_result. eauto.
  - simplify_eq. rewrite Htr. eauto.
  - simplify_eq. rewrite Htr, Htg, target_call_result in *.
    split; [done|]. split.
    + destruct (decide (target r sf f = sf)) as [Heq|Hne].
      * rewrite Heq in *. rewrite lookup_insert_eq. simplify_eq.
        eexists. split; [done|].
        eapply same_file_trans; [exact Hsame|apply same_file_call_append].
      * rewrite lookup_insert_ne by done. eauto.
    + intros l Hl. rewrite lookup_insert_ne by done. by apply Hrest.
Qed.

(** X2.  A reuse writes to one file object.  Take [self] and [old_result]
    to be two registry objects (the one case the embedding covers) over
    file objects they may share.  However [sanitized_update] ends, the
    only file object it has changed is the record [self.get_file] returns
    for the file, which is the same object before and after; every other
    object, the records of the old registry among them, is untouched.  Of
    [old_result] itself only [files] may have changed, by the call of
    [old_result.get_file]: it has at most gained the file under a key that
    was free. *)
Theorem reuse_writes_one_record
    (fuel : nat) (sf : loc) (p : Pass) (f : SourceFile) :
  objects p !! sf = Some f →
  let p' := snd (sanitized_update fuel sf p) in
  (∀ l, l ≠ target (self p) sf f → objects p' !! l = objects p !! l) ∧
  target (self p') sf f = target (self p) sf f ∧
  old_kept sf (old_result p) (old_result p').
Proof.
  intros Hf p'.
  pose proof (sanitized_update_preserves _ fuel sf
                (call_writes_one_record sf f (target (self p) sf f) (objects p))
                p) as Hinv.
  simpl in Hinv. destruct Hinv as (Ht & _ & Hrest).
  { split; [done|]. split; [|done]. exists f. split; [done|apply same_file_refl]. }
  split; [exact Hrest|]. split; [exact Ht|].
  apply (steps_sanitized_update fuel sf p).
Qed.

Lemma reuse_writes_one_record_witness :
  let n := mkNode "model.p.a" "models/a.sql" "select 1" in
  let d := mkDoc "doc.p.a" "about a" in
  let stored := mkSourceFile (FilePath "models/a.sql") "H1"
                  (Some "/p/models/a.sql") ["model.p.a"] ["doc.p.a"] [] [] [] in
  let candidate := mkSourceFile (FilePath "models/a.sql") "H1"
                     (Some "/p/models/a.sql") [] [] [] [] [] in
  let other := mkSourceFile (FilePath "models/b.sql") "H2"
                 (Some "/p/models/b.sql") [] [] [] [] [] in
  let old := mkParseResult "" "" ∅ {[ "model.p.a" := n ]} ∅ {[ "doc.p.a" := d ]}
               ∅ ∅ {[ "/p/models/a.sql" := 0 ]} ∅ "" in
  let p := mkPass (rpc "" "0.17.0") old
             {[ 0 := stored; 1 := candidate; 2 := other ]} in
  let p' := snd (sanitized_update 3 1 p) in
  (∀ l, l ≠ 1 → objects p' !! l = objects p !! l) ∧
  target (self p') 1 candidate = 1 ∧
  old_kept 1 old (old_result p') ∧
  objects p' !! 1 =
    Some (mkSourceFile (FilePath "models/a.sql") "H1" (Some "/p/models/a.sql")
            ["model.p.a"] ["doc.p.a"] [] [] []).
Proof.
  intros n d stored candidate other old p p'.
  destruct (reuse_writes_one_record 3 1 p candidate eq_refl)
    as (Hrest & Ht & Hold).
  split; [exact Hrest|]. split; [exact Ht|]. split; [exact Hold|].
  vm_compute. reflexivity.
Defined.

(** ** How a reuse can end *)

Lemma runs_ret {St A} (Q : St → Prop) (a : A) : runs Q (@ret St A a).
Proof. by intros s Hs. Qed.

Lemma runs_raise {St A} (Q : St → Prop) exn : runs Q (@raise St A exn).
Proof. by intros s Hs. Qed.

Lemma runs_gets {St A} (Q : St → Prop) (g : St → A) : runs Q (gets g).
Proof. by intros s Hs. Qed.

Lemma runs_bind {St A B} (Q : St → Prop) (m : M St A) (k : A → M St B) :
  runs Q m → (∀ a, runs Q (k a)) → runs Q (bind m k).
Proof.
  intros Hm Hk s Hs. unfold bind. destruct (Hm s Hs) as [Hns HQ].
  destruct (m s) as [[a|exn| |] s']; simpl in *; try done. by apply Hk.
Qed.

Lemma runs_for_each {St A} (Q : St → Prop) (body : A → M St unit) xs :
  (∀ x, runs Q (body x)) → runs Q (for_each body xs).
Proof.
  intros Hbody. induction xs as [|x xs IH]; simpl.
  - apply runs_ret.
  - by apply runs_bind.
Qed.

Lemma runs_for_in {St A} (Q : St → Prop) fuel (lv : St → option (list A))
    (body : A → M St unit) i :
  (∀ s, Q s → is_Some (lv s)) → (∀ x, runs Q (body x)) →
  runs Q (for_in fuel lv body i).
Proof.
  intros Hlive Hbody. revert i.
  induction fuel as [|fuel IH]; intros i s Hs; simpl; [done|].
  destruct (Hlive s Hs) as [xs ->].
  destruct (xs !! i) as [x|]; [|done].
  apply (runs_bind Q (body x)); [apply Hbody| |done]. intros _. apply IH.
Qed.

Lemma runs_expect_value {St T} (Q : St → Prop) key (src : gmap string T) tbl :
  runs Q (_expect_value key src tbl).
Proof. intros s Hs. unfold _expect_value. by destruct (src !! key). Qed.

Lemma runs_call sf lo c : runs (objects_alive sf lo) (call sf c).
Proof.
  intros [r h] ([f Hf] & [fo Hlo] & Halive). simpl in *.
  assert (Halive' : refs_alive (snd (call sf c (mkEnv r h))))
    by (by apply refs_alive_call).
  destruct (decide (call_fresh c r)) as [Hfresh|Hstale].
  - assert (Halive1 : refs_alive (mkEnv (call_result c r) h)).
    { unfold refs_alive in *. simpl in *. by rewrite call_result_files. }
    destruct (target_alive (mkEnv (call_result c r) h) sf f Halive1 Hf)
      as [ft Hft].
    simpl in Hft.
    rewrite (call_unfold sf c (mkEnv r h) Hfresh) in *.
    unfold bind in *.
    rewrite (get_file_run (on_result (call_result c) (mkEnv r h)) sf f Hf) in *.
    unfold mutate, bind, deref, modify in *. simpl in *. rewrite Hft in *.
    simpl in *. split; [done|]. split; [|split; [|done]]; simpl;
      apply lookup_insert_is_Some'; right; by eexists.
  - destruct (call_stale sf c (mkEnv r h) Hstale) as (exn & -> & _).
    split; [done|]. split; [by eexists|]. split; [by eexists|done].
Qed.

Lemma runs_on_self {A} (Q : Env → Prop) (m : M Env A) :
  runs Q m → runs (λ p, Q (mkEnv (self p) (objects p))) (on_self m).
Proof.
  intros Hm p Hp. unfold on_self. destruct (Hm _ Hp) as [Hns HQ].
  by destruct (m _) as [o [r h]].
Qed.

Lemma runs_on_old_get_disabled sf lo id :
  runs (λ p, objects_alive sf lo (mkEnv (self p) (objects p)))
    (on_old (_get_disabled id sf)).
Proof.
  intros [new old h] Hp. pose proof Hp as ([f Hf] & _). simpl in *.
  unfold on_old. simpl.
  destruct (disabled old !! id) as [vs|] eqn:Hd.
  - by rewrite (_get_disabled_run (mkEnv old h) id sf f vs).
  - by rewrite (_get_disabled_absent (mkEnv old h) id sf).
Qed.

Lemma runs_reuse sf lo id :
  let Q := λ p, objects_alive sf lo (mkEnv (self p) (objects p)) in
  runs Q (reuse_doc sf id) ∧ runs Q (reuse_macro sf id) ∧
  runs Q (reuse_source sf id) ∧ runs Q (reuse_node sf id) ∧
  runs Q (reuse_patch sf id).
Proof.
  intros Q.
  assert (Hcall : ∀ c, runs Q (on_self (call sf c))).
  { intros c. apply (runs_on_self (objects_alive sf lo)), runs_call. }
  unfold reuse_doc, reuse_macro, reuse_source, reuse_node, reuse_patch.
  split; [|split; [|split; [|split]]].
  - apply runs_bind; [apply runs_gets|intros src].
    apply runs_bind; [apply runs_expect_value|intros d].
    apply (Hcall (CallDoc d)).
  - apply runs_bind; [apply runs_gets|intros src].
    apply runs_bind; [apply runs_expect_value|intros m].
    apply (Hcall (CallMacro m)).
  - apply runs_bind; [apply runs_gets|intros src].
    apply runs_bind; [apply runs_expect_value|intros s].
    apply (Hcall (CallSource s)).
  - apply runs_bind; [apply runs_gets|intros old].
    destruct (r_nodes old !! id) as [n|]; [apply (Hcall (CallNode n))|].
    destruct (disabled old !! id); [|apply runs_raise].
    apply runs_bind; [apply runs_on_old_get_disabled|intros matches].
    apply runs_for_each. intros v. apply (Hcall (CallDisabled v)).
  - apply runs_bind; [apply runs_gets|intros src].
    apply runs_bind; [apply runs_expect_value|intros pt].
    apply (Hcall (CallPatch pt)).
Qed.

(** X3.  How [sanitized_update] can end.  What it raises is the
    consistency error ([CompilationException]) or what the duplicate check
    of an insertion raises; it never raises the [InternalException] of
    [_get_disabled], which it calls only behind the test that the id is a
    key of [old_result.disabled].  And when the file and the records that
    the two registries track are objects, no step fails on a reference:
    the call returns, raises one of these errors, or is still looping when
    the fuel is spent. *)
Theorem reuse_ends_in_known_ways (fuel : nat) (sf : loc) (p : Pass) :
  (∀ exn, fst (sanitized_update fuel sf p) = Raise exn →
     (is_consistency_error exn ∨ is_duplicate_error exn) ∧
     ¬ is_internal_error exn) ∧
  (is_Some (objects p !! sf) →
   refs_alive (mkEnv (self p) (objects p)) →
   refs_alive (mkEnv (old_result p) (objects p)) →
   fst (sanitized_update fuel sf p) ≠ Stuck).
Proof.
  split.
  - intros exn Hraise.
    pose proof (raises_only_sanitized_update fuel sf p exn Hraise) as Hexn.
    split; [done|]. intros Hint. destruct exn; try done. by destruct Hexn.
  - intros [f Hf] Hself Hold. destruct p as [new old h]. simpl in *.
    unfold sanitized_update, bind at 1, on_self at 1, deref. simpl.
    rewrite Hf. destruct (isinstance_RemoteFile (path f)); [done|].
    unfold bind at 1, on_old. cbn [self old_result objects result store].
    rewrite (get_file_run (mkEnv old h) sf f Hf). simpl.
    set (lo := target old sf f).
    set (Q := λ p, objects_alive sf lo (mkEnv (self p) (objects p))).
    assert (HQ : Q (mkPass new (track sf f old) h)).
    { split; [by eexists|]. split; [|done].
      apply (target_alive (mkEnv old h) sf f Hold Hf). }
    assert (Hlive : ∀ A (attr : SourceFile → list A) q,
              Q q → is_Some (live lo attr q)).
    { intros A attr q (_ & [fo Hfo] & _). unfold live. simpl in *.
      rewrite Hfo. by eexists. }
    assert (Hloops : runs Q
      (for_in fuel (live lo docs) (reuse_doc sf) 0 ;;;
       for_in fuel (live lo macros) (reuse_macro sf) 0 ;;;
       for_in fuel (live lo sources) (reuse_source sf) 0 ;;;
       for_in fuel (live lo nodes) (reuse_node sf) 0 ;;;
       for_in fuel (live lo patches) (reuse_patch sf) 0 ;;;
       ret true)).
    { repeat (apply runs_bind;
              [apply runs_for_in; [apply Hlive|intros id]|intros _]);
        [..|apply runs_ret]; apply (runs_reuse sf lo id). }
    apply (Hloops _ HQ).
Qed.

Lemma reuse_ends_in_known_ways_witness :
  let v := mkNode "model.p.off" "models/a.sql" "select 2" in
  let stored := mkSourceFile (FilePath "models/a.sql") "H1"
                  (Some "/p/models/a.sql") ["model.p.off"; "model.p.gone"]
                  [] [] [] [] in
  let candidate := mkSourceFile (FilePath "models/a.sql") "H1"
                     (Some "/p/models/a.sql") [] [] [] [] [] in
  let old := mkParseResult "" "" ∅ ∅ ∅ ∅ ∅ ∅ {[ "/p/models/a.sql" := 0 ]}
               {[ "model.p.off" := [v] ]} "" in
  let p := mkPass (rpc "" "0.17.0") old {[ 0 := stored; 1 := candidate ]} in
  fst (sanitized_update 3 1 p)
  = Raise (CompilationException "model.p.gone"
             "manifest.nodes/manifest.disabled") ∧
  fst (sanitized_update 3 1 p) ≠ Stuck.
Proof.
  intros v stored candidate old p.
  split; [vm_compute; reflexivity|].
  apply (proj2 (reuse_ends_in_known_ways 3 1 p)).
  - vm_compute. by eexists.
  - apply (bool_decide_unpack _). vm_compute. reflexivity.
  - apply (bool_decide_unpack _). vm_compute. reflexivity.
Defined.

(** ** The registry invariant over the files of a registry *)

Lemma registered_at_grows r r' h l :
  grows r r' → registered_at (mkEnv r h) l → registered_at (mkEnv r' h) l.
Proof.
  unfold registered_at. simpl. intros Hg. destruct (h !! l); [|done].
  by apply ids_registered_mono.
Qed.

Lemma registered_on_grows (own : gset loc) r r' h :
  grows r r' → files r' = files r →
  registered_on own (mkEnv r h) → registered_on own (mkEnv r' h).
Proof.
  intros Hg Hfiles [Hreg Hown]. split.
  - intros l Hl. by apply (registered_at_grows r r'), Hreg.
  - simpl in *. by rewrite Hfiles.
Qed.

Lemma registered_on_track (own : gset loc) sf f r h :
  sf ∈ own → registered_on own (mkEnv r h) →
  registered_on own (mkEnv (track sf f r) h).
Proof.
  intros Hsf [Hreg Hown]. split.
  - intros l Hl. specialize (Hreg l Hl). unfold registered_at in *. simpl in *.
    destruct (h !! l); [|done]. by apply ids_registered_track.
  - simpl in *. unfold track. destruct (search_key f) as [key|]; [|done].
    destruct (files r !! key); [done|]. simpl. by apply map_Forall_insert_2.
Qed.

Lemma registered_on_get_file (own : gset loc) sf :
  sf ∈ own → preserves (registered_on own) (get_file sf).
Proof.
  intros Hsf [r h] He.
  destruct (get_file_cases sf (mkEnv r h)) as [->|(f & Hf & ->)]; [done|].
  by apply registered_on_track.
Qed.

Lemma registered_on_call (own : gset loc) sf c :
  sf ∈ own → preserves (registered_on own) (call sf c).
Proof.
  intros Hsf [r h] He.
  assert (He1 : registered_on own (mkEnv (call_result c r) h)).
  { revert He. apply registered_on_grows;
      [apply call_result_grows|apply call_result_files]. }
  destruct (call_cases sf c (mkEnv r h))
    as [->|[->|[(f & Hf & ->)|(f & ft & Hf & Ht & ->)]]]; simpl in *;
    [done|done|by apply registered_on_track|].
  destruct (registered_on_track own sf f _ _ Hsf He1) as [Hreg Hown].
  split; [|done]. intros l Hl. specialize (Hreg l Hl).
  unfold registered_at in *. simpl in *.
  destruct (decide (target (call_result c r) sf f = l)) as [<-|Hne].
  - rewrite lookup_insert_eq. rewrite Ht in Hreg.
    apply ids_registered_track, call_append_registered.
    by apply ids_registered_track in Hreg.
  - by rewrite lookup_insert_ne.
Qed.

Lemma registered_on_consistent (own : gset loc) e : registered_on own e → files_consistent e.
Proof.
  intros [Hreg Hown] key l Hk. simpl. apply (Hreg l), (Hown key l Hk).
Qed.

(** X6.  The registry invariant closes over the files a registry is used
    with.  Let [own] be file objects such that each lists only ids that
    are registered and [files] refers to none but them; the store may hold
    any other objects, such as the records of an old registry.  Then after
    any operation on a file of [own], however it ends and whatever it
    reuses from, the same is true, and so every record of [files] is
    consistent with the mappings. *)
Theorem operations_keep_own_files_registered
    (own : gset loc) (op : Op) (e : Env) :
  registered_on own e → op_file op ∈ own →
  registered_on own (after op e) ∧ files_consistent (after op e).
Proof.
  intros He Hop.
  assert (He' : registered_on own (after op e)).
  { revert He. apply (after_preserves (registered_on own)).
    - by apply registered_on_get_file.
    - intros c. by apply registered_on_call. }
  split; [done|]. by apply (registered_on_consistent own).
Qed.

Lemma operations_keep_own_files_registered_witness :
  let n := mkNode "model.p.a" "models/a.sql" "select 1" in
  let s := mkSource "source.p.raw.events" "events" in
  let stored := mkSourceFile (FilePath "models/a.sql") "H1"
                  (Some "/p/models/a.sql") ["model.p.a"] [] []
                  ["source.p.raw.events"] [] in
  let candidate := mkSourceFile (FilePath "models/a.sql") "H1"
                     (Some "/p/models/a.sql") [] [] [] [] [] in
  let old := mkParseResult "" "" ∅ {[ "model.p.a" := n ]}
               {[ "source.p.raw.events" := s ]} ∅ ∅ ∅
               {[ "/p/models/a.sql" := 0 ]} ∅ "" in
  let e := mkEnv (rpc "" "0.17.0") {[ 0 := stored; 1 := candidate ]} in
  let e' := after (ReuseFile 3 old 1) e in
  registered_on {[ 1 ]} e' ∧ files_consistent e' ∧
  store e' !! 1 = Some stored ∧ r_nodes (result e') !! "model.p.a" = Some n.
Proof.
  intros n s stored candidate old e e'.
  destruct (operations_keep_own_files_registered {[ 1 ]} (ReuseFile 3 old 1) e)
    as [Hreg Hcons].
  - apply (bool_decide_unpack _). vm_compute. reflexivity.
  - apply elem_of_singleton. reflexivity.
  - split; [exact Hreg|]. split; [exact Hcons|].
    split; vm_compute; reflexivity.
Defined.

Lemma run_ops_preserves_on (P : Env → Prop) (ok : Op → Prop) :
  (∀ op e, ok op → P e → P (after op e)) →
  ∀ ops e, Forall ok ops → P e → P (run_ops ops e).
Proof.
  intros Hstep ops. induction ops as [|op ops IH] using rev_ind;
    intros e Hok He; [done|].
  apply Forall_app in Hok as [Hops Hop].
  rewrite run_ops_snoc. apply Hstep; [by inversion Hop|by apply IH].
Qed.

(** X7.  [ParseResult.rpc()] builds an empty registry whose two pinned
    fingerprints are [FileHash.empty()], whose [project_hashes] is empty
    and whose version is the running one.  Use it with file objects [own]
    that list nothing yet; the store may hold any other objects, such as
    the records of old registries with their artifacts.  Then every
    sequence of operations on files of [own], returning or raising and
    reusing from any old registry, leads to a registry with the same
    pinned inputs and version in which each file of [own] and so each
    record of [files] lists registered ids only, every file object of
    [files] sits under its own search key, and every artifact is stored
    under its own id; no file object is created or lost. *)
Theorem rpc_registry_invariants
    (FileHash_empty : FileHash) (__version__ : string)
    (h : gmap loc SourceFile) (own : gset loc) (ops : list Op) :
  fresh_on own h → Forall (λ op, op_file op ∈ own) ops →
  let e := run_ops ops (mkEnv (rpc FileHash_empty __version__) h) in
  registered_on own e ∧ files_consistent e ∧ files_keyed e ∧
  well_keyed (result e) ∧
  vars_hash (result e) = FileHash_empty ∧
  profile_hash (result e) = FileHash_empty ∧
  project_hashes (result e) = ∅ ∧ dbt_version (result e) = __version__ ∧
  dom (store e) = dom h.
Proof.
  intros Hfresh Hops. set (e0 := mkEnv (rpc FileHash_empty __version__) h).
  intros e.
  assert (Hreg : registered_on own e).
  { apply (run_ops_preserves_on (registered_on own) (λ op, op_file op ∈ own));
      [|done|].
    - intros op e1 Hop. apply after_preserves;
        [by apply registered_on_get_file|intros c; by apply registered_on_call].
    - split; [|apply map_Forall_empty]. intros l Hl.
      specialize (Hfresh l Hl). unfold registered_at. simpl in *.
      destruct (h !! l) as [f|]; [|done].
      destruct Hfresh as (En & Ed & Em & Es & Ep).
      unfold ids_registered. rewrite En, Ed, Em, Es, Ep.
      repeat (split; [by apply Forall_nil|]). by apply Forall_nil. }
  assert (Hkeyed : files_keyed e).
  { apply (run_ops_preserves files_keyed).
    - intros op. apply after_preserves;
        [apply files_keyed_get_file|apply files_keyed_call].
    - apply map_Forall_empty. }
  assert (Hown : well_keyed (result e)).
  { apply (run_ops_preserves (λ e, well_keyed (result e))).
    - intros op. apply (after_preserves (λ e, well_keyed (result e)));
        [apply well_keyed_get_file|apply well_keyed_call].
    - apply rpc_well_keyed. }
  destruct (run_ops_later ops e0 e0 (reflexivity _))
    as [(_ & _ & _ & _ & _ & _ & _ & Hv & Hp & Hj & Hd) [Hdom _]].
  fold e in Hv, Hp, Hj, Hd, Hdom.
  split; [done|]. split; [by apply (registered_on_consistent own)|].
  repeat (split; [done|]). done.
Qed.

Lemma rpc_registry_invariants_witness :
  let n := mkNode "model.p.a" "models/a.sql" "select 1" in
  let m := mkNode "model.p.b" "models/b.sql" "select 2" in
  let d := mkDoc "doc.p.intro" "Welcome" in
  let stored := mkSourceFile (FilePath "models/a.sql") "H1"
                  (Some "/p/models/a.sql") ["model.p.a"] ["doc.p.intro"]
                  [] [] [] in
  let fa := mkSourceFile (FilePath "models/a.sql") "H1" (Some "/p/models/a.sql")
              [] [] [] [] [] in
  let fb := mkSourceFile (FilePath "models/b.sql") "H2" None [] [] [] [] [] in
  let old := mkParseResult "" "" ∅ {[ "model.p.a" := n ]} ∅
               {[ "doc.p.intro" := d ]} ∅ ∅ {[ "/p/models/a.sql" := 0 ]} ∅ "" in
  let h : gmap loc SourceFile := {[ 0 := stored; 1 := fa; 2 := fb ]} in
  let ops := [ReuseFile 3 old 1; AddNode 2 m; AddNode 2 n; GetFile 2] in
  let e := run_ops ops (mkEnv (rpc "" "0.17.0") h) in
  (registered_on {[ 1; 2 ]} e ∧ files_consistent e ∧ files_keyed e ∧
   well_keyed (result e) ∧
   vars_hash (result e) = "" ∧ profile_hash (result e) = "" ∧
   project_hashes (result e) = ∅ ∧ dbt_version (result e) = "0.17.0" ∧
   dom (store e) = dom h) ∧
  store e !! 1 =
    Some (mkSourceFile (FilePath "models/a.sql") "H1" (Some "/p/models/a.sql")
            ["model.p.a"] ["doc.p.intro"] [] [] []) ∧
  r_nodes (result e) = {[ "model.p.a" := n; "model.p.b" := m ]}.
Proof.
  intros n m d stored fa fb old h ops e.
  split; [|split; vm_compute; reflexivity].
  apply (rpc_registry_invariants "" "0.17.0" h {[ 1; 2 ]} ops).
  - apply (bool_decide_unpack _). vm_compute. reflexivity.
  - apply (bool_decide_unpack _). vm_compute. reflexivity.
Defined.
